(** * gh-context: the SSH client-configuration editor (package [ssh])

    A shallow embedding of [src/internal/auth/auth.go], second half (the
    [ssh] package: [ParseConfig], [parseBlocks], [FindHostBlock],
    [GetActiveIdentityFile], [ActivateKey], [AddIdentityFile], [Save],
    [ExpandPath], [KeyExists] and their helpers), together with the parts
    of the Go standard library the code calls ([strings.TrimSpace],
    [strings.TrimLeft], [strings.Join], the two regular expressions,
    [bufio.ScanLines], [filepath.Clean]).  Of the first half (the [auth]
    package) the login check is embedded, at the end of the file.

    Conventions.
    - A Go [string] is a sequence of bytes: [str := list ascii].
    - Slice indices and lengths are [nat]: every index the code computes is
      bounded by a slice length, so Go's 64-bit [int] never wraps.
    - A method with a pointer receiver that mutates the [ConfigFile] and
      returns an [error] becomes a function returning the new
      configuration together with [option error]; a run-time panic (index
      or slice bound out of range) is the outer [None]. *)

From Stdlib Require Import Ascii String ZArith Lia.
From stdpp Require Import base list option strings.

Set Default Proof Using "Type".

(** ** Strings *)

Abbreviation str := (list ascii).

(** A string literal as a Go string. *)
Definition bs (s : string) : str := list_ascii_of_string s.

Definition TAB : ascii := "009"%char.
Definition LF : ascii := "010"%char.
Definition VT : ascii := "011"%char.
Definition FF : ascii := "012"%char.
Definition CR : ascii := "013"%char.
Definition SP : ascii := " "%char.

Definition oneOf (cs : list ascii) (c : ascii) : bool := existsb (Ascii.eqb c) cs.

Fixpoint takeWhile {A} (p : A -> bool) (l : list A) : list A :=
  match l with
  | x :: t => if p x then x :: takeWhile p t else []
  | [] => []
  end.

Fixpoint dropWhile {A} (p : A -> bool) (l : list A) : list A :=
  match l with
  | x :: t => if p x then dropWhile p t else l
  | [] => []
  end.

Definition dropWhileEnd {A} (p : A -> bool) (l : list A) : list A :=
  rev (dropWhile p (rev l)).

(** [strings.HasPrefix] with the remainder: [Some t] when [s = p ++ t]. *)
Fixpoint stripPrefix (p s : str) : option str :=
  match p, s with
  | [], _ => Some s
  | a :: p', b :: s' => if Ascii.eqb a b then stripPrefix p' s' else None
  | _ :: _, [] => None
  end.

Definition HasPrefix (s p : str) : bool := bool_decide (is_Some (stripPrefix p s)).
Definition HasSuffix (s p : str) : bool := HasPrefix (rev s) (rev p).

(** [strings.Join(elems, sep)]. *)
Fixpoint Join (elems : list str) (sep : str) : str :=
  match elems with
  | [] => []
  | [e] => e
  | e :: rest => e ++ sep ++ Join rest sep
  end.

(** *** [strings.TrimSpace]

    Go trims, at both ends, every rune for which [unicode.IsSpace] holds.
    [whiteSpace] lists the UTF-8 encodings of those runes: U+0009..U+000D,
    U+0020, U+0085, U+00A0, U+1680, U+2000..U+200A, U+2028, U+2029, U+202F,
    U+205F and U+3000.  A valid encoding is decoded as its rune both from the
    left ([DecodeRuneInString]) and from the right
    ([DecodeLastRuneInString]), and any other byte sequence decodes to a rune
    that is not white space, so trimming runes is trimming these byte
    sequences. *)
Definition whiteSpace : list str :=
  map (map ascii_of_nat)
    [ [9]; [10]; [11]; [12]; [13]; [32]; [194; 133]; [194; 160];
      [225; 154; 128];
      [226; 128; 128]; [226; 128; 129]; [226; 128; 130]; [226; 128; 131];
      [226; 128; 132]; [226; 128; 133]; [226; 128; 134]; [226; 128; 135];
      [226; 128; 136]; [226; 128; 137]; [226; 128; 138];
      [226; 128; 168]; [226; 128; 169]; [226; 128; 175];
      [226; 129; 159]; [227; 128; 128] ].

Fixpoint stripAny (ps : list str) (s : str) : option str :=
  match ps with
  | [] => None
  | p :: ps' =>
      match stripPrefix p s with
      | Some t => Some t
      | None => stripAny ps' s
      end
  end.

(** Strip leading members of [ps] while there is one; [fuel] bounds the
    number of rounds, and [length s] rounds always suffice. *)
Fixpoint trimRunes (ps : list str) (fuel : nat) (s : str) : str :=
  match fuel with
  | 0 => s
  | S fuel' =>
      match stripAny ps s with
      | Some t => trimRunes ps fuel' t
      | None => s
      end
  end.

Definition TrimLeftSpace (s : str) : str := trimRunes whiteSpace (length s) s.
Definition TrimRightSpace (s : str) : str :=
  rev (trimRunes (map (@rev ascii) whiteSpace) (length s) (rev s)).
Definition TrimSpace (s : str) : str := TrimRightSpace (TrimLeftSpace s).

(** [strings.TrimLeft(s, " \t")]: the cutset is ASCII, so bytes are trimmed. *)
Definition isBlank : ascii -> bool := oneOf [SP; TAB].
Definition TrimLeftBlank (s : str) : str := dropWhile isBlank s.

(** The leading run of spaces and tabs: what the [for _, ch := range line]
    loops of [uncommentIdentityFile] and [commentIdentityFile] collect, and
    what [line[:len(line)-len(trimmed)]] is in [detectIndent]. *)
Definition leadingIndent (s : str) : str := takeWhile isBlank s.

(** ** The regular expressions

    Go's [regexp] finds the match a backtracking engine finds first
    (leftmost-first): alternatives in order, a greedy repetition trying one
    more round before stopping and a lazy one stopping before trying one
    more round.  [run] is that engine, in continuation-passing style, with
    capture groups.

    The expressions are matched on bytes.  [\s] is the ASCII class
    [[\t\n\f\r ]], [.] is any rune but a newline; no byte of a multi-byte
    rune is ASCII, so a position from which only [\s] remains, or at which a
    literal letter or [#] stands, is a rune boundary, and [.] may be read as
    any byte but a newline.  Both patterns begin with [^] and have no [m]
    flag: a match starts at offset 0 and [$] is the end of the text. *)

Definition reSpace : ascii -> bool := oneOf [TAB; LF; FF; CR; SP].

Definition notLF (c : ascii) : bool := negb (Ascii.eqb c LF).

Definition toUpper (c : ascii) : ascii :=
  let n := nat_of_ascii c in
  if (97 <=? n) && (n <=? 122) then ascii_of_nat (n - 32) else c.

Definition toLower (c : ascii) : ascii :=
  let n := nat_of_ascii c in
  if (65 <=? n) && (n <=? 90) then ascii_of_nat (n + 32) else c.

(** Under [(?i)] a literal letter matches every rune of its simple
    case-folding orbit: the two ASCII cases, and for [s] also U+017F (long
    s, bytes C5 BF), for [k] also U+212A (Kelvin sign, bytes E2 84 AA). *)
Definition foldOrbit (c : ascii) : list str :=
  [ [toLower c]; [toUpper c] ] ++
  (if Ascii.eqb (toLower c) "s" then [map ascii_of_nat [197; 191]] else []) ++
  (if Ascii.eqb (toLower c) "k" then [map ascii_of_nat [226; 132; 170]] else []).

Inductive re : Type :=
  | Chr (p : ascii -> bool)         (* one byte of a class *)
  | Seq (a b : re)
  | Alt (a b : re)                  (* a|b, a first *)
  | Star (greedy : bool) (a : re)   (* a* and a*? *)
  | Group (n : nat) (a : re)        (* capture group n *)
  | Eol                             (* $ *)
  | Empty.

(** The text of each capture group that took part in the match. *)
Definition caps : Type := nat -> option str.

Definition setCap (n : nat) (v : str) (cs : caps) : caps :=
  fun m => if Nat.eqb m n then Some v else cs m.

Definition orElse {A} (x y : option A) : option A :=
  match x with Some _ => x | None => y end.

(** What remains to be matched after an expression: a function of the rest
    of the text and the groups so far. *)
Definition kont : Type := str -> caps -> option caps.

(** Repetition of the matcher [ma].  A round that consumes nothing is not
    repeated, so [length s] rounds suffice. *)
Fixpoint star (greedy : bool) (ma : str -> caps -> kont -> option caps)
    (fuel : nat) (s : str) (cs : caps) (k : kont) : option caps :=
  match fuel with
  | 0 => k s cs
  | S fuel' =>
      let more :=
        ma s cs (fun s' cs' =>
                   if length s' <? length s then star greedy ma fuel' s' cs' k else None) in
      if greedy then orElse more (k s cs) else orElse (k s cs) more
  end.

Fixpoint run (r : re) (s : str) (cs : caps) (k : kont) : option caps :=
  match r with
  | Chr p => match s with c :: t => if p c then k t cs else None | [] => None end
  | Seq a b => run a s cs (fun s' cs' => run b s' cs' k)
  | Alt a b => orElse (run a s cs k) (run b s cs k)
  | Star g a => star g (run a) (length s) s cs k
  | Group n a =>
      run a s cs (fun s' cs' => k s' (setCap n (take (length s - length s') s) cs'))
  | Eol => match s with [] => k s cs | _ :: _ => None end
  | Empty => k s cs
  end.

Definition plus (greedy : bool) (a : re) : re := Seq a (Star greedy a).   (* a+ and a+? *)
Definition opt (a : re) : re := Alt a Empty.                              (* a? *)

(** A byte string, and one of several byte strings. *)
Definition seqOf (v : str) : re := fold_right (fun b r => Seq (Chr (Ascii.eqb b)) r) Empty v.
Definition altOf (vs : list str) : re :=
  fold_right (fun v r => Alt (seqOf v) r) (Chr (fun _ => false)) vs.

(** A literal letter, and a literal word, under [(?i)]. *)
Definition lit (c : ascii) : re := altOf (foldOrbit c).
Definition lits (kw : str) : re := fold_right (fun c r => Seq (lit c) r) Empty kw.

Definition sp : re := Chr reSpace.   (* \s *)
Definition dot : re := Chr notLF.    (* . *)

(** [\s+(.+?)\s*$], the group being group [n]. *)
Definition tailRe (n : nat) : re :=
  Seq (plus true sp) (Seq (Group n (plus false dot)) (Seq (Star true sp) Eol)).

(** [hostPattern]: [(?i)^\s*Host\s+(.+?)\s*$]. *)
Definition hostPattern : re :=
  Seq (Star true sp) (Seq (lits (bs "Host")) (tailRe 1)).

(** [identityFilePattern]: [(?i)^\s*], the optional group 1 of a [#] and
    [\s*], group 2 [(IdentityFile)], then [\s+(.+?)\s*$] with group 3. *)
Definition identityFilePattern : re :=
  Seq (Star true sp)
    (Seq (opt (Group 1 (Seq (Chr (Ascii.eqb "#")) (Star true sp))))
       (Seq (Group 2 (lits (bs "IdentityFile"))) (tailRe 3))).

Definition noCaps : caps := fun _ => None.
Definition accept : kont := fun _ cs => Some cs.

(** [FindStringSubmatch]: [None] for [nil]; otherwise the text of each
    group, the empty string for a group that took no part. *)
Definition FindStringSubmatch (r : re) (s : str) : option (nat -> str) :=
  (fun cs n => default [] (cs n)) <$> run r s noCaps accept.

(** ** [path/filepath] on Unix

    [filepath.Clean] is Go library code; this is its documented behaviour
    (the loop of [Clean] processes the same path elements one by one):
    empty and [.] elements are dropped, a [..] element removes the element
    before it when there is one that is not itself [..], is dropped at the
    root, and is kept otherwise; the empty result is [.]. *)

Definition SLASH : ascii := "/"%char.

Fixpoint splitSlash (s : str) : list str :=
  match s with
  | [] => [[]]
  | c :: t =>
      if Ascii.eqb c SLASH then [] :: splitSlash t
      else match splitSlash t with
           | e :: es => (c :: e) :: es
           | [] => [[c]]
           end
  end.

(** One path element; [stack] holds the elements written so far, last
    first. *)
Definition cleanStep (rooted : bool) (stack : list str) (e : str) : list str :=
  if bool_decide (e = []) || bool_decide (e = bs ".") then stack
  else if bool_decide (e = bs "..") then
    match stack with
    | top :: below =>
        if bool_decide (top = bs "..") then e :: stack else below
    | [] => if rooted then [] else [e]
    end
  else e :: stack.

Definition Clean (path : str) : str :=
  match path with
  | [] => bs "."
  | c :: _ =>
      let rooted := Ascii.eqb c SLASH in
      let stack := fold_left (cleanStep rooted) (splitSlash path) [] in
      let out := (if rooted then [SLASH] else []) ++ Join (rev stack) [SLASH] in
      match out with
      | [] => bs "."
      | _ :: _ => out
      end
  end.

(** [filepath.Join]: the elements from the first non-empty one on, joined
    by the separator and cleaned; the empty string when all are empty. *)
Fixpoint filepathJoin (elem : list str) : str :=
  match elem with
  | [] => []
  | [] :: rest => filepathJoin rest
  | _ :: _ => Clean (Join elem [SLASH])
  end.

(** ** The data model *)

Module IdentityFileLine.
Record t := mk {
  LineIndex : nat;      (* index within HostBlock.Lines *)
  Path : str;           (* the path to the key, as written *)
  IsCommented : bool;
  FullLine : str        (* original line content *)
}.
End IdentityFileLine.

Module HostBlock.
Record t := mk {
  StartLine : nat;      (* line where "Host X" appears (0-indexed) *)
  EndLine : nat;        (* end of the block (exclusive) *)
  Hostname : str;       (* the pattern from "Host X" *)
  Lines : list str;     (* all lines of the block, the Host line first *)
  IdentityFiles : list IdentityFileLine.t
}.
End HostBlock.

Module ConfigFile.
Record t := mk {
  Path : str;
  Lines : list str;
  Blocks : list HostBlock.t
}.
End ConfigFile.

Inductive error : Type :=
  | ErrNoHostBlock (hostname : str)
      (* no Host block found for '%s' in SSH config *)
  | ErrIdentityFileNotFound (keyPath hostname : str)
      (* IdentityFile '%s' not found in Host %s block *)
  | ErrTooLong
      (* bufio.Scanner: token too long *)
  | ErrFile
      (* the error of os.Open, when it is not a not-exist error, or of reading *)
  | ErrBackupRead
      (* failed to read config for backup: %w *)
  | ErrBackupWrite
      (* failed to create backup: %w *)
  | ErrWrite.
      (* failed to write SSH config: %w *)

(** ** [parseBlocks] *)

(** The loop state: [c.Blocks] and [currentBlock]. *)
Record parseState := mkParseState {
  psBlocks : list HostBlock.t;
  psCurrent : option HostBlock.t
}.

Definition withEndLine (b : HostBlock.t) (i : nat) : HostBlock.t :=
  HostBlock.mk (HostBlock.StartLine b) i (HostBlock.Hostname b)
    (HostBlock.Lines b) (HostBlock.IdentityFiles b).

(** [c.Blocks = append(c.Blocks, *currentBlock)] after setting [EndLine]. *)
Definition saveBlock (st : parseState) (i : nat) : list HostBlock.t :=
  match psCurrent st with
  | Some b => psBlocks st ++ [withEndLine b i]
  | None => psBlocks st
  end.

(** The body of [for i, line := range c.Lines]. *)
Definition parseLine (st : parseState) (i : nat) (line : str) : parseState :=
  match FindStringSubmatch hostPattern line with
  | Some m =>
      mkParseState (saveBlock st i)
        (Some (HostBlock.mk i 0 (TrimSpace (m 1)) [line] []))
  | None =>
      match psCurrent st with
      | Some b =>
          let lines := HostBlock.Lines b ++ [line] in
          let ifs :=
            match FindStringSubmatch identityFilePattern line with
            | Some m =>
                HostBlock.IdentityFiles b ++
                [IdentityFileLine.mk (length lines - 1) (TrimSpace (m 3))
                   (negb (bool_decide (m 1 = []))) line]
            | None => HostBlock.IdentityFiles b
            end in
          mkParseState (psBlocks st)
            (Some (HostBlock.mk (HostBlock.StartLine b) (HostBlock.EndLine b)
                     (HostBlock.Hostname b) lines ifs))
      | None => st
      end
  end.

Fixpoint parseLoop (i : nat) (lines : list str) (st : parseState) : parseState :=
  match lines with
  | [] => st
  | line :: rest => parseLoop (S i) rest (parseLine st i line)
  end.

(** The blocks [parseBlocks] leaves in [c.Blocks]. *)
Definition parseLines (lines : list str) : list HostBlock.t :=
  saveBlock (parseLoop 0 lines (mkParseState [] None)) (length lines).

Definition parseBlocks (c : ConfigFile.t) : ConfigFile.t :=
  ConfigFile.mk (ConfigFile.Path c) (ConfigFile.Lines c)
    (parseLines (ConfigFile.Lines c)).

(** ** [FindHostBlock] and [GetActiveIdentityFile] *)

Fixpoint findBlock (blocks : list HostBlock.t) (hostname : str) : option HostBlock.t :=
  match blocks with
  | [] => None
  | b :: rest =>
      if bool_decide (HostBlock.Hostname b = hostname) then Some b
      else findBlock rest hostname
  end.

Definition FindHostBlock (c : ConfigFile.t) (hostname : str) : option HostBlock.t :=
  findBlock (ConfigFile.Blocks c) hostname.

Fixpoint firstActive (ifls : list IdentityFileLine.t) : str :=
  match ifls with
  | [] => []
  | ifl :: rest =>
      if negb (IdentityFileLine.IsCommented ifl) then IdentityFileLine.Path ifl
      else firstActive rest
  end.

Definition GetActiveIdentityFile (c : ConfigFile.t) (hostname : str) : str :=
  match FindHostBlock c hostname with
  | None => []
  | Some block => firstActive (HostBlock.IdentityFiles block)
  end.

(** ** The operations

    [os.UserHomeDir] reads the environment: [UserHomeDir] is its result for
    the whole run, [None] when it returns an error. *)

Section Operations.

Variable UserHomeDir : option str.

Definition normalizePath (p : str) : str :=
  let p' :=
    match stripPrefix (bs "~/") p with
    | Some rest =>
        match UserHomeDir with
        | Some home => filepathJoin [home; rest]
        | None => p
        end
    | None => p
    end in
  Clean p'.

Definition uncommentIdentityFile (line : str) : str :=
  match FindStringSubmatch identityFilePattern line with
  | None => line
  | Some m => leadingIndent line ++ bs "IdentityFile " ++ TrimSpace (m 3)
  end.

Definition commentIdentityFile (line : str) : str :=
  match FindStringSubmatch identityFilePattern line with
  | None => line
  | Some m =>
      if negb (bool_decide (m 1 = [])) then line
      else leadingIndent line ++ bs "# IdentityFile " ++ TrimSpace (m 3)
  end.

(** [normalizePath(ifl.Path) == normalizedKeyPath]. *)
Definition samePath (normalizedKeyPath : str) (ifl : IdentityFileLine.t) : bool :=
  bool_decide (normalizePath (IdentityFileLine.Path ifl) = normalizedKeyPath).

(** The second loop of [ActivateKey], over [block.IdentityFiles], rewriting
    [c.Lines] in place; [None] when [c.Lines[globalLineIdx]] is out of
    range. *)
Fixpoint activateLoop (normalizedKeyPath : str) (startLine : nat)
    (ifls : list IdentityFileLine.t) (lines : list str) : option (list str) :=
  match ifls with
  | [] => Some lines
  | ifl :: rest =>
      let globalLineIdx := startLine + IdentityFileLine.LineIndex ifl in
      match lines !! globalLineIdx with
      | None => None
      | Some originalLine =>
          let newLine :=
            if samePath normalizedKeyPath ifl
            then uncommentIdentityFile originalLine
            else commentIdentityFile originalLine in
          activateLoop normalizedKeyPath startLine rest
            (<[globalLineIdx := newLine]> lines)
      end
  end.

Definition ActivateKey (c : ConfigFile.t) (hostname keyPath : str)
    : option (ConfigFile.t * option error) :=
  match FindHostBlock c hostname with
  | None => Some (c, Some (ErrNoHostBlock hostname))
  | Some block =>
      let normalizedKeyPath := normalizePath keyPath in
      let found := existsb (samePath normalizedKeyPath) (HostBlock.IdentityFiles block) in
      if negb found then Some (c, Some (ErrIdentityFileNotFound keyPath hostname))
      else
        match activateLoop normalizedKeyPath (HostBlock.StartLine block)
                (HostBlock.IdentityFiles block) (ConfigFile.Lines c) with
        | None => None
        | Some lines =>
            Some (parseBlocks (ConfigFile.mk (ConfigFile.Path c) lines (ConfigFile.Blocks c)),
                  None)
        end
  end.

(** The loop of [detectIndent] over [lines[1:]]. *)
Fixpoint detectIndentLoop (lines : list str) : str :=
  match lines with
  | [] => bs "    "
  | line :: rest =>
      let trimmed := TrimLeftBlank line in
      if negb (bool_decide (trimmed = [])) && negb (bool_decide (trimmed = line))
      then take (length line - length trimmed) line
      else detectIndentLoop rest
  end.

(** [None]: [lines[1:]] of an empty slice panics. *)
Definition detectIndent (lines : list str) : option str :=
  match lines with
  | [] => None
  | _ :: rest => Some (detectIndentLoop rest)
  end.

(** [fmt.Sprintf] of the new line. *)
Definition newIdentityLine (indent keyPath : str) (active : bool) : str :=
  if active then indent ++ bs "IdentityFile " ++ keyPath
  else indent ++ bs "# IdentityFile " ++ keyPath.

Definition insertIndex (block : HostBlock.t) : nat :=
  match last (HostBlock.IdentityFiles block) with
  | Some lastIF => HostBlock.StartLine block + IdentityFileLine.LineIndex lastIF + 1
  | None => HostBlock.StartLine block + 1
  end.

(** A slice bound above [len(c.Lines)] is taken to panic (Go allows it up to
    the capacity; the bound never exceeds the length for a configuration
    whose blocks were parsed from its lines). *)
Definition AddIdentityFile (c : ConfigFile.t) (hostname keyPath : str) (active : bool)
    : option (ConfigFile.t * option error) :=
  match FindHostBlock c hostname with
  | None => Some (c, Some (ErrNoHostBlock hostname))
  | Some block =>
      if existsb (samePath (normalizePath keyPath)) (HostBlock.IdentityFiles block)
      then Some (c, None)
      else
        match detectIndent (HostBlock.Lines block) with
        | None => None
        | Some indent =>
            let newLine := newIdentityLine indent keyPath active in
            let insertIdx := insertIndex block in
            if decide (insertIdx <= length (ConfigFile.Lines c)) then
              let lines := take insertIdx (ConfigFile.Lines c) ++
                           newLine :: drop insertIdx (ConfigFile.Lines c) in
              Some (parseBlocks (ConfigFile.mk (ConfigFile.Path c) lines (ConfigFile.Blocks c)),
                    None)
            else None
        end
  end.

(** ** Reading and writing

    The file system, as far as the program can tell.  At a path there is
    nothing ([Absent]: [os.Stat] and [os.Open] fail with a not-exist
    error), or something ([Present]: [os.Stat] succeeds, and reading gives
    [data] followed by the end of the file or, for [readError], by an
    error: a directory or a file without read permission gives no data and
    the error), or the path cannot be reached ([Unreachable]: [os.Stat] and
    [os.Open] fail with another error, as for a path that runs through a
    file).  [writable] tells whether [os.WriteFile] to the path succeeds.
    The empty path names nothing and nothing can be written there.

    Assumptions on the system: different path strings name different
    files; a write that fails changes nothing; a file that was written
    reads back as what was written. *)

Inductive node : Type :=
  | Absent
  | Unreachable
  | Present (data : str) (readError : bool).

Record FS : Type := mkFS {
  nodeAt : str -> node;
  writable : str -> bool
}.

Definition lookupNode (fs : FS) (path : str) : node :=
  if bool_decide (path = []) then Absent else nodeAt fs path.

(** [os.Stat] returns no error. *)
Definition Stat (fs : FS) (path : str) : bool :=
  match lookupNode fs path with
  | Present _ _ => true
  | _ => false
  end.

(** [os.ReadFile]: the content, [None] for an error. *)
Definition ReadFile (fs : FS) (path : str) : option str :=
  match lookupNode fs path with
  | Present data false => Some data
  | _ => None
  end.

(** The file system with [data] in the file at [path]. *)
Definition writeFile (fs : FS) (path data : str) : FS :=
  mkFS (fun p => if bool_decide (p = path) then Present data false else nodeAt fs p)
       (writable fs).

(** [os.WriteFile]: the file system after the write, [None] for an
    error. *)
Definition WriteFile (fs : FS) (path data : str) : option FS :=
  if negb (bool_decide (path = [])) && writable fs path
  then Some (writeFile fs path data)
  else None.

(** The content [Save] writes. *)
Definition saveContent (lines : list str) : str :=
  let content := Join lines [LF] in
  if negb (bool_decide (lines = [])) && negb (HasSuffix content [LF])
  then content ++ [LF]
  else content.

(** The backup step of [Save]: the file system after it, or the error. *)
Definition backUp (fs : FS) (path : str) : FS + error :=
  let backupPath := path ++ bs ".bak" in
  if Stat fs path then
    match ReadFile fs path with
    | None => inr ErrBackupRead
    | Some data =>
        match WriteFile fs backupPath data with
        | None => inr ErrBackupWrite
        | Some fs1 => inl fs1
        end
    end
  else inl fs.

(** [Save]: the file system it leaves, and the error it returns. *)
Definition Save (fs : FS) (c : ConfigFile.t) : FS * option error :=
  match backUp fs (ConfigFile.Path c) with
  | inr e => (fs, Some e)
  | inl fs1 =>
      match WriteFile fs1 (ConfigFile.Path c) (saveContent (ConfigFile.Lines c)) with
      | None => (fs1, Some ErrWrite)
      | Some fs2 => (fs2, None)
      end
  end.

(** [bufio.ScanLines] before [dropCR]: the text up to each newline, and the
    text after the last one when it is not empty. *)
Fixpoint rawLines (data : str) : list str :=
  match data with
  | [] => []
  | c :: rest =>
      if Ascii.eqb c LF then [] :: rawLines rest
      else match rawLines rest with
           | [] => [[c]]
           | l :: ls => (c :: l) :: ls
           end
  end.

Definition dropCR (data : str) : str :=
  match last data with
  | Some c => if Ascii.eqb c CR then take (length data - 1) data else data
  | None => data
  end.

(** [bufio.MaxScanTokenSize]: a line that does not fit the scanner's buffer
    together with its newline ends the scan with [ErrTooLong]. *)
Definition MaxScanTokenSize : Z := 65536.

Definition scanLines (data : str) : list str + error :=
  let raw := rawLines data in
  if forallb (fun l => (Z.of_nat (length l) <? MaxScanTokenSize)%Z) raw
  then inl (dropCR <$> raw)
  else inr ErrTooLong.

Definition DefaultConfigPath : str :=
  match UserHomeDir with
  | Some home => filepathJoin [home; bs ".ssh"; bs "config"]
  | None => []
  end.

(** [ParseConfig].  A missing file gives the configuration without lines;
    any other failure to open the file is returned.  The scanner stops at
    the first line that is too long; a read error ends the scan after the
    lines read so far, and is what [scanner.Err] then returns. *)
Definition ParseConfig (fs : FS) (path : str) : ConfigFile.t + error :=
  let path := if bool_decide (path = []) then DefaultConfigPath else path in
  match lookupNode fs path with
  | Absent => inl (ConfigFile.mk path [] [])
  | Unreachable => inr ErrFile
  | Present data readError =>
      match scanLines data with
      | inl lines =>
          if readError then inr ErrFile
          else inl (parseBlocks (ConfigFile.mk path lines []))
      | inr e => inr e
      end
  end.

(** [ExpandPath]: the home directory in place of a leading [~/], when the
    home directory is known. *)
Definition ExpandPath (p : str) : str :=
  match stripPrefix (bs "~/") p with
  | Some rest =>
      match UserHomeDir with
      | Some home => filepathJoin [home; rest]
      | None => p
      end
  | None => p
  end.

(** [KeyExists]: [os.Stat] of the expanded path returns no error. *)
Definition KeyExists (fs : FS) (keyPath : str) : bool :=
  Stat fs (ExpandPath keyPath).

End Operations.

(** * Proofs *)

(** ** Lists and strings *)

Lemma oneOf_true cs c : oneOf cs c = true <-> c ∈ cs.
Proof.
  unfold oneOf. rewrite existsb_exists. split.
  - intros (x & Hin & Heq). apply Ascii.eqb_eq in Heq. subst.
    by apply list_elem_of_In.
  - intros Hin. exists c. split; [by apply list_elem_of_In | apply Ascii.eqb_refl].
Qed.

Lemma takeWhile_dropWhile {A} (p : A -> bool) l : takeWhile p l ++ dropWhile p l = l.
Proof. induction l as [|x t IH]; simpl; [done|]. destruct (p x); simpl; congruence. Qed.

Lemma takeWhile_Forall {A} (p : A -> bool) l : Forall (fun x => p x = true) (takeWhile p l).
Proof.
  induction l as [|x t IH]; simpl; [constructor|].
  destruct (p x) eqn:E; constructor; auto.
Qed.

Lemma dropWhile_head {A} (p : A -> bool) l x t : dropWhile p l = x :: t -> p x = false.
Proof.
  induction l as [|y l IH]; simpl; [done|].
  destruct (p y) eqn:E; [auto|]. intros [= -> ->]. done.
Qed.

Lemma dropWhile_app {A} (p : A -> bool) a l :
  Forall (fun x => p x = true) a -> dropWhile p (a ++ l) = dropWhile p l.
Proof. induction 1 as [|x a Hx _ IH]; simpl; [done|]. by rewrite Hx. Qed.

Lemma takeWhile_app {A} (p : A -> bool) a l :
  Forall (fun x => p x = true) a -> takeWhile p (a ++ l) = a ++ takeWhile p l.
Proof. induction 1 as [|x a Hx _ IH]; simpl; [done|]. rewrite Hx. by f_equal. Qed.

Lemma dropWhile_stop {A} (p : A -> bool) x t : p x = false -> dropWhile p (x :: t) = x :: t.
Proof. simpl. by intros ->. Qed.

Lemma takeWhile_stop {A} (p : A -> bool) x t : p x = false -> takeWhile p (x :: t) = [].
Proof. simpl. by intros ->. Qed.

Lemma dropWhile_suffix {A} (p : A -> bool) l : exists a, l = a ++ dropWhile p l.
Proof. exists (takeWhile p l). by rewrite takeWhile_dropWhile. Qed.

Lemma dropWhileEnd_prefix {A} (p : A -> bool) l : exists b, l = dropWhileEnd p l ++ b.
Proof.
  unfold dropWhileEnd. destruct (dropWhile_suffix p (rev l)) as [a Ha].
  exists (rev a). rewrite <- rev_app_distr, <- Ha. by rewrite rev_involutive.
Qed.

Lemma dropWhileEnd_snoc_stop {A} (p : A -> bool) l x :
  p x = false -> dropWhileEnd p (l ++ [x]) = l ++ [x].
Proof.
  intros Hx. unfold dropWhileEnd. rewrite rev_app_distr. simpl.
  rewrite Hx. simpl. by rewrite rev_involutive.
Qed.

Lemma stripPrefix_Some p s t : stripPrefix p s = Some t <-> s = p ++ t.
Proof.
  revert s. induction p as [|a p IH]; intros s; simpl.
  - split; congruence.
  - destruct s as [|b s]; [split; [done | by intros [=]]|].
    destruct (Ascii.eqb a b) eqn:E.
    + apply Ascii.eqb_eq in E. subst. rewrite IH. split; [by intros -> | by intros [=]].
    + apply Ascii.eqb_neq in E. split; [done | intros [=]; congruence].
Qed.

Lemma stripPrefix_app p t : stripPrefix p (p ++ t) = Some t.
Proof. by apply stripPrefix_Some. Qed.

Lemma stripAny_Some ps s t : stripAny ps s = Some t -> exists p, p ∈ ps /\ s = p ++ t.
Proof.
  induction ps as [|p ps IH]; simpl; [done|].
  destruct (stripPrefix p s) eqn:E.
  - intros [= ->]. apply stripPrefix_Some in E. exists p. split; [left | done].
  - intros H. destruct (IH H) as (q & Hq & Hs). exists q. split; [by right | done].
Qed.

Lemma stripAny_is_Some ps p t : p ∈ ps -> is_Some (stripAny ps (p ++ t)).
Proof.
  induction 1 as [p ps | p q ps _ IH]; simpl.
  - rewrite stripPrefix_app. eauto.
  - destruct (stripPrefix q (p ++ t)); eauto.
Qed.

Lemma stripAny_None_prefix ps s b : stripAny ps (s ++ b) = None -> stripAny ps s = None.
Proof.
  intros H. destruct (stripAny ps s) as [t|] eqn:E; [|done].
  apply stripAny_Some in E as (p & Hp & ->).
  destruct (stripAny_is_Some ps p (t ++ b) Hp) as [u Hu].
  rewrite <- app_assoc in H. congruence.
Qed.

Lemma trimRunes_suffix ps n s : exists a, s = a ++ trimRunes ps n s.
Proof.
  revert s. induction n as [|n IH]; intros s; simpl; [by exists []|].
  destruct (stripAny ps s) as [t|] eqn:E; [|by exists []].
  apply stripAny_Some in E as (p & _ & ->).
  destruct (IH t) as [a Ha]. exists (p ++ a). rewrite <- app_assoc. by f_equal.
Qed.

Lemma trimRunes_stable ps n s :
  Forall (fun p => p <> []) ps -> length s <= n -> stripAny ps (trimRunes ps n s) = None.
Proof.
  intros Hps. revert s. induction n as [|n IH]; intros s Hn; simpl.
  - destruct s; [|simpl in Hn; lia].
    destruct (stripAny ps []) as [t|] eqn:E; [|done].
    apply stripAny_Some in E as (p & Hp & Hs).
    rewrite Forall_forall in Hps. specialize (Hps p Hp).
    destruct p; [done | discriminate].
  - destruct (stripAny ps s) as [t|] eqn:E; [|done].
    apply IH. apply stripAny_Some in E as (p & Hp & ->).
    rewrite Forall_forall in Hps. specialize (Hps p Hp).
    destruct p; [done|]. simpl in Hn. rewrite length_app in Hn. lia.
Qed.

Lemma trimRunes_id ps n s : stripAny ps s = None -> trimRunes ps n s = s.
Proof. intros H. destruct n; simpl; [done|]. by rewrite H. Qed.

(** ** [TrimSpace] *)

Lemma whiteSpace_nonempty : Forall (fun p : str => p <> []) whiteSpace.
Proof. unfold whiteSpace. repeat (constructor; [discriminate|]). constructor. Qed.

Lemma whiteSpace_rev_nonempty : Forall (fun p : str => p <> []) (map (@rev ascii) whiteSpace).
Proof. unfold whiteSpace. repeat (constructor; [discriminate|]). constructor. Qed.

Lemma TrimLeftSpace_stable s : stripAny whiteSpace (TrimLeftSpace s) = None.
Proof. apply trimRunes_stable; [apply whiteSpace_nonempty | done]. Qed.

Lemma TrimLeftSpace_suffix s : exists a, s = a ++ TrimLeftSpace s.
Proof. apply trimRunes_suffix. Qed.

Lemma TrimRightSpace_stable s :
  stripAny (map (@rev ascii) whiteSpace) (rev (TrimRightSpace s)) = None.
Proof.
  unfold TrimRightSpace. rewrite rev_involutive.
  apply trimRunes_stable; [apply whiteSpace_rev_nonempty | by rewrite length_rev].
Qed.

Lemma TrimRightSpace_prefix s : exists b, s = TrimRightSpace s ++ b.
Proof.
  unfold TrimRightSpace.
  destruct (trimRunes_suffix (map (@rev ascii) whiteSpace) (length s) (rev s)) as [a Ha].
  exists (rev a). rewrite <- rev_app_distr, <- Ha. by rewrite rev_involutive.
Qed.

Lemma TrimRightSpace_id s :
  stripAny (map (@rev ascii) whiteSpace) (rev s) = None -> TrimRightSpace s = s.
Proof. intros H. unfold TrimRightSpace. rewrite trimRunes_id; [apply rev_involutive | done]. Qed.

Lemma TrimLeftSpace_id s : stripAny whiteSpace s = None -> TrimLeftSpace s = s.
Proof. apply trimRunes_id. Qed.

Lemma TrimSpace_infix s : exists a b, s = a ++ TrimSpace s ++ b.
Proof.
  unfold TrimSpace. destruct (TrimLeftSpace_suffix s) as [a Ha].
  destruct (TrimRightSpace_prefix (TrimLeftSpace s)) as [b Hb].
  exists a, b. by rewrite <- Hb.
Qed.

Lemma TrimSpace_left_stable s : stripAny whiteSpace (TrimSpace s) = None.
Proof.
  unfold TrimSpace. destruct (TrimRightSpace_prefix (TrimLeftSpace s)) as [b Hb].
  apply stripAny_None_prefix with b. rewrite <- Hb. apply TrimLeftSpace_stable.
Qed.

Lemma TrimSpace_right_stable s :
  stripAny (map (@rev ascii) whiteSpace) (rev (TrimSpace s)) = None.
Proof. apply TrimRightSpace_stable. Qed.

Lemma TrimSpace_id s :
  stripAny whiteSpace s = None ->
  stripAny (map (@rev ascii) whiteSpace) (rev s) = None ->
  TrimSpace s = s.
Proof. intros Hl Hr. unfold TrimSpace. rewrite (TrimLeftSpace_id s Hl). by apply TrimRightSpace_id. Qed.

Lemma TrimSpace_idemp s : TrimSpace (TrimSpace s) = TrimSpace s.
Proof. apply TrimSpace_id; [apply TrimSpace_left_stable | apply TrimSpace_right_stable]. Qed.

Lemma TrimSpace_nil : TrimSpace [] = [].
Proof. reflexivity. Qed.

Lemma reSpace_cases c :
  reSpace c = true -> c = TAB \/ c = LF \/ c = FF \/ c = CR \/ c = SP.
Proof.
  intros H. apply oneOf_true in H.
  repeat (apply elem_of_cons in H as [H|H]; [tauto|]). by apply elem_of_nil in H.
Qed.

Lemma isBlank_reSpace c : isBlank c = true -> reSpace c = true.
Proof.
  intros H. apply oneOf_true in H. apply oneOf_true.
  repeat (apply elem_of_cons in H as [->|H]; [apply list_elem_of_In; simpl; tauto|]). by apply elem_of_nil in H.
Qed.

Lemma reSpace_whiteSpace c : reSpace c = true -> [c] ∈ whiteSpace.
Proof.
  intros H. destruct (reSpace_cases c H) as [->|[->|[->|[->| ->]]]];
    apply list_elem_of_In; vm_compute; tauto.
Qed.

Lemma reSpace_whiteSpace_rev c : reSpace c = true -> [c] ∈ map (@rev ascii) whiteSpace.
Proof.
  intros H. apply (list_elem_of_fmap_2 (@rev ascii)) with (x := [c]).
  by apply reSpace_whiteSpace.
Qed.

(** A trimmed string neither starts nor ends with regexp white space. *)
Lemma TrimSpace_head s c t : TrimSpace s = c :: t -> reSpace c = false.
Proof.
  intros H. destruct (reSpace c) eqn:E; [|done].
  pose proof (TrimSpace_left_stable s) as Hs. rewrite H in Hs.
  destruct (stripAny_is_Some whiteSpace [c] t (reSpace_whiteSpace c E)) as [u Hu].
  change ([c] ++ t) with (c :: t) in Hu. congruence.
Qed.

Lemma TrimSpace_last s t c : TrimSpace s = t ++ [c] -> reSpace c = false.
Proof.
  intros H. destruct (reSpace c) eqn:E; [|done].
  pose proof (TrimSpace_right_stable s) as Hs. rewrite H, rev_app_distr in Hs.
  destruct (stripAny_is_Some _ [c] (rev t) (reSpace_whiteSpace_rev c E)) as [u Hu].
  change (rev [c]) with [c] in Hs. congruence.
Qed.

Lemma TrimSpace_single c : reSpace c = true -> TrimSpace [c] = [].
Proof.
  intros H. destruct (reSpace_cases c H) as [->|[->|[->|[->| ->]]]]; reflexivity.
Qed.

(** No newline appears by trimming. *)
Lemma TrimSpace_notLF s : forallb notLF s = true -> forallb notLF (TrimSpace s) = true.
Proof.
  destruct (TrimSpace_infix s) as (a & b & Hs). intros H. rewrite Hs in H.
  rewrite !forallb_app in H. by destruct (forallb notLF a), (forallb notLF (TrimSpace s)).
Qed.

(** ** The two patterns in closed form

    What the engine computes on [hostPattern] and [identityFilePattern],
    written as functions of the line; the proofs below work with these. *)

(** Match the literal [kw] case-insensitively at the start of [s]; the rest
    of [s] on success. *)
Fixpoint matchFold (kw : str) (s : str) : option str :=
  match kw with
  | [] => Some s
  | c :: kw' =>
      match stripAny (foldOrbit c) s with
      | Some t => matchFold kw' t
      | None => None
      end
  end.

(** The last element of [l] satisfying [p]. *)
Definition findLast {A} (p : A -> bool) (l : list A) : option A :=
  head (filter (fun x => p x = true) (rev l)).

(** The tail [\s+(.+?)\s*$] of both patterns, on the text after the
    keyword; the result is the capture group.

    [\s+] is greedy and first takes the whole white-space run [w].  If
    something follows, the lazy [(.+?)] stops at the first position from
    which only white space remains, that is after the last byte that is not
    white space, and it cannot cross a newline; giving back part of [w]
    cannot help, since the group would still have to cross that newline.
    If nothing follows [w], [\s+] gives back bytes one at a time and the
    group takes the single byte it is offered as soon as that byte is not a
    newline: the last such byte of [w] other than its first. *)
Definition lazyCapture (s : str) : option str :=
  let w := takeWhile reSpace s in
  let r := dropWhile reSpace s in
  match w with
  | [] => None
  | _ :: w' =>
      match r with
      | [] => (fun c => [c]) <$> findLast notLF w'
      | _ :: _ =>
          let cap := dropWhileEnd reSpace r in
          if forallb notLF cap then Some cap else None
      end
  end.

(** [hostPattern] in closed form: [match[1]]. *)
Definition hostMatch (line : str) : option str :=
  match matchFold (bs "Host") (dropWhile reSpace line) with
  | Some rest => lazyCapture rest
  | None => None
  end.

(** [identityFilePattern] in closed form: [(match[1], match[3])].  Group 1
    takes part exactly when a [#] follows the leading white space, and is
    the empty string otherwise. *)
Definition identityFileMatch (line : str) : option (str * str) :=
  let s1 := dropWhile reSpace line in
  let '(m1, s2) :=
    match s1 with
    | c :: t =>
        if Ascii.eqb c "#" then (c :: takeWhile reSpace t, dropWhile reSpace t)
        else ([], s1)
    | [] => ([], s1)
    end in
  match matchFold (bs "IdentityFile") s2 with
  | Some rest => (fun m3 => (m1, m3)) <$> lazyCapture rest
  | None => None
  end.

Lemma orElse_None_r {A} (x : option A) : orElse x None = x.
Proof. by destruct x. Qed.

Lemma run_seqOf v r s cs k :
  run (fold_right (fun b r' => Seq (Chr (Ascii.eqb b)) r') r v) s cs k =
  match stripPrefix v s with Some t => run r t cs k | None => None end.
Proof.
  revert s. induction v as [|a v IH]; intros s; simpl; [done|].
  destruct s as [|b s]; [done|]. destruct (Ascii.eqb a b); [apply IH | done].
Qed.

(** Variants whose first bytes differ unless they are the same variant *)
Definition headDistinct (vs : list str) : Prop :=
  forall v1 v2, v1 ∈ vs -> v2 ∈ vs -> v1 = v2 \/ (head v1 <> head v2 /\ v1 <> [] /\ v2 <> []).

Lemma headDistinct_prefix vs v1 v2 t1 t2 :
  headDistinct vs -> v1 ∈ vs -> v2 ∈ vs -> v1 ++ t1 = v2 ++ t2 -> v1 = v2.
Proof.
  intros H H1 H2 Heq. destruct (H v1 v2 H1 H2) as [?|(Hh & Hn1 & Hn2)]; [done|].
  destruct v1, v2; try done. simpl in *. injection Heq as -> _. done.
Qed.

Lemma run_altOf vs s cs k :
  headDistinct vs ->
  run (altOf vs) s cs k = match stripAny vs s with Some t => k t cs | None => None end.
Proof.
  induction vs as [|v vs IH]; intros Hd; simpl.
  - by destruct s.
  - unfold seqOf. rewrite run_seqOf. simpl.
    rewrite IH.
    2:{ intros v1 v2 H1 H2. apply Hd; by right. }
    destruct (stripPrefix v s) as [t|] eqn:E; [|done].
    destruct (stripAny vs s) as [t'|] eqn:E'; [|apply orElse_None_r].
    apply stripPrefix_Some in E. apply stripAny_Some in E' as (v' & Hv' & E').
    assert (v = v') as <-.
    { apply (headDistinct_prefix (v :: vs) v v' t t'); [done|left|by right|congruence]. }
    assert (t = t') as <- by (rewrite E in E'; by apply app_inv_head in E').
    by destruct (k t cs).
Qed.

Definition headDistinctb (vs : list str) : bool :=
  forallb (fun v1 => forallb (fun v2 =>
     bool_decide (v1 = v2) ||
     (negb (bool_decide (head v1 = head v2)) && negb (bool_decide (v1 = [])) &&
      negb (bool_decide (v2 = [])))) vs) vs.

Lemma headDistinctb_ok vs : headDistinctb vs = true -> headDistinct vs.
Proof.
  unfold headDistinctb. rewrite forallb_forall. intros H v1 v2 H1 H2.
  specialize (H v1 (proj1 (list_elem_of_In _ _) H1)). rewrite forallb_forall in H.
  specialize (H v2 (proj1 (list_elem_of_In _ _) H2)).
  apply orb_true_iff in H as [H|H].
  - left. by apply bool_decide_eq_true in H.
  - right. apply andb_true_iff in H as [H H3]. apply andb_true_iff in H as [H0 H4].
    apply negb_true_iff, bool_decide_eq_false in H0.
    apply negb_true_iff, bool_decide_eq_false in H3.
    apply negb_true_iff, bool_decide_eq_false in H4. tauto.
Qed.

Lemma run_lits kw s cs k :
  Forall (fun c => headDistinct (foldOrbit c)) kw ->
  run (fold_right (fun c r => Seq (lit c) r) Empty kw) s cs k =
  match matchFold kw s with Some t => k t cs | None => None end.
Proof.
  intros H. revert s. induction H as [|c kw Hc _ IH]; intros s;
    cbn [fold_right run matchFold]; [done|].
  unfold lit. rewrite run_altOf by done.
  destruct (stripAny (foldOrbit c) s); [apply IH | done].
Qed.

Lemma keywords_headDistinct :
  Forall (fun c => headDistinct (foldOrbit c)) (bs "Host") /\
  Forall (fun c => headDistinct (foldOrbit c)) (bs "IdentityFile").
Proof.
  split; apply Forall_forall; intros c Hc; apply headDistinctb_ok;
    revert c Hc; apply Forall_forall; repeat constructor.
Qed.

Fixpoint starChr (g : bool) (p : ascii -> bool) (s : str) (cs : caps) (k : kont) : option caps :=
  match s with
  | c :: t =>
      if p c then
        if g then orElse (starChr g p t cs k) (k s cs)
        else orElse (k s cs) (starChr g p t cs k)
      else k s cs
  | [] => k [] cs
  end.

Lemma star_Chr g p fuel s cs k :
  length s <= fuel -> star g (run (Chr p)) fuel s cs k = starChr g p s cs k.
Proof.
  revert s. induction fuel as [|f IH]; intros s Hlen.
  - destruct s; [done | simpl in Hlen; lia].
  - cbn [star run]. destruct s as [|c t].
    + simpl. destruct g; [done | apply orElse_None_r].
    + cbn [starChr]. destruct (p c).
      * assert ((length t <? length (c :: t)) = true) as -> by (apply Nat.ltb_lt; simpl; lia).
        rewrite IH by (simpl in Hlen; lia). done.
      * destruct g; [done | apply orElse_None_r].
Qed.

Lemma run_Star_Chr g p s cs k : run (Star g (Chr p)) s cs k = starChr g p s cs k.
Proof. cbn [run]. by apply star_Chr. Qed.

Lemma starChr_greedy_commit p s cs k :
  (forall c t cs', p c = true -> k (c :: t) cs' = None) ->
  starChr true p s cs k = k (dropWhile p s) cs.
Proof.
  intros Hk. induction s as [|c t IH]; [done|]. cbn [starChr dropWhile].
  destruct (p c) eqn:E; [|done]. rewrite IH, (Hk c t cs E). apply orElse_None_r.
Qed.

(** The tail *)

Lemma dropWhile_nil_forallb {A} (p : A -> bool) l : dropWhile p l = [] <-> forallb p l = true.
Proof.
  induction l as [|x l IH]; simpl; [done|]. destruct (p x); simpl; [done|]. split; done.
Qed.

Definition endRe : re := Seq (Star true sp) Eol.

Lemma run_Seq a b s cs k : run (Seq a b) s cs k = run a s cs (fun s' cs' => run b s' cs' k).
Proof. done. Qed.

Lemma run_Group n a s cs k :
  run (Group n a) s cs k =
  run a s cs (fun s' cs' => k s' (setCap n (take (length s - length s') s) cs')).
Proof. done. Qed.

Lemma run_plus_Chr g p s cs k :
  run (plus g (Chr p)) s cs k =
  match s with c :: t => if p c then starChr g p t cs k else None | [] => None end.
Proof.
  unfold plus. rewrite run_Seq. cbn [run]. destruct s as [|c t]; [done|].
  destruct (p c); [|done]. by apply star_Chr.
Qed.

Lemma run_endRe s cs : run endRe s cs accept = if forallb reSpace s then Some cs else None.
Proof.
  unfold endRe, sp. rewrite run_Seq, run_Star_Chr.
  rewrite starChr_greedy_commit by done. cbn [run].
  destruct (dropWhile reSpace s) as [|c t] eqn:E.
  - apply dropWhile_nil_forallb in E. by rewrite E.
  - destruct (forallb reSpace s) eqn:E'; [|done].
    apply dropWhile_nil_forallb in E'. congruence.
Qed.

(** The lazy group: the rest of the input from which only white space remains *)
Fixpoint lazyRest (t : str) : option str :=
  if forallb reSpace t then Some t
  else match t with
       | c :: t' => if notLF c then lazyRest t' else None
       | [] => None
       end.

Lemma starChr_lazy_dot t cs (k : str -> caps -> caps) :
  starChr false notLF t cs
    (fun s' cs' => if forallb reSpace s' then Some (k s' cs') else None) =
  (fun s' => k s' cs) <$> lazyRest t.
Proof.
  induction t as [|c t IH]; [done|]. cbn [starChr lazyRest].
  destruct (forallb reSpace (c :: t)) eqn:E.
  - by destruct (notLF c).
  - destruct (notLF c); [|done]. cbn [orElse]. apply IH.
Qed.

(** The capture of the lazy group on [s1] *)
Definition lazyGroup (s1 : str) : option str :=
  match s1 with
  | c :: t =>
      if notLF c then (fun s' => take (length s1 - length s') s1) <$> lazyRest t else None
  | [] => None
  end.

Lemma starChr_ext g p s cs k k' :
  (forall s' cs', k s' cs' = k' s' cs') -> starChr g p s cs k = starChr g p s cs k'.
Proof.
  intros H. induction s as [|c t IH]; cbn [starChr]; [apply H|].
  by rewrite IH, H.
Qed.

Lemma run_lazyGroup n s1 cs :
  run (Seq (Group n (plus false dot)) endRe) s1 cs accept =
  (fun m => setCap n m cs) <$> lazyGroup s1.
Proof.
  rewrite run_Seq, run_Group. unfold dot. rewrite run_plus_Chr.
  destruct s1 as [|c t]; [done|]. cbn [lazyGroup]. destruct (notLF c); [|done].
  rewrite (starChr_ext _ _ _ _ _
    (fun s' cs' => if forallb reSpace s' then
       Some ((fun s' cs' => setCap n (take (length (c :: t) - length s') (c :: t)) cs') s' cs')
     else None)).
  2:{ intros s' cs'. by rewrite run_endRe. }
  rewrite starChr_lazy_dot. by destruct (lazyRest t).
Qed.

(** The greedy [\s+] in front of it: the last position of the white-space run
    at which the group matches *)
Fixpoint lastGroup (t : str) : option str :=
  match t with
  | c :: t' => if reSpace c then orElse (lastGroup t') (lazyGroup t) else lazyGroup t
  | [] => lazyGroup []
  end.

Lemma starChr_greedy_sp n t cs :
  starChr true reSpace t cs (fun s1 cs1 => (fun m => setCap n m cs1) <$> lazyGroup s1) =
  (fun m => setCap n m cs) <$> lastGroup t.
Proof.
  induction t as [|c t IH]; [done|]. cbn [starChr lastGroup].
  destruct (reSpace c); [|done]. rewrite IH.
  by destruct (lastGroup t).
Qed.

Lemma run_tailRe n s cs :
  run (tailRe n) s cs accept =
  match s with
  | c :: t => if reSpace c then (fun m => setCap n m cs) <$> lastGroup t else None
  | [] => None
  end.
Proof.
  unfold tailRe, sp. rewrite run_Seq, run_plus_Chr.
  destruct s as [|c t]; [done|]. destruct (reSpace c); [|done].
  rewrite <- starChr_greedy_sp. apply starChr_ext. intros s' cs'.
  apply (run_lazyGroup n).
Qed.

Lemma findLast_cons {A} (p : A -> bool) x l :
  findLast p (x :: l) = orElse (findLast p l) (if p x then Some x else None).
Proof.
  unfold findLast. cbn [rev]. rewrite filter_app.
  destruct (filter _ (rev l)) as [|y ys]; [|done]. cbn [app orElse head].
  rewrite filter_cons. destruct (p x) eqn:E.
  - by rewrite decide_True.
  - by rewrite decide_False.
Qed.

Lemma dropWhileEnd_spec {A} (p : A -> bool) l :
  exists sfx, l = dropWhileEnd p l ++ sfx /\ forallb p sfx = true /\
    (dropWhileEnd p l = [] \/ exists b z, dropWhileEnd p l = b ++ [z] /\ p z = false).
Proof.
  unfold dropWhileEnd. exists (rev (takeWhile p (rev l))). split; [|split].
  - rewrite <- rev_app_distr, takeWhile_dropWhile. by rewrite rev_involutive.
  - apply forallb_forall. intros x Hx. apply in_rev in Hx.
    pose proof (takeWhile_Forall p (rev l)) as H. rewrite Forall_forall in H.
    apply H. by apply list_elem_of_In.
  - destruct (dropWhile p (rev l)) as [|z b] eqn:E; [by left|right].
    exists (rev b), z. split; [done|]. by apply dropWhile_head in E.
Qed.

Lemma lazyRest_unfold t :
  lazyRest t =
  if forallb reSpace t then Some t
  else match t with
       | c :: t' => if notLF c then lazyRest t' else None
       | [] => None
       end.
Proof. by destruct t. Qed.

Lemma notLF_false_reSpace c : notLF c = false -> reSpace c = true.
Proof.
  unfold notLF. intros H. apply negb_false_iff, Ascii.eqb_eq in H. by subst.
Qed.

Lemma lazyRest_app a sfx :
  forallb reSpace sfx = true ->
  (a = [] \/ exists b z, a = b ++ [z] /\ reSpace z = false) ->
  lazyRest (a ++ sfx) = if forallb notLF a then Some sfx else None.
Proof.
  intros Hsfx. induction a as [|c a IH]; intros Ha.
  - cbn [app forallb]. rewrite lazyRest_unfold. by rewrite Hsfx.
  - destruct Ha as [?|(b & z & Hbz & Hz)]; [done|].
    rewrite lazyRest_unfold.
    assert (forallb reSpace ((c :: a) ++ sfx) = false) as ->.
    { rewrite Hbz, <- app_assoc, forallb_app. cbn [app forallb]. rewrite Hz.
      by destruct (forallb reSpace b). }
    cbn [app forallb]. destruct (notLF c); [|done]. cbn [andb]. apply IH.
    destruct b as [|c' b]; [left | right].
    + by injection Hbz as _ ->.
    + injection Hbz as _ ->. by exists b, z.
Qed.

(** The group at the first byte that is not white space *)
Lemma lazyGroup_text x t :
  reSpace x = false ->
  lazyGroup (x :: t) =
  let cap := dropWhileEnd reSpace (x :: t) in
  if forallb notLF cap then Some cap else None.
Proof.
  intros Hx. cbn zeta.
  destruct (dropWhileEnd_spec reSpace (x :: t)) as (sfx & Heq & Hsfx & Hcap).
  destruct (dropWhileEnd reSpace (x :: t)) as [|x' cap'] eqn:Ecap.
  { cbn [app] in Heq. rewrite <- Heq in Hsfx. cbn [forallb] in Hsfx. by rewrite Hx in Hsfx. }
  injection Heq as <- Ht.
  cbn [lazyGroup forallb].
  destruct (notLF x) eqn:En; [|apply notLF_false_reSpace in En; congruence].
  cbn [andb]. rewrite Ht, lazyRest_app; [|done|].
  - destruct (forallb notLF cap'); [|done]. cbn [fmap option_fmap option_map]. f_equal.
    rewrite (app_comm_cons cap' sfx x). apply take_app_length'.
    rewrite length_app. lia.
  - destruct Hcap as [?|(b & z & Hbz & Hz)]; [done|].
    destruct b as [|c' b]; [left | right].
    + by injection Hbz as _ ->.
    + injection Hbz as _ ->. by exists b, z.
Qed.

Lemma lastGroup_spec t :
  lastGroup t =
  match dropWhile reSpace t with
  | [] => (fun c => [c]) <$> findLast notLF (takeWhile reSpace t)
  | _ :: _ =>
      let cap := dropWhileEnd reSpace (dropWhile reSpace t) in
      if forallb notLF cap then Some cap else None
  end.
Proof.
  induction t as [|x t IH]; [done|]. cbn [lastGroup dropWhile takeWhile].
  destruct (reSpace x) eqn:Ex.
  - rewrite IH. destruct (dropWhile reSpace t) as [|y r] eqn:Er.
    + rewrite findLast_cons.
      assert (lazyGroup (x :: t) = if notLF x then Some [x] else None) as ->.
      { cbn [lazyGroup]. destruct (notLF x); [|done].
        rewrite lazyRest_unfold. apply dropWhile_nil_forallb in Er. rewrite Er.
        cbn [fmap option_fmap option_map]. f_equal. cbn [length].
        replace (S (length t) - length t) with 1 by lia. done. }
      destruct (findLast notLF (takeWhile reSpace t)); [done|]. by destruct (notLF x).
    + cbn zeta. destruct (forallb notLF (dropWhileEnd reSpace (y :: r))) eqn:Ecap; [done|].
      cbn [orElse lazyGroup]. destruct (notLF x); [|done].
      assert (lazyRest t = None) as ->; [|done].
      pose proof (dropWhile_head _ _ _ _ Er) as Hy.
      destruct (dropWhileEnd_spec reSpace (y :: r)) as (sfx & Heq & Hsfx & Hcap).
      rewrite <- (takeWhile_dropWhile reSpace t), Er, Heq, app_assoc.
      rewrite lazyRest_app; [|done|].
      * by rewrite forallb_app, Ecap, andb_false_r.
      * right. destruct Hcap as [Hnil|(b & z & Hbz & Hz)].
        -- rewrite Hnil in Heq. cbn [app] in Heq. rewrite <- Heq in Hsfx.
           cbn [forallb] in Hsfx. by rewrite Hy in Hsfx.
        -- exists (takeWhile reSpace t ++ b), z. rewrite Hbz. by rewrite app_assoc.
  - by apply lazyGroup_text.
Qed.

Lemma run_tailRe_lazyCapture n s cs :
  run (tailRe n) s cs accept = (fun m => setCap n m cs) <$> lazyCapture s.
Proof.
  rewrite run_tailRe. unfold lazyCapture. destruct s as [|c t]; [done|].
  cbn [takeWhile dropWhile]. destruct (reSpace c) eqn:Ec; [|done].
  rewrite lastGroup_spec. by destruct (dropWhile reSpace t).
Qed.

Lemma matchFold_Host_space c t : reSpace c = true -> matchFold (bs "Host") (c :: t) = None.
Proof. intros H. destruct (reSpace_cases c H) as [->|[->|[->|[->| ->]]]]; reflexivity. Qed.

Lemma matchFold_IdentityFile_space c t :
  reSpace c = true -> matchFold (bs "IdentityFile") (c :: t) = None.
Proof. intros H. destruct (reSpace_cases c H) as [->|[->|[->|[->| ->]]]]; reflexivity. Qed.

Lemma hash_not_space c : reSpace c = true -> Ascii.eqb "#" c = false.
Proof. intros H. destruct (reSpace_cases c H) as [->|[->|[->|[->| ->]]]]; reflexivity. Qed.

Theorem hostPattern_closed line :
  (fun m => m 1) <$> FindStringSubmatch hostPattern line = hostMatch line.
Proof.
  unfold FindStringSubmatch, hostPattern, hostMatch, sp.
  rewrite run_Seq, run_Star_Chr, starChr_greedy_commit.
  2:{ intros c t cs' Hc. rewrite run_Seq. unfold lits.
      rewrite run_lits by apply keywords_headDistinct.
      by rewrite matchFold_Host_space. }
  rewrite run_Seq. unfold lits. rewrite run_lits by apply keywords_headDistinct.
  destruct (matchFold (bs "Host") (dropWhile reSpace line)) as [rest|]; [|done].
  rewrite run_tailRe_lazyCapture. by destruct (lazyCapture rest).
Qed.

Definition afterHash : re := Seq (Group 2 (lits (bs "IdentityFile"))) (tailRe 3).

Lemma run_afterHash s cs :
  run afterHash s cs accept =
  match matchFold (bs "IdentityFile") s with
  | Some rest =>
      (fun m => setCap 3 m (setCap 2 (take (length s - length rest) s) cs)) <$> lazyCapture rest
  | None => None
  end.
Proof.
  unfold afterHash. rewrite run_Seq, run_Group. unfold lits.
  rewrite run_lits by apply keywords_headDistinct.
  destruct (matchFold _ s) as [rest|]; [|done]. apply run_tailRe_lazyCapture.
Qed.

Definition hashRe : re := Group 1 (Seq (Chr (Ascii.eqb "#")) (Star true sp)).

Lemma run_hashRe s cs k :
  run hashRe s cs k =
  match s with
  | c :: t =>
      if Ascii.eqb "#" c
      then starChr true reSpace t cs
             (fun s' cs' => k s' (setCap 1 (take (length s - length s') s) cs'))
      else None
  | [] => None
  end.
Proof.
  unfold hashRe. rewrite run_Group, run_Seq. destruct s as [|c t]; [done|].
  change (run (Chr ?p) (c :: t) ?cs ?k) with (if p c then k t cs else None).
  destruct (Ascii.eqb "#" c); [|done]. unfold sp. by rewrite run_Star_Chr.
Qed.

Theorem identityFilePattern_closed line :
  (fun m => (m 1, m 3)) <$> FindStringSubmatch identityFilePattern line = identityFileMatch line.
Proof.
  unfold FindStringSubmatch, identityFilePattern, identityFileMatch, sp.
  fold afterHash. fold sp. fold hashRe. unfold sp.
  rewrite run_Seq, run_Star_Chr, starChr_greedy_commit.
  2:{ intros c t cs' Hc. rewrite run_Seq. unfold opt.
      change (run (Alt ?a ?b) ?s ?cs ?k) with (orElse (run a s cs k) (run b s cs k)).
      rewrite run_hashRe, (hash_not_space c Hc). cbn [orElse].
      change (run afterHash (c :: t) cs' accept = None).
      by rewrite run_afterHash, matchFold_IdentityFile_space. }
  rewrite run_Seq. unfold opt.
  change (run (Alt ?a ?b) ?s ?cs ?k) with (orElse (run a s cs k) (run b s cs k)).
  rewrite run_hashRe.
  change (run Empty ?s ?cs ?k) with (k s cs). cbn beta.
  destruct (dropWhile reSpace line) as [|c t] eqn:Es.
  - cbn [orElse]. rewrite run_afterHash. done.
  - rewrite (Ascii.eqb_sym c "#"). destruct (Ascii.eqb "#" c) eqn:Ec.
    + apply Ascii.eqb_eq in Ec. subst c.
      rewrite starChr_greedy_commit.
      2:{ intros c t' cs' Hc. by rewrite run_afterHash, matchFold_IdentityFile_space. }
      rewrite !run_afterHash.
      assert (matchFold (bs "IdentityFile") ("#"%char :: t) = None) as -> by reflexivity.
      rewrite orElse_None_r.
      destruct (matchFold _ (dropWhile reSpace t)) as [rest|]; [|done].
      destruct (lazyCapture rest) as [m3|]; [|done].
      cbn. do 2 f_equal.
      rewrite <- (takeWhile_dropWhile reSpace t) at 1 3.
      rewrite length_app.
      replace (S (length (takeWhile reSpace t) + length (dropWhile reSpace t)) -
               length (dropWhile reSpace t)) with (S (length (takeWhile reSpace t))) by lia.
      cbn [take]. f_equal. apply take_app_length.
    + cbn [orElse]. rewrite run_afterHash.
      destruct (matchFold _ (c :: t)) as [rest|]; [|done].
      by destruct (lazyCapture rest).
Qed.

(** The functions of the source that match a pattern, on the closed
    forms. *)
Lemma parseLine_closed st i line :
  parseLine st i line =
  match hostMatch line with
  | Some m1 =>
      mkParseState (saveBlock st i) (Some (HostBlock.mk i 0 (TrimSpace m1) [line] []))
  | None =>
      match psCurrent st with
      | Some b =>
          mkParseState (psBlocks st)
            (Some (HostBlock.mk (HostBlock.StartLine b) (HostBlock.EndLine b)
                     (HostBlock.Hostname b) (HostBlock.Lines b ++ [line])
                     match identityFileMatch line with
                     | Some (m1, m3) =>
                         HostBlock.IdentityFiles b ++
                         [IdentityFileLine.mk (length (HostBlock.Lines b ++ [line]) - 1)
                            (TrimSpace m3) (negb (bool_decide (m1 = []))) line]
                     | None => HostBlock.IdentityFiles b
                     end))
      | None => st
      end
  end.
Proof.
  unfold parseLine. rewrite <- hostPattern_closed, <- identityFilePattern_closed.
  destruct (FindStringSubmatch hostPattern line); [done|].
  cbn [fmap option_fmap option_map].
  destruct (psCurrent st); [|done].
  by destruct (FindStringSubmatch identityFilePattern line).
Qed.

Lemma uncommentIdentityFile_closed line :
  uncommentIdentityFile line =
  match identityFileMatch line with
  | None => line
  | Some (_, m3) => leadingIndent line ++ bs "IdentityFile " ++ TrimSpace m3
  end.
Proof.
  unfold uncommentIdentityFile. rewrite <- identityFilePattern_closed.
  by destruct (FindStringSubmatch identityFilePattern line).
Qed.

Lemma commentIdentityFile_closed line :
  commentIdentityFile line =
  match identityFileMatch line with
  | None => line
  | Some (m1, m3) =>
      if negb (bool_decide (m1 = [])) then line
      else leadingIndent line ++ bs "# IdentityFile " ++ TrimSpace m3
  end.
Proof.
  unfold commentIdentityFile. rewrite <- identityFilePattern_closed.
  by destruct (FindStringSubmatch identityFilePattern line).
Qed.

Lemma hostMatch_Some line m1 :
  hostMatch line = Some m1 <->
  exists m, FindStringSubmatch hostPattern line = Some m /\ m 1 = m1.
Proof.
  rewrite <- hostPattern_closed. destruct (FindStringSubmatch hostPattern line) as [m|].
  - split; [intros [= <-]; by exists m | by intros (m' & [= <-] & <-)].
  - split; [done | by intros (m' & ? & _)].
Qed.

(** ** The regular expressions on the lines the code writes *)

(** Text that reads back as itself from an [IdentityFile] line: not empty,
    no newline, nothing for [TrimSpace] to trim. *)
Definition plain (p : str) : Prop :=
  p <> [] /\ forallb notLF p = true /\ TrimSpace p = p.

Lemma plain_head c t : plain (c :: t) -> reSpace c = false.
Proof. intros (_ & _ & H). by apply (TrimSpace_head (c :: t) c t). Qed.

Lemma plain_last p : plain p -> exists t c, p = t ++ [c] /\ reSpace c = false.
Proof.
  intros (Hne & _ & H). destruct (exists_last Hne) as (t & c & ->).
  exists t, c. split; [done|]. by apply (TrimSpace_last (t ++ [c]) t c).
Qed.

Lemma TrimSpace_plain s :
  forallb notLF s = true -> TrimSpace s = [] \/ plain (TrimSpace s).
Proof.
  intros H. destruct (TrimSpace s) eqn:E; [by left|right]. rewrite <- E.
  split; [by rewrite E|]. split; [by apply TrimSpace_notLF | apply TrimSpace_idemp].
Qed.

Lemma lazyCapture_plain w p :
  w <> [] -> Forall (fun c => reSpace c = true) w -> plain p ->
  lazyCapture (w ++ p) = Some p.
Proof.
  intros Hw Hall Hp. unfold lazyCapture.
  destruct p as [|c t]; [by destruct Hp|].
  pose proof (plain_head c t Hp) as Hc.
  rewrite takeWhile_app, dropWhile_app by done.
  rewrite takeWhile_stop, dropWhile_stop by done. rewrite app_nil_r.
  destruct w as [|x w']; [done|].
  destruct (plain_last _ Hp) as (t' & c' & Heq & Hc'). rewrite Heq.
  rewrite dropWhileEnd_snoc_stop by done. rewrite <- Heq.
  destruct Hp as (_ & -> & _). done.
Qed.

Lemma lazyCapture_notLF s m : lazyCapture s = Some m -> forallb notLF m = true.
Proof.
  unfold lazyCapture. destruct (takeWhile reSpace s) as [|x w']; [done|].
  destruct (dropWhile reSpace s) as [|y r].
  - unfold findLast. destruct (filter _ (rev w')) as [|c l] eqn:E; [done|].
    intros [= <-]. simpl.
    assert (c ∈ filter (λ x : ascii, notLF x = true) (rev w')) as Hin by (rewrite E; left).
    apply list_elem_of_filter in Hin as [-> _]. done.
  - destruct (forallb notLF (dropWhileEnd reSpace (y :: r))) eqn:E; [|done].
    by intros [= <-].
Qed.

Lemma lazyCapture_sp p : plain p -> lazyCapture (" "%char :: p) = Some p.
Proof.
  intros Hp. apply (lazyCapture_plain [SP] p); [done| |done]. by repeat constructor.
Qed.

(** After the keyword, a lone white-space byte is no match. *)
Lemma lazyCapture_single c : lazyCapture [c] = None.
Proof.
  unfold lazyCapture. simpl. destruct (reSpace c) eqn:E; simpl; [done|done].
Qed.

Lemma Forall_isBlank_reSpace ind :
  Forall (fun c => isBlank c = true) ind -> Forall (fun c => reSpace c = true) ind.
Proof. intros H. eapply Forall_impl; [exact H|]. intros c. apply isBlank_reSpace. Qed.

Definition kwActive : str := bs "IdentityFile ".
Definition kwCommented : str := bs "# IdentityFile ".

Lemma identityFilePattern_active_eq ind x :
  Forall (fun c => isBlank c = true) ind ->
  identityFileMatch (ind ++ kwActive ++ x) =
  (fun m3 => ([], m3)) <$> lazyCapture (" "%char :: x).
Proof.
  intros Hind. unfold identityFileMatch.
  rewrite dropWhile_app by by apply Forall_isBlank_reSpace. reflexivity.
Qed.

Lemma identityFilePattern_commented_eq ind x :
  Forall (fun c => isBlank c = true) ind ->
  identityFileMatch (ind ++ kwCommented ++ x) =
  (fun m3 => (bs "# ", m3)) <$> lazyCapture (" "%char :: x).
Proof.
  intros Hind. unfold identityFileMatch.
  rewrite dropWhile_app by by apply Forall_isBlank_reSpace. reflexivity.
Qed.

Lemma identityFilePattern_active ind p :
  Forall (fun c => isBlank c = true) ind -> plain p ->
  identityFileMatch (ind ++ kwActive ++ p) = Some ([], p).
Proof.
  intros Hind Hp. rewrite identityFilePattern_active_eq by done.
  by rewrite lazyCapture_sp.
Qed.

Lemma identityFilePattern_commented ind p :
  Forall (fun c => isBlank c = true) ind -> plain p ->
  identityFileMatch (ind ++ kwCommented ++ p) = Some (bs "# ", p).
Proof.
  intros Hind Hp. rewrite identityFilePattern_commented_eq by done.
  by rewrite lazyCapture_sp.
Qed.

Lemma identityFilePattern_active_empty ind :
  Forall (fun c => isBlank c = true) ind ->
  identityFileMatch (ind ++ kwActive ++ []) = None.
Proof.
  intros Hind. unfold identityFileMatch.
  rewrite dropWhile_app by by apply Forall_isBlank_reSpace. reflexivity.
Qed.

Lemma identityFilePattern_commented_empty ind :
  Forall (fun c => isBlank c = true) ind ->
  identityFileMatch (ind ++ kwCommented ++ []) = None.
Proof.
  intros Hind. unfold identityFileMatch.
  rewrite dropWhile_app by by apply Forall_isBlank_reSpace. reflexivity.
Qed.

Lemma hostPattern_active ind x :
  Forall (fun c => isBlank c = true) ind -> hostMatch (ind ++ kwActive ++ x) = None.
Proof.
  intros Hind. unfold hostMatch.
  rewrite dropWhile_app by by apply Forall_isBlank_reSpace. reflexivity.
Qed.

Lemma hostPattern_commented ind x :
  Forall (fun c => isBlank c = true) ind -> hostMatch (ind ++ kwCommented ++ x) = None.
Proof.
  intros Hind. unfold hostMatch.
  rewrite dropWhile_app by by apply Forall_isBlank_reSpace. reflexivity.
Qed.

Lemma identityFilePattern_notLF line m1 m3 :
  identityFileMatch line = Some (m1, m3) -> forallb notLF m3 = true.
Proof.
  unfold identityFileMatch.
  destruct (match dropWhile reSpace line with
            | [] => _ | c :: t => _ end) as [g1 s2].
  destruct (matchFold _ s2) as [rest|]; [|done].
  destruct (lazyCapture rest) as [m|] eqn:E; [|done].
  intros [= _ <-]. by apply lazyCapture_notLF in E.
Qed.

Lemma leadingIndent_blank s : Forall (fun c => isBlank c = true) (leadingIndent s).
Proof. apply takeWhile_Forall. Qed.

(** ** The shape of what [parseBlocks] computes

    A line sequence splits into a preamble without host declarations and
    groups, each a host declaration followed by lines that are none.
    [blocksOf] builds the blocks of such a split directly; [parseLines]
    computes exactly these. *)

Definition isHostLine (line : str) : bool :=
  match hostMatch line with Some _ => true | None => false end.

Definition hostnameOf (line : str) : str :=
  match hostMatch line with Some m1 => TrimSpace m1 | None => [] end.

Definition entryAt (j : nat) (line : str) : option IdentityFileLine.t :=
  match identityFileMatch line with
  | Some (m1, m3) =>
      Some (IdentityFileLine.mk j (TrimSpace m3) (negb (bool_decide (m1 = []))) line)
  | None => None
  end.

(** The entries of the lines [body], the first of which has index [j] in its
    block. *)
Fixpoint entriesFrom (j : nat) (body : list str) : list IdentityFileLine.t :=
  match body with
  | [] => []
  | line :: rest =>
      match entryAt j line with
      | Some e => e :: entriesFrom (S j) rest
      | None => entriesFrom (S j) rest
      end
  end.

Definition group : Type := str * list str.

Definition groupLinesOf (g : group) : list str := fst g :: snd g.

Definition flatten (gs : list group) : list str := concat (map groupLinesOf gs).

Definition blockOf (start : nat) (g : group) : HostBlock.t :=
  HostBlock.mk start (start + S (length (snd g))) (hostnameOf (fst g))
    (groupLinesOf g) (entriesFrom 1 (snd g)).

Fixpoint blocksOf (start : nat) (gs : list group) : list HostBlock.t :=
  match gs with
  | [] => []
  | g :: rest => blockOf start g :: blocksOf (start + S (length (snd g))) rest
  end.

Definition noHost (ls : list str) : Prop := Forall (fun l => isHostLine l = false) ls.

Definition goodGroup (g : group) : Prop := isHostLine (fst g) = true /\ noHost (snd g).

(** [lines] is the preamble [pre] followed by the groups [gs]. *)
Definition splitsAs (lines pre : list str) (gs : list group) : Prop :=
  lines = pre ++ flatten gs /\ noHost pre /\ Forall goodGroup gs.

Fixpoint groupLines (lines : list str) : list str * list group :=
  match lines with
  | [] => ([], [])
  | l :: rest =>
      let '(pre, gs) := groupLines rest in
      if isHostLine l then ([], (l, pre) :: gs) else (l :: pre, gs)
  end.

Lemma groupLines_splitsAs lines :
  splitsAs lines (fst (groupLines lines)) (snd (groupLines lines)).
Proof.
  induction lines as [|l rest IH]; simpl.
  - repeat split; constructor.
  - destruct (groupLines rest) as [pre gs]. destruct IH as (Heq & Hpre & Hgs).
    simpl in *. destruct (isHostLine l) eqn:E; simpl.
    + repeat split; [by rewrite Heq | constructor |].
      constructor; [by split | done].
    + repeat split; [by rewrite Heq | by constructor | done].
Qed.

Lemma splitsAs_exists lines : exists pre gs, splitsAs lines pre gs.
Proof. eexists _, _. apply groupLines_splitsAs. Qed.

Lemma flatten_cons g gs : flatten (g :: gs) = fst g :: snd g ++ flatten gs.
Proof. reflexivity. Qed.

Lemma flatten_app gs1 gs2 : flatten (gs1 ++ gs2) = flatten gs1 ++ flatten gs2.
Proof. unfold flatten. by rewrite map_app, concat_app. Qed.

Lemma parseLoop_app i a b st :
  parseLoop i (a ++ b) st = parseLoop (i + length a) b (parseLoop i a st).
Proof.
  revert i st. induction a as [|l a IH]; intros i st; simpl.
  - by rewrite Nat.add_0_r.
  - rewrite IH. f_equal. lia.
Qed.

Lemma parseLoop_preamble i pre bl :
  noHost pre -> parseLoop i pre (mkParseState bl None) = mkParseState bl None.
Proof.
  intros H. revert i. induction H as [|l pre Hl _ IH]; intros i; simpl; [done|].
  unfold isHostLine in Hl. rewrite parseLine_closed.
  destruct (hostMatch l); [done|]. simpl. apply IH.
Qed.

Lemma parseLoop_body i body bl b :
  noHost body ->
  parseLoop i body (mkParseState bl (Some b)) =
  mkParseState bl
    (Some (HostBlock.mk (HostBlock.StartLine b) (HostBlock.EndLine b)
             (HostBlock.Hostname b) (HostBlock.Lines b ++ body)
             (HostBlock.IdentityFiles b ++
              entriesFrom (length (HostBlock.Lines b)) body))).
Proof.
  intros H. revert i b. induction H as [|l body Hl _ IH]; intros i b; simpl.
  - rewrite !app_nil_r. by destruct b.
  - unfold isHostLine in Hl. rewrite parseLine_closed.
    destruct (hostMatch l); [done|]. simpl. rewrite IH. simpl.
    rewrite length_app. simpl.
    replace (length (HostBlock.Lines b) + 1 - 1) with (length (HostBlock.Lines b)) by lia.
    replace (length (HostBlock.Lines b) + 1) with (S (length (HostBlock.Lines b))) by lia.
    unfold entryAt. rewrite <- !app_assoc. simpl.
    destruct (identityFileMatch l) as [[m1 m3]|]; simpl; [|done].
    by rewrite <- app_assoc.
Qed.

Lemma parseLoop_groups i gs st :
  Forall goodGroup gs ->
  saveBlock (parseLoop i (flatten gs) st) (i + length (flatten gs)) =
  saveBlock st i ++ blocksOf i gs.
Proof.
  intros H. revert i st. induction H as [|[h body] gs [Hh Hb] _ IH]; intros i st.
  - simpl. by rewrite Nat.add_0_r, app_nil_r.
  - rewrite flatten_cons. simpl fst in *. simpl snd in *.
    change (parseLoop i (h :: body ++ flatten gs) st)
      with (parseLoop (S i) (body ++ flatten gs) (parseLine st i h)).
    rewrite parseLoop_app.
    assert (parseLine st i h =
            mkParseState (saveBlock st i)
              (Some (HostBlock.mk i 0 (hostnameOf h) [h] []))) as ->.
    { rewrite parseLine_closed. unfold hostnameOf. unfold isHostLine in Hh.
      by destruct (hostMatch h). }
    rewrite parseLoop_body by done. simpl.
    replace (i + S (length (body ++ flatten gs)))
      with (S (i + length body) + length (flatten gs)) by (rewrite length_app; lia).
    rewrite IH. unfold saveBlock at 1. simpl.
    rewrite <- app_assoc. f_equal. simpl. unfold blockOf, withEndLine. simpl.
    replace (S (i + length body)) with (i + S (length body)) by lia. done.
Qed.

(** [parseLines] computes the blocks of any split of the lines. *)
Lemma parseLines_splitsAs lines pre gs :
  splitsAs lines pre gs -> parseLines lines = blocksOf (length pre) gs.
Proof.
  intros (-> & Hpre & Hgs). unfold parseLines.
  rewrite parseLoop_app, parseLoop_preamble by done. simpl.
  rewrite length_app. rewrite parseLoop_groups by done. done.
Qed.

Lemma blocksOf_app start gs1 gs2 :
  blocksOf start (gs1 ++ gs2) =
  blocksOf start gs1 ++ blocksOf (start + length (flatten gs1)) gs2.
Proof.
  revert start. induction gs1 as [|g gs1 IH]; intros start.
  - simpl. by rewrite Nat.add_0_r.
  - cbn [blocksOf app]. rewrite IH. do 3 f_equal.
    rewrite flatten_cons. simpl. rewrite length_app. lia.
Qed.

Lemma findBlock_app_None bl1 bl2 hostname :
  findBlock bl1 hostname = None ->
  findBlock (bl1 ++ bl2) hostname = findBlock bl2 hostname.
Proof.
  induction bl1 as [|b bl1 IH]; simpl; [done|].
  destruct (bool_decide _); [done | exact IH].
Qed.

Lemma findBlock_Some bl hostname b :
  findBlock bl hostname = Some b <->
  exists bl1 bl2, bl = bl1 ++ b :: bl2 /\ HostBlock.Hostname b = hostname /\
                  Forall (fun b' => HostBlock.Hostname b' <> hostname) bl1.
Proof.
  split.
  - induction bl as [|b0 bl IH]; simpl; [done|].
    destruct (bool_decide (HostBlock.Hostname b0 = hostname)) eqn:E.
    + intros [= ->]. apply bool_decide_eq_true in E.
      exists [], bl. repeat split; [done | constructor].
    + intros H. apply bool_decide_eq_false in E.
      destruct (IH H) as (bl1 & bl2 & -> & Hh & Hall).
      exists (b0 :: bl1), bl2. repeat split; [done | by constructor].
  - intros (bl1 & bl2 & -> & Hh & Hall).
    induction Hall as [|b0 bl1 Hb0 _ IH]; simpl.
    + by rewrite bool_decide_eq_true_2.
    + by rewrite bool_decide_eq_false_2.
Qed.

Lemma findBlock_None bl hostname :
  findBlock bl hostname = None <->
  Forall (fun b => HostBlock.Hostname b <> hostname) bl.
Proof.
  induction bl as [|b bl IH]; simpl.
  - split; [constructor | done].
  - destruct (bool_decide (HostBlock.Hostname b = hostname)) eqn:E.
    + apply bool_decide_eq_true in E. split; [done|]. by inversion 1.
    + apply bool_decide_eq_false in E. rewrite IH. split; [by constructor | by inversion 1].
Qed.

(** Looking a host up among the blocks of a split: the group it is found
    in, with the groups before and after it. *)
Lemma findBlock_blocksOf start gs hostname b :
  findBlock (blocksOf start gs) hostname = Some b ->
  exists gs1 g gs2,
    gs = gs1 ++ g :: gs2 /\ b = blockOf (start + length (flatten gs1)) g /\
    hostnameOf (fst g) = hostname /\
    findBlock (blocksOf start gs1) hostname = None.
Proof.
  revert start. induction gs as [|g gs IH]; intros start; simpl; [done|].
  destruct (bool_decide (hostnameOf (fst g) = hostname)) eqn:E.
  - intros [= <-]. apply bool_decide_eq_true in E.
    exists [], g, gs. simpl. by rewrite Nat.add_0_r.
  - intros H. destruct (IH _ H) as (gs1 & g' & gs2 & -> & -> & Hh & Hnone).
    exists (g :: gs1), g', gs2. repeat split; [| done |].
    + f_equal. rewrite flatten_cons. cbn [length]. rewrite length_app. lia.
    + cbn [blocksOf findBlock]. cbn [blockOf HostBlock.Hostname]. by rewrite E.
Qed.

Lemma findBlock_blocksOf_middle start gs1 g gs2 hostname :
  hostnameOf (fst g) = hostname ->
  findBlock (blocksOf start gs1) hostname = None ->
  findBlock (blocksOf start (gs1 ++ g :: gs2)) hostname =
  Some (blockOf (start + length (flatten gs1)) g).
Proof.
  intros Hh Hnone. rewrite blocksOf_app, findBlock_app_None by done.
  simpl. by rewrite bool_decide_eq_true_2.
Qed.

(** Entries carry the index of their line, in increasing order. *)
Lemma entriesFrom_lookup j body e :
  e ∈ entriesFrom j body ->
  j <= IdentityFileLine.LineIndex e < j + length body /\
  body !! (IdentityFileLine.LineIndex e - j) = Some (IdentityFileLine.FullLine e) /\
  entryAt (IdentityFileLine.LineIndex e) (IdentityFileLine.FullLine e) = Some e.
Proof.
  revert j. induction body as [|l body IH]; intros j; simpl; [by intros ?%elem_of_nil|].
  assert (e ∈ entriesFrom (S j) body ->
          j <= IdentityFileLine.LineIndex e < j + S (length body) /\
          (l :: body) !! (IdentityFileLine.LineIndex e - j) =
            Some (IdentityFileLine.FullLine e) /\
          entryAt (IdentityFileLine.LineIndex e) (IdentityFileLine.FullLine e) = Some e) as Hrest.
  { intros H. destruct (IH _ H) as ([H1 H2] & H3 & H4). split; [lia|]. split; [|done].
    replace (IdentityFileLine.LineIndex e - j)
      with (S (IdentityFileLine.LineIndex e - S j)) by lia. done. }
  destruct (entryAt j l) as [e0|] eqn:E; [|done].
  intros [->|H]%elem_of_cons; [|auto].
  unfold entryAt in E. destruct (identityFileMatch l) as [[m1 m3]|] eqn:E'; [|done].
  injection E as <-. simpl. rewrite Nat.sub_diag. simpl.
  split; [lia|]. split; [done|]. unfold entryAt. by rewrite E'.
Qed.

Lemma entriesFrom_app j a b :
  entriesFrom j (a ++ b) = entriesFrom j a ++ entriesFrom (j + length a) b.
Proof.
  revert j. induction a as [|l a IH]; intros j; simpl.
  - by rewrite Nat.add_0_r.
  - replace (j + S (length a)) with (S j + length a) by lia.
    destruct (entryAt j l); simpl; by rewrite IH.
Qed.

(** ** Consistent configurations

    What [ParseConfig] returns and every operation keeps: the stored blocks
    are the blocks of the stored lines. *)
Definition consistent (c : ConfigFile.t) : Prop :=
  ConfigFile.Blocks c = parseLines (ConfigFile.Lines c).

(** The block found for a host name in a consistent configuration is a
    group of a split of the lines. *)
Lemma find_target c hostname b :
  consistent c -> FindHostBlock c hostname = Some b ->
  exists pre gs1 g gs2,
    splitsAs (ConfigFile.Lines c) pre (gs1 ++ g :: gs2) /\
    b = blockOf (length pre + length (flatten gs1)) g /\
    hostnameOf (fst g) = hostname /\
    findBlock (blocksOf (length pre) gs1) hostname = None.
Proof.
  intros Hc Hf. destruct (splitsAs_exists (ConfigFile.Lines c)) as (pre & gs & Hs).
  unfold FindHostBlock in Hf. rewrite Hc, (parseLines_splitsAs _ _ _ Hs) in Hf.
  apply findBlock_blocksOf in Hf as (gs1 & g & gs2 & -> & -> & Hh & Hn).
  by exists pre, gs1, g, gs2.
Qed.

Lemma splitsAs_replace lines pre gs1 g gs2 g' :
  splitsAs lines pre (gs1 ++ g :: gs2) -> goodGroup g' ->
  splitsAs (pre ++ flatten (gs1 ++ g' :: gs2)) pre (gs1 ++ g' :: gs2).
Proof.
  intros (_ & Hpre & Hgs) Hg'. split; [done|]. split; [done|].
  apply Forall_app in Hgs as [H1 H2]. apply Forall_app. split; [done|].
  inversion H2; subst. by constructor.
Qed.

Lemma findBlock_reparsed lines pre gs1 g gs2 hostname :
  splitsAs lines pre (gs1 ++ g :: gs2) ->
  hostnameOf (fst g) = hostname ->
  findBlock (blocksOf (length pre) gs1) hostname = None ->
  findBlock (parseLines lines) hostname =
  Some (blockOf (length pre + length (flatten gs1)) g).
Proof.
  intros Hs Hh Hn. rewrite (parseLines_splitsAs _ _ _ Hs).
  by apply findBlock_blocksOf_middle.
Qed.

Section Activation.

Variable home : option str.

(** What [ActivateKey] does to a line of the block: the identity-file lines
    are rewritten, the others kept. *)
Definition activateLine (nkp : str) (line : str) : str :=
  match identityFileMatch line with
  | Some (_, m3) =>
      if bool_decide (normalizePath home (TrimSpace m3) = nkp)
      then uncommentIdentityFile line
      else commentIdentityFile line
  | None => line
  end.

Lemma activateLoop_body nkp start body j L R :
  length L = start + j ->
  activateLoop home nkp start (entriesFrom j body) (L ++ body ++ R) =
  Some (L ++ map (activateLine nkp) body ++ R).
Proof.
  revert j L. induction body as [|l body IH]; intros j L HL; [done|].
  cbn [entriesFrom map app].
  assert (L ++ activateLine nkp l :: map (activateLine nkp) body ++ R =
          (L ++ [activateLine nkp l]) ++ map (activateLine nkp) body ++ R) as ->
    by by rewrite <- app_assoc.
  unfold entryAt, activateLine.
  destruct (identityFileMatch l) as [[m1 m3]|] eqn:E.
  - cbn [activateLoop IdentityFileLine.LineIndex].
    rewrite (list_lookup_middle L (body ++ R) l (start + j)) by done.
    unfold samePath. cbn [IdentityFileLine.Path].
    rewrite <- HL. rewrite insert_app_r_alt by lia. rewrite Nat.sub_diag.
    change (<[0:=?x]> (l :: ?t)) with (x :: t).
    rewrite (cons_middle _ L), app_assoc. apply IH. rewrite length_app. simpl. lia.
  - rewrite (cons_middle l L), app_assoc. apply IH. rewrite length_app. simpl. lia.
Qed.

Lemma activateLine_noHost nkp l : isHostLine l = false -> isHostLine (activateLine nkp l) = false.
Proof.
  intros Hl. unfold activateLine.
  rewrite uncommentIdentityFile_closed, commentIdentityFile_closed.
  destruct (identityFileMatch l) as [[m1 m3]|]; [|done].
  unfold isHostLine.
  destruct (bool_decide (normalizePath home (TrimSpace m3) = nkp)).
  - change (bs "IdentityFile ") with kwActive.
    by rewrite hostPattern_active by apply leadingIndent_blank.
  - destruct (negb (bool_decide (m1 = []))); [done|].
    change (bs "# IdentityFile ") with kwCommented.
    by rewrite hostPattern_commented by apply leadingIndent_blank.
Qed.

Lemma activateLine_noHost_all nkp body : noHost body -> noHost (map (activateLine nkp) body).
Proof.
  intros H. apply Forall_map. eapply Forall_impl; [exact H|].
  intros l. apply activateLine_noHost.
Qed.

(** The entry of a rewritten line.  A matching entry comes back active and
    a non-matching one commented, both with the path as written; an entry
    whose path is the empty string is written without a path and is no
    entry any more. *)
Lemma entryAt_activateLine nkp j l :
  entryAt j (activateLine nkp l) =
  match entryAt j l with
  | None => None
  | Some e =>
      if samePath home nkp e then
        if bool_decide (IdentityFileLine.Path e = []) then None
        else Some (IdentityFileLine.mk j (IdentityFileLine.Path e) false (activateLine nkp l))
      else if IdentityFileLine.IsCommented e then Some e
      else if bool_decide (IdentityFileLine.Path e = []) then None
      else Some (IdentityFileLine.mk j (IdentityFileLine.Path e) true (activateLine nkp l))
  end.
Proof.
  unfold entryAt at 2. unfold activateLine.
  destruct (identityFileMatch l) as [[m1 m3]|] eqn:E; [|unfold entryAt; by rewrite E].
  unfold samePath. cbn [IdentityFileLine.Path IdentityFileLine.IsCommented].
  pose proof (TrimSpace_plain m3 (identityFilePattern_notLF _ _ _ E)) as Hp.
  pose proof (leadingIndent_blank l) as Hind.
  destruct (bool_decide (normalizePath home (TrimSpace m3) = nkp)).
  - rewrite uncommentIdentityFile_closed, E. change (bs "IdentityFile ") with kwActive.
    unfold entryAt. destruct Hp as [Hp|Hp].
    + rewrite Hp. rewrite identityFilePattern_active_empty by done. done.
    + rewrite identityFilePattern_active by done.
      destruct Hp as (Hne & _ & Hid). rewrite Hid.
      by rewrite (bool_decide_eq_false_2 (TrimSpace m3 = [])) by done.
  - rewrite commentIdentityFile_closed, E.
    change (bs "# IdentityFile ") with kwCommented.
    destruct (bool_decide (m1 = [])) eqn:E1; cbn [negb].
    + unfold entryAt. destruct Hp as [Hp|Hp].
      * rewrite Hp. rewrite identityFilePattern_commented_empty by done. done.
      * rewrite identityFilePattern_commented by done.
        destruct Hp as (Hne & _ & Hid). rewrite Hid.
        by rewrite (bool_decide_eq_false_2 (TrimSpace m3 = [])) by done.
    + unfold entryAt. rewrite E. by rewrite E1.
Qed.

End Activation.

(** ** What a successful [ActivateKey] leaves *)

Definition activeEntries (ifls : list IdentityFileLine.t) : list IdentityFileLine.t :=
  List.filter (fun e => negb (IdentityFileLine.IsCommented e)) ifls.

Definition nonEmptyPaths (ps : list str) : list str :=
  List.filter (fun p => negb (bool_decide (p = []))) ps.

Lemma firstActive_activeEntries ifls :
  firstActive ifls = hd [] (map IdentityFileLine.Path (activeEntries ifls)).
Proof.
  induction ifls as [|e ifls IH]; simpl; [done|].
  by destruct (IdentityFileLine.IsCommented e).
Qed.

Section ActivateKey.

Variable home : option str.

Definition matching (nkp : str) (ifls : list IdentityFileLine.t) : list IdentityFileLine.t :=
  List.filter (samePath home nkp) ifls.

Lemma matching_existsb nkp ifls :
  existsb (samePath home nkp) ifls = true -> matching nkp ifls <> [].
Proof.
  induction ifls as [|e ifls IH]; simpl; [done|].
  destruct (samePath home nkp e); [done | exact IH].
Qed.

Lemma matching_samePath nkp ifls e :
  In e (matching nkp ifls) -> normalizePath home (IdentityFileLine.Path e) = nkp.
Proof.
  unfold matching. rewrite filter_In. intros [_ H].
  unfold samePath in H. by apply bool_decide_eq_true in H.
Qed.

(** The active entries after the rewrite are the matching entries before
    it whose path is not empty. *)
Lemma activeEntries_activateLine nkp j body :
  map IdentityFileLine.Path (activeEntries (entriesFrom j (map (activateLine home nkp) body))) =
  nonEmptyPaths (map IdentityFileLine.Path (matching nkp (entriesFrom j body))).
Proof.
  revert j. induction body as [|l body IH]; intros j; [done|].
  cbn [map entriesFrom]. rewrite entryAt_activateLine.
  destruct (entryAt j l) as [e|]; [|apply IH].
  unfold matching. cbn [List.filter].
  destruct (samePath home nkp e).
  - cbn [map nonEmptyPaths List.filter].
    destruct (bool_decide (IdentityFileLine.Path e = [])); cbn [negb].
    + apply IH.
    + cbn [activeEntries List.filter IdentityFileLine.IsCommented negb map].
      f_equal. apply IH.
  - destruct (IdentityFileLine.IsCommented e) eqn:Ec.
    + cbn [activeEntries List.filter]. rewrite Ec. apply IH.
    + destruct (bool_decide (IdentityFileLine.Path e = [])); [apply IH|].
      cbn [activeEntries List.filter IdentityFileLine.IsCommented negb]. apply IH.
Qed.

Lemma nonEmptyPaths_In p ps : In p (nonEmptyPaths ps) -> In p ps /\ p <> [].
Proof.
  unfold nonEmptyPaths. rewrite filter_In. intros [H1 H2]. split; [done|].
  apply negb_true_iff, bool_decide_eq_false in H2. done.
Qed.

(** The configuration a successful [ActivateKey] returns, on a split of
    the lines. *)
Lemma ActivateKey_shape c hostname keyPath b :
  consistent c -> FindHostBlock c hostname = Some b ->
  existsb (samePath home (normalizePath home keyPath)) (HostBlock.IdentityFiles b) = true ->
  exists pre gs1 g gs2,
    splitsAs (ConfigFile.Lines c) pre (gs1 ++ g :: gs2) /\
    b = blockOf (length pre + length (flatten gs1)) g /\
    hostnameOf (fst g) = hostname /\
    findBlock (blocksOf (length pre) gs1) hostname = None /\
    let g' := (fst g, map (activateLine home (normalizePath home keyPath)) (snd g)) in
    goodGroup g' /\
    ActivateKey home c hostname keyPath =
    Some (ConfigFile.mk (ConfigFile.Path c) (pre ++ flatten (gs1 ++ g' :: gs2))
            (blocksOf (length pre) (gs1 ++ g' :: gs2)), None).
Proof.
  intros Hc Hf Hfound.
  destruct (find_target c hostname b Hc Hf) as (pre & gs1 & [h body] & gs2 & Hs & Hb & Hh & Hn).
  exists pre, gs1, (h, body), gs2. do 4 (split; [done|]).
  assert (goodGroup (h, map (activateLine home (normalizePath home keyPath)) body)) as Hg'.
  { destruct Hs as (_ & _ & Hgs). apply Forall_app in Hgs as [_ Hgs].
    inversion Hgs as [|? ? [Hh1 Hb1] _]; subst. split; [done|].
    by apply activateLine_noHost_all. }
  split; [done|].
  unfold ActivateKey. rewrite Hf, Hfound. cbn [negb].
  pose proof Hs as (Hlines & _ & _).
  rewrite Hb. cbn [blockOf HostBlock.StartLine HostBlock.IdentityFiles snd fst].
  rewrite Hlines at 1. rewrite flatten_app, flatten_cons. cbn [fst snd].
  assert (pre ++ flatten gs1 ++ h :: body ++ flatten gs2 =
          (pre ++ flatten gs1 ++ [h]) ++ body ++ flatten gs2) as ->
    by by rewrite <- !app_assoc.
  rewrite activateLoop_body by (rewrite !length_app; simpl; lia).
  unfold parseBlocks. cbn [ConfigFile.Path ConfigFile.Lines].
  assert ((pre ++ flatten gs1 ++ [h]) ++
            map (activateLine home (normalizePath home keyPath)) body ++ flatten gs2 =
          pre ++ flatten (gs1 ++ (h, map (activateLine home (normalizePath home keyPath)) body) :: gs2)) as ->.
  { rewrite flatten_app, flatten_cons. cbn [fst snd]. by rewrite <- !app_assoc. }
  do 3 f_equal. apply parseLines_splitsAs.
  exact (splitsAs_replace _ _ _ _ _ _ Hs Hg').
Qed.

Lemma ActivateKey_success_inv c hostname keyPath c' :
  ActivateKey home c hostname keyPath = Some (c', None) ->
  exists b, FindHostBlock c hostname = Some b /\
    existsb (samePath home (normalizePath home keyPath)) (HostBlock.IdentityFiles b) = true.
Proof.
  unfold ActivateKey. destruct (FindHostBlock c hostname) as [b|]; [|done].
  destruct (existsb _ _) eqn:E; [|done]. intros _. by exists b.
Qed.

End ActivateKey.

(** * The claims *)

(** ** C1: activation *)

Definition demoHome : option str := Some (bs "/home/u").

(** The first scenario of the specification. *)
Definition demoLines : list str :=
  map bs [ "Host work";
           "    IdentityFile ~/.ssh/id_work";
           "    # IdentityFile ~/.ssh/id_personal" ].

Definition demoConfig : ConfigFile.t :=
  ConfigFile.mk (bs "/home/u/.ssh/config") demoLines (parseLines demoLines).

Definition demoActivatedLines : list str :=
  map bs [ "Host work";
           "    # IdentityFile ~/.ssh/id_work";
           "    IdentityFile ~/.ssh/id_personal" ].

Definition demoActivated : ConfigFile.t :=
  ConfigFile.mk (bs "/home/u/.ssh/config") demoActivatedLines (parseLines demoActivatedLines).

(** One key under two spellings: both lines name [/home/u/.ssh/id_work]. *)
Definition twiceLines : list str :=
  map bs [ "Host work";
           "    IdentityFile ~/.ssh/id_work";
           "    # IdentityFile /home/u/.ssh/id_work" ].

Definition twiceConfig : ConfigFile.t :=
  ConfigFile.mk (bs "/home/u/.ssh/config") twiceLines (parseLines twiceLines).

Definition twiceActivatedLines : list str :=
  map bs [ "Host work";
           "    IdentityFile ~/.ssh/id_work";
           "    IdentityFile /home/u/.ssh/id_work" ].

Definition twiceActivated : ConfigFile.t :=
  ConfigFile.mk (bs "/home/u/.ssh/config") twiceActivatedLines (parseLines twiceActivatedLines).

(** C1, as stated, fails: when two entries of the block name the requested
    key (here under two spellings with one normal form), a successful
    [ActivateKey] uncomments both, and two entries of the block are active
    afterwards, not exactly one. *)
Lemma ActivateKey_two_active :
  consistent twiceConfig /\
  ActivateKey demoHome twiceConfig (bs "work") (bs "~/.ssh/id_work") =
    Some (twiceActivated, None) /\
  (exists b', FindHostBlock twiceActivated (bs "work") = Some b' /\
     length (activeEntries (HostBlock.IdentityFiles b')) = 2).
Proof.
  split; [reflexivity|]. split; [vm_compute; reflexivity|].
  eexists. split; [vm_compute; reflexivity | reflexivity].
Qed.

(** C1 (amended): after a successful [ActivateKey hostname keyPath] on a
    parsed configuration, the block found for [hostname] has as its active
    (uncommented) entries exactly the entries that matched [keyPath] before
    and whose path text is not empty, in order and with their paths as
    written; hence every active entry has a normalized path equal to the
    normalized [keyPath], there is exactly one active entry when exactly
    one entry matched and its path is not empty, and
    [GetActiveIdentityFile hostname] returns a path whose normal form is
    that of [keyPath]. *)
Theorem ActivateKey_activates home c hostname keyPath c' :
  consistent c ->
  ActivateKey home c hostname keyPath = Some (c', None) ->
  exists b b',
    FindHostBlock c hostname = Some b /\
    FindHostBlock c' hostname = Some b' /\
    map IdentityFileLine.Path (activeEntries (HostBlock.IdentityFiles b')) =
      nonEmptyPaths (map IdentityFileLine.Path
        (matching home (normalizePath home keyPath) (HostBlock.IdentityFiles b))) /\
    Forall (fun e => normalizePath home (IdentityFileLine.Path e) = normalizePath home keyPath)
      (activeEntries (HostBlock.IdentityFiles b')) /\
    (forall e,
       matching home (normalizePath home keyPath) (HostBlock.IdentityFiles b) = [e] ->
       IdentityFileLine.Path e <> [] ->
       exists e', activeEntries (HostBlock.IdentityFiles b') = [e'] /\
                  IdentityFileLine.Path e' = IdentityFileLine.Path e) /\
    normalizePath home (GetActiveIdentityFile c' hostname) = normalizePath home keyPath.
Proof.
  intros Hc Hact.
  destruct (ActivateKey_success_inv home c hostname keyPath c' Hact) as (b & Hf & Hfound).
  destruct (ActivateKey_shape home c hostname keyPath b Hc Hf Hfound)
    as (pre & gs1 & [h body] & gs2 & Hs & Hb & Hh & Hn & Hg' & Heq).
  cbn [fst snd] in *. rewrite Heq in Hact. injection Hact as <-.
  set (nkp := normalizePath home keyPath) in *.
  set (g' := (h, map (activateLine home nkp) body)) in *.
  assert (FindHostBlock
            (ConfigFile.mk (ConfigFile.Path c) (pre ++ flatten (gs1 ++ g' :: gs2))
               (blocksOf (length pre) (gs1 ++ g' :: gs2))) hostname =
          Some (blockOf (length pre + length (flatten gs1)) g')) as Hf'.
  { unfold FindHostBlock. cbn [ConfigFile.Blocks].
    by apply findBlock_blocksOf_middle. }
  exists b, (blockOf (length pre + length (flatten gs1)) g').
  split; [done|]. split; [done|].
  rewrite Hb. cbn [blockOf HostBlock.IdentityFiles snd g'].
  pose proof (activeEntries_activateLine home nkp 1 body) as Hpaths.
  assert (forall p, In p (map IdentityFileLine.Path
                       (activeEntries (entriesFrom 1 (map (activateLine home nkp) body)))) ->
                    normalizePath home p = nkp) as Hall.
  { intros p Hp. rewrite Hpaths in Hp. apply nonEmptyPaths_In in Hp as [Hp _].
    apply in_map_iff in Hp as (e & <- & He). exact (matching_samePath home nkp _ e He). }
  split; [done|]. split.
  { apply Forall_forall. intros e He. apply Hall, in_map. by apply list_elem_of_In. }
  split.
  { intros e He Hne. rewrite He in Hpaths. cbn [map nonEmptyPaths List.filter] in Hpaths.
    rewrite (bool_decide_eq_false_2 _ Hne) in Hpaths. cbn [negb] in Hpaths.
    destruct (activeEntries _) as [|e' [|e'' rest]]; [done| |done].
    injection Hpaths as Hp. by exists e'. }
  unfold GetActiveIdentityFile. rewrite Hf'.
  cbn [blockOf HostBlock.IdentityFiles snd g'].
  rewrite firstActive_activeEntries.
  destruct (map IdentityFileLine.Path (activeEntries _)) as [|p ps] eqn:E.
  - cbn [hd]. symmetry in Hpaths.
    rewrite Hb in Hfound. cbn [blockOf HostBlock.IdentityFiles snd] in Hfound.
    apply (matching_existsb home) in Hfound.
    destruct (matching home nkp (entriesFrom 1 body)) as [|e es] eqn:Em; [done|].
    cbn [map nonEmptyPaths List.filter] in Hpaths.
    destruct (bool_decide (IdentityFileLine.Path e = [])) eqn:Ee; [|done].
    apply bool_decide_eq_true in Ee. rewrite <- Ee.
    apply (matching_samePath home nkp (entriesFrom 1 body)). rewrite Em. by left.
  - cbn [hd]. apply Hall. by left.
Qed.

(** The first scenario of the specification, through the theorem. *)
Lemma ActivateKey_activates_demo :
  exists b b',
    FindHostBlock demoConfig (bs "work") = Some b /\
    FindHostBlock demoActivated (bs "work") = Some b' /\
    map IdentityFileLine.Path (activeEntries (HostBlock.IdentityFiles b')) =
      nonEmptyPaths (map IdentityFileLine.Path
        (matching demoHome (normalizePath demoHome (bs "~/.ssh/id_personal"))
           (HostBlock.IdentityFiles b))) /\
    Forall (fun e => normalizePath demoHome (IdentityFileLine.Path e) =
                     normalizePath demoHome (bs "~/.ssh/id_personal"))
      (activeEntries (HostBlock.IdentityFiles b')) /\
    (forall e,
       matching demoHome (normalizePath demoHome (bs "~/.ssh/id_personal"))
         (HostBlock.IdentityFiles b) = [e] ->
       IdentityFileLine.Path e <> [] ->
       exists e', activeEntries (HostBlock.IdentityFiles b') = [e'] /\
                  IdentityFileLine.Path e' = IdentityFileLine.Path e) /\
    normalizePath demoHome (GetActiveIdentityFile demoActivated (bs "work")) =
      normalizePath demoHome (bs "~/.ssh/id_personal").
Proof.
  apply (ActivateKey_activates demoHome demoConfig (bs "work") (bs "~/.ssh/id_personal")
           demoActivated); [reflexivity | vm_compute; reflexivity].
Defined.

(** ** C2: the errors of [ActivateKey] *)

(** On a consistent configuration [ActivateKey] does not panic. *)
Lemma ActivateKey_returns home c hostname keyPath :
  consistent c -> exists c' oe, ActivateKey home c hostname keyPath = Some (c', oe).
Proof.
  intros Hc. destruct (FindHostBlock c hostname) as [b|] eqn:Hf.
  - destruct (existsb (samePath home (normalizePath home keyPath))
                (HostBlock.IdentityFiles b)) eqn:Hfound.
    + destruct (ActivateKey_shape home c hostname keyPath b Hc Hf Hfound)
        as (pre & gs1 & g & gs2 & _ & _ & _ & _ & _ & Heq).
      eexists _, _. exact Heq.
    + eexists _, _. unfold ActivateKey. by rewrite Hf, Hfound.
  - eexists _, _. unfold ActivateKey. by rewrite Hf.
Qed.

Lemma existsb_samePath_false home nkp ifls :
  existsb (samePath home nkp) ifls = false <->
  Forall (fun ifl => normalizePath home (IdentityFileLine.Path ifl) <> nkp) ifls.
Proof.
  induction ifls as [|e ifls IH]; simpl.
  - split; [constructor | done].
  - unfold samePath at 1. destruct (bool_decide _) eqn:E; simpl.
    + apply bool_decide_eq_true in E. split; [done | by inversion 1].
    + apply bool_decide_eq_false in E. rewrite IH.
      split; [by constructor | by inversion 1].
Qed.

(** C2: on a parsed configuration, [ActivateKey hostname keyPath] returns
    the no-such-block error exactly when no block's pattern equals
    [hostname], and the no-such-entry error exactly when the block found has
    no entry whose normalized path equals the normalized [keyPath]; it
    returns no other error, it always returns, and whenever it returns an
    error the configuration (lines and blocks) is the one it was given. *)
Theorem ActivateKey_NotFound home c hostname keyPath :
  consistent c ->
  (ActivateKey home c hostname keyPath = Some (c, Some (ErrNoHostBlock hostname)) <->
   Forall (fun b => HostBlock.Hostname b <> hostname) (ConfigFile.Blocks c)) /\
  (ActivateKey home c hostname keyPath =
     Some (c, Some (ErrIdentityFileNotFound keyPath hostname)) <->
   exists b, FindHostBlock c hostname = Some b /\
     Forall (fun ifl => normalizePath home (IdentityFileLine.Path ifl) <>
                        normalizePath home keyPath) (HostBlock.IdentityFiles b)) /\
  (forall c' e, ActivateKey home c hostname keyPath = Some (c', Some e) ->
     c' = c /\ (e = ErrNoHostBlock hostname \/ e = ErrIdentityFileNotFound keyPath hostname)) /\
  (exists c' oe, ActivateKey home c hostname keyPath = Some (c', oe)).
Proof.
  intros Hc. split; [|split; [|split]].
  - rewrite <- findBlock_None. fold (FindHostBlock c hostname).
    unfold ActivateKey. destruct (FindHostBlock c hostname) as [b|]; [|done].
    split; [|done]. destruct (negb _); [done|].
    by destruct (activateLoop _ _ _ _ _).
  - unfold ActivateKey. destruct (FindHostBlock c hostname) as [b|].
    + destruct (existsb _ _) eqn:E; cbn [negb].
      * split.
        -- by destruct (activateLoop _ _ _ _ _).
        -- intros (b' & [= <-] & Hall). apply existsb_samePath_false in Hall. congruence.
      * split; [|done]. intros _. exists b. split; [done|].
        by apply existsb_samePath_false.
    + split; [done|]. by intros (b & ? & _).
  - intros c' e. unfold ActivateKey. destruct (FindHostBlock c hostname) as [b|].
    + destruct (negb _).
      * intros [= <- <-]. auto.
      * by destruct (activateLoop _ _ _ _ _).
    + intros [= <- <-]. auto.
  - by apply ActivateKey_returns.
Qed.

(** The second scenario of the specification: an unknown alias. *)
Lemma ActivateKey_NotFound_ghost :
  ActivateKey demoHome demoConfig (bs "ghost") (bs "~/.ssh/id_work") =
  Some (demoConfig, Some (ErrNoHostBlock (bs "ghost"))).
Proof.
  apply (ActivateKey_NotFound demoHome demoConfig (bs "ghost") (bs "~/.ssh/id_work"));
    [reflexivity|].
  vm_compute. repeat constructor; discriminate.
Defined.

(** ** C8: [FindHostBlock] *)

Definition corpLines : list str := map bs [ "Host *.corp"; "    User git" ].

Definition corpConfig : ConfigFile.t :=
  ConfigFile.mk (bs "/home/u/.ssh/config") corpLines (parseLines corpLines).

(** In a consistent configuration a block's name is the trimmed capture of
    its host line, which is the line of the file at its start. *)
Lemma consistent_block_hostline c b :
  consistent c -> b ∈ ConfigFile.Blocks c ->
  exists h m, ConfigFile.Lines c !! HostBlock.StartLine b = Some h /\
    FindStringSubmatch hostPattern h = Some m /\ HostBlock.Hostname b = TrimSpace (m 1).
Proof.
  intros Hc Hb. destruct (splitsAs_exists (ConfigFile.Lines c)) as (pre & gs & Hs).
  rewrite Hc, (parseLines_splitsAs _ _ _ Hs) in Hb.
  destruct Hs as (-> & _ & Hgs). clear Hc.
  revert pre Hb. induction Hgs as [|[h body] gs [Hh _] _ IH]; intros pre Hb.
  - by apply elem_of_nil in Hb.
  - cbn [blocksOf] in Hb. apply elem_of_cons in Hb as [->|Hb].
    + cbn [blockOf HostBlock.StartLine HostBlock.Hostname fst]. simpl in Hh.
      unfold isHostLine in Hh. unfold hostnameOf.
      destruct (hostMatch h) as [m1|] eqn:E; [|done].
      apply hostMatch_Some in E as (m & E & <-).
      exists h, m. split; [|done]. rewrite flatten_cons. cbn [fst snd].
      by apply list_lookup_middle.
    + cbn [snd] in Hb.
      specialize (IH (pre ++ h :: body)).
      rewrite length_app in IH. cbn [length] in IH.
      destruct (IH Hb) as (h' & m1 & Hl & Hp & Hn).
      exists h', m1. split; [|done]. rewrite flatten_cons. cbn [fst snd].
      rewrite <- Hl. by rewrite <- app_assoc.
Qed.

(** C8: [FindHostBlock hostname] returns the first block, in the order of
    the block sequence, whose pattern is equal to [hostname] as a string,
    and none when no pattern is equal; the pattern is the trimmed text of
    the host line, with no glob or negation matching: a block declared
    [Host *.corp] is found by [*.corp] and not by [foo.corp]. *)
Theorem FindHostBlock_literal c hostname :
  consistent c ->
  (forall b, FindHostBlock c hostname = Some b <->
     exists before after,
       ConfigFile.Blocks c = before ++ b :: after /\
       HostBlock.Hostname b = hostname /\
       Forall (fun b' => HostBlock.Hostname b' <> hostname) before) /\
  (FindHostBlock c hostname = None <->
     Forall (fun b => HostBlock.Hostname b <> hostname) (ConfigFile.Blocks c)) /\
  (forall b, FindHostBlock c hostname = Some b ->
     exists h m, ConfigFile.Lines c !! HostBlock.StartLine b = Some h /\
       FindStringSubmatch hostPattern h = Some m /\ TrimSpace (m 1) = hostname) /\
  (forall b, FindHostBlock c hostname = Some b ->
     HostBlock.Hostname b = bs "*.corp" -> hostname = bs "*.corp") /\
  (fun m => m 1) <$> FindStringSubmatch hostPattern (bs "Host *.corp") = Some (bs "*.corp") /\
  FindHostBlock corpConfig (bs "foo.corp") = None /\
  (exists b, FindHostBlock corpConfig (bs "*.corp") = Some b /\ HostBlock.StartLine b = 0).
Proof.
  intros Hc. split; [|split; [|split; [|split; [|split; [|split]]]]].
  - intros b. apply findBlock_Some.
  - apply findBlock_None.
  - intros b Hf. apply findBlock_Some in Hf as (bl1 & bl2 & Hbl & Hh & _).
    destruct (consistent_block_hostline c b Hc) as (h & m1 & Hl & Hp & Hn).
    { rewrite Hbl. apply elem_of_app. right. left. }
    exists h, m1. split; [done|]. split; [done|]. congruence.
  - intros b Hf Hcorp. apply findBlock_Some in Hf as (_ & _ & _ & Hh & _). congruence.
  - reflexivity.
  - reflexivity.
  - eexists. split; [vm_compute; reflexivity | reflexivity].
Qed.

Lemma FindHostBlock_literal_corp :
  FindHostBlock corpConfig (bs "foo.corp") = None /\
  (exists b, FindHostBlock corpConfig (bs "*.corp") = Some b /\ HostBlock.StartLine b = 0).
Proof.
  apply (FindHostBlock_literal corpConfig (bs "foo.corp")). reflexivity.
Defined.

(** ** The configuration [AddIdentityFile] returns *)

Lemma take_length_dropWhile {A} (p : A -> bool) (l : list A) :
  take (length l - length (dropWhile p l)) l = takeWhile p l.
Proof.
  rewrite <- (takeWhile_dropWhile p l) at 1 3.
  rewrite length_app. apply take_app_length'. lia.
Qed.

Lemma detectIndentLoop_blank ls : Forall (fun c => isBlank c = true) (detectIndentLoop ls).
Proof.
  induction ls as [|l ls IH]; simpl.
  - by repeat constructor.
  - destruct (_ && _); [|done]. unfold TrimLeftBlank.
    rewrite take_length_dropWhile. apply takeWhile_Forall.
Qed.

Lemma newIdentityLine_noHost indent keyPath active :
  Forall (fun c => isBlank c = true) indent ->
  isHostLine (newIdentityLine indent keyPath active) = false.
Proof.
  intros H. unfold isHostLine, newIdentityLine. destruct active.
  - change (bs "IdentityFile ") with kwActive. by rewrite hostPattern_active.
  - change (bs "# IdentityFile ") with kwCommented. by rewrite hostPattern_commented.
Qed.

(** The index, within the block, of the last identity-file line; 0, the
    index of the host line, when there is none. *)
Definition lastIndex (ifls : list IdentityFileLine.t) : nat :=
  match last ifls with
  | Some lastIF => IdentityFileLine.LineIndex lastIF
  | None => 0
  end.

Lemma insertIndex_lastIndex b :
  insertIndex b = HostBlock.StartLine b + lastIndex (HostBlock.IdentityFiles b) + 1.
Proof. unfold insertIndex, lastIndex. destruct (last _); lia. Qed.

Lemma lastIndex_bound body : lastIndex (entriesFrom 1 body) <= length body.
Proof.
  unfold lastIndex. destruct (last _) as [e|] eqn:E; [|lia].
  apply last_Some_elem_of in E. apply entriesFrom_lookup in E. lia.
Qed.

Section AddIdentityFile.

Variable home : option str.

Lemma AddIdentityFile_shape c hostname keyPath active b :
  consistent c -> FindHostBlock c hostname = Some b ->
  existsb (samePath home (normalizePath home keyPath)) (HostBlock.IdentityFiles b) = false ->
  exists pre gs1 g gs2,
    splitsAs (ConfigFile.Lines c) pre (gs1 ++ g :: gs2) /\
    b = blockOf (length pre + length (flatten gs1)) g /\
    hostnameOf (fst g) = hostname /\
    findBlock (blocksOf (length pre) gs1) hostname = None /\
    let k := lastIndex (entriesFrom 1 (snd g)) in
    let newLine := newIdentityLine (detectIndentLoop (snd g)) keyPath active in
    let g' := (fst g, take k (snd g) ++ newLine :: drop k (snd g)) in
    goodGroup g' /\
    take (insertIndex b) (ConfigFile.Lines c) = pre ++ flatten gs1 ++ fst g :: take k (snd g) /\
    drop (insertIndex b) (ConfigFile.Lines c) = drop k (snd g) ++ flatten gs2 /\
    AddIdentityFile home c hostname keyPath active =
    Some (ConfigFile.mk (ConfigFile.Path c) (pre ++ flatten (gs1 ++ g' :: gs2))
            (blocksOf (length pre) (gs1 ++ g' :: gs2)), None).
Proof.
  intros Hc Hf Hnone.
  destruct (find_target c hostname b Hc Hf) as (pre & gs1 & [h body] & gs2 & Hs & Hb & Hh & Hn).
  exists pre, gs1, (h, body), gs2. do 4 (split; [done|]). cbn [fst snd].
  set (k := lastIndex (entriesFrom 1 body)).
  set (newLine := newIdentityLine (detectIndentLoop body) keyPath active).
  pose proof (lastIndex_bound body) as Hk. fold k in Hk.
  assert (goodGroup (h, take k body ++ newLine :: drop k body)) as Hg'.
  { destruct Hs as (_ & _ & Hgs). apply Forall_app in Hgs as [_ Hgs].
    inversion Hgs as [|? ? [Hh1 Hb1] _]; subst. split; [done|]. cbn [snd] in *.
    apply Forall_app. split; [by apply Forall_take|].
    constructor; [|by apply Forall_drop].
    apply newIdentityLine_noHost, detectIndentLoop_blank. }
  split; [done|].
  pose proof Hs as (Hlines & _ & _).
  assert (insertIndex b = length (pre ++ flatten gs1) + S k) as Hidx.
  { rewrite insertIndex_lastIndex, Hb. cbn [blockOf HostBlock.StartLine HostBlock.IdentityFiles snd].
    fold k. rewrite length_app. lia. }
  assert (ConfigFile.Lines c = (pre ++ flatten gs1) ++ h :: body ++ flatten gs2) as Hlines'.
  { rewrite Hlines, flatten_app, flatten_cons. cbn [fst snd]. by rewrite <- app_assoc. }
  assert (take (insertIndex b) (ConfigFile.Lines c) = pre ++ flatten gs1 ++ h :: take k body) as Htake.
  { rewrite Hidx, Hlines', take_app_add. cbn [take]. rewrite take_app_le by lia.
    by rewrite <- app_assoc. }
  assert (drop (insertIndex b) (ConfigFile.Lines c) = drop k body ++ flatten gs2) as Hdrop.
  { rewrite Hidx, Hlines', drop_app_add. cbn [drop]. by rewrite drop_app_le by lia. }
  split; [done|]. split; [done|].
  unfold AddIdentityFile. rewrite Hf, Hnone.
  assert (detectIndent (HostBlock.Lines b) = Some (detectIndentLoop body)) as -> by by rewrite Hb.
  rewrite decide_True.
  2:{ rewrite Hidx, Hlines'. rewrite !length_app. cbn [length]. rewrite length_app. lia. }
  rewrite Htake, Hdrop. unfold parseBlocks. cbn [ConfigFile.Path ConfigFile.Lines].
  fold newLine.
  assert ((pre ++ flatten gs1 ++ h :: take k body) ++ newLine :: drop k body ++ flatten gs2 =
          pre ++ flatten (gs1 ++ (h, take k body ++ newLine :: drop k body) :: gs2)) as ->.
  { rewrite flatten_app, flatten_cons. cbn [fst snd]. rewrite <- !app_assoc.
    done. }
  do 3 f_equal. apply parseLines_splitsAs.
  exact (splitsAs_replace _ _ _ _ _ _ Hs Hg').
Qed.

Lemma AddIdentityFile_returns c hostname keyPath active :
  consistent c -> exists c' oe, AddIdentityFile home c hostname keyPath active = Some (c', oe).
Proof.
  intros Hc. destruct (FindHostBlock c hostname) as [b|] eqn:Hf.
  - destruct (existsb (samePath home (normalizePath home keyPath))
                (HostBlock.IdentityFiles b)) eqn:Hfound.
    + eexists _, _. unfold AddIdentityFile. by rewrite Hf, Hfound.
    + destruct (AddIdentityFile_shape c hostname keyPath active b Hc Hf Hfound)
        as (pre & gs1 & g & gs2 & _ & _ & _ & _ & _ & _ & _ & Heq).
      eexists _, _. exact Heq.
  - eexists _, _. unfold AddIdentityFile. by rewrite Hf.
Qed.

End AddIdentityFile.

(** ** C3: locality of mutation *)

(** A block moved down by [d] lines. *)
Definition shiftBlock (d : nat) (b : HostBlock.t) : HostBlock.t :=
  HostBlock.mk (HostBlock.StartLine b + d) (HostBlock.EndLine b + d)
    (HostBlock.Hostname b) (HostBlock.Lines b) (HostBlock.IdentityFiles b).

(** [c'] differs from [c] only inside the block found for [hostname], which
    has grown by [d] lines: the lines before its start and from its end on
    are those of [c], the blocks before it are those of [c], and the blocks
    after it are those of [c] moved down by [d] lines.  When no block is
    found, [c'] is [c]. *)
Definition framed (d : nat) (c c' : ConfigFile.t) (hostname : str) : Prop :=
  match FindHostBlock c hostname with
  | None => c' = c
  | Some b =>
      exists region' b' before after,
        ConfigFile.Lines c' =
          take (HostBlock.StartLine b) (ConfigFile.Lines c) ++ region' ++
          drop (HostBlock.EndLine b) (ConfigFile.Lines c) /\
        length region' = HostBlock.EndLine b - HostBlock.StartLine b + d /\
        ConfigFile.Blocks c = before ++ b :: after /\
        ConfigFile.Blocks c' = before ++ b' :: map (shiftBlock d) after /\
        HostBlock.StartLine b' = HostBlock.StartLine b /\
        HostBlock.EndLine b' = HostBlock.EndLine b + d /\
        HostBlock.Hostname b' = HostBlock.Hostname b /\
        HostBlock.Lines b' = region' /\
        ConfigFile.Path c' = ConfigFile.Path c
  end.

Lemma shiftBlock_0 b : shiftBlock 0 b = b.
Proof. destruct b. unfold shiftBlock. simpl. f_equal; lia. Qed.

Lemma map_shiftBlock_0 bl : map (shiftBlock 0) bl = bl.
Proof. induction bl as [|b bl IH]; simpl; [done|]. by rewrite shiftBlock_0, IH. Qed.

Lemma blocksOf_shift start d gs :
  blocksOf (start + d) gs = map (shiftBlock d) (blocksOf start gs).
Proof.
  revert start. induction gs as [|g gs IH]; intros start; [done|].
  cbn [blocksOf map]. f_equal.
  - unfold blockOf, shiftBlock. simpl. f_equal; lia.
  - rewrite <- IH. f_equal. lia.
Qed.

Lemma splitsAs_take_drop lines pre gs1 g gs2 :
  splitsAs lines pre (gs1 ++ g :: gs2) ->
  take (length pre + length (flatten gs1)) lines = pre ++ flatten gs1 /\
  drop (length pre + length (flatten gs1) + S (length (snd g))) lines = flatten gs2.
Proof.
  intros (-> & _ & _). rewrite flatten_app, flatten_cons.
  rewrite (app_assoc pre). rewrite <- (length_app pre). split.
  - apply take_app_length.
  - rewrite drop_app_add. cbn [drop]. apply drop_app_length.
Qed.

Lemma framed_replace d c pre gs1 g gs2 body' hostname :
  consistent c ->
  splitsAs (ConfigFile.Lines c) pre (gs1 ++ g :: gs2) ->
  FindHostBlock c hostname = Some (blockOf (length pre + length (flatten gs1)) g) ->
  length body' = length (snd g) + d ->
  framed d c
    (ConfigFile.mk (ConfigFile.Path c) (pre ++ flatten (gs1 ++ (fst g, body') :: gs2))
       (blocksOf (length pre) (gs1 ++ (fst g, body') :: gs2))) hostname.
Proof.
  intros Hc Hs Hf Hlen. unfold framed. rewrite Hf.
  set (start := length pre + length (flatten gs1)).
  exists (fst g :: body'), (blockOf start (fst g, body')),
    (blocksOf (length pre) gs1), (blocksOf (start + S (length (snd g))) gs2).
  destruct (splitsAs_take_drop _ _ _ _ _ Hs) as [Htake Hdrop]. fold start in Htake, Hdrop.
  cbn [blockOf HostBlock.StartLine HostBlock.EndLine HostBlock.Hostname HostBlock.Lines
       ConfigFile.Lines ConfigFile.Blocks ConfigFile.Path fst snd groupLinesOf].
  rewrite Htake, Hdrop. split; [|split; [|split; [|split]]].
  - rewrite flatten_app, flatten_cons. cbn [fst snd]. by rewrite <- !app_assoc.
  - cbn [length]. lia.
  - rewrite Hc, (parseLines_splitsAs _ _ _ Hs). by rewrite blocksOf_app.
  - rewrite blocksOf_app. cbn [blocksOf snd]. fold start. do 2 f_equal.
    rewrite <- blocksOf_shift. f_equal. lia.
  - repeat split; lia.
Qed.

Lemma framed_refl c hostname : consistent c -> framed 0 c c hostname.
Proof.
  intros Hc. destruct (FindHostBlock c hostname) as [b|] eqn:Hf.
  - destruct (find_target c hostname b Hc Hf) as (pre & gs1 & [h body] & gs2 & Hs & -> & _ & _).
    pose proof (framed_replace 0 c pre gs1 (h, body) gs2 body hostname Hc Hs Hf) as H.
    cbn [fst snd] in H.
    assert (ConfigFile.mk (ConfigFile.Path c) (pre ++ flatten (gs1 ++ (h, body) :: gs2))
              (blocksOf (length pre) (gs1 ++ (h, body) :: gs2)) = c) as Heq.
    { destruct c as [p l bl]. unfold consistent in Hc. cbn in Hc, Hs |- *. f_equal.
      - by destruct Hs as (-> & _ & _).
      - rewrite Hc. symmetry. by apply parseLines_splitsAs. }
    rewrite Heq in H. apply H. lia.
  - unfold framed. by rewrite Hf.
Qed.

(** C3: on a parsed configuration, whatever [ActivateKey] or
    [AddIdentityFile] returns differs from the configuration given only
    inside the block found for [hostname]: every line before the start of
    that block (the preamble and the earlier blocks) and every line from
    its end on (the later blocks) is unchanged, the earlier blocks are
    unchanged and the later blocks are the same blocks, moved down by one
    line when [AddIdentityFile] inserted a line; the configuration is
    untouched when no block is found. *)
Theorem mutation_is_local home c hostname keyPath active :
  consistent c ->
  (forall c' oe, ActivateKey home c hostname keyPath = Some (c', oe) ->
     framed 0 c c' hostname) /\
  (forall c' oe, AddIdentityFile home c hostname keyPath active = Some (c', oe) ->
     framed 0 c c' hostname \/ framed 1 c c' hostname).
Proof.
  intros Hc. split; intros c' oe H.
  - destruct (FindHostBlock c hostname) as [b|] eqn:Hf.
    + destruct (existsb (samePath home (normalizePath home keyPath))
                  (HostBlock.IdentityFiles b)) eqn:Hfound.
      * destruct (ActivateKey_shape home c hostname keyPath b Hc Hf Hfound)
          as (pre & gs1 & g & gs2 & Hs & Hb & _ & _ & _ & Heq).
        rewrite Heq in H. injection H as <- <-. rewrite Hb in Hf.
        apply (framed_replace 0 c pre gs1 g gs2 _ hostname Hc Hs Hf).
        rewrite length_map. lia.
      * unfold ActivateKey in H. rewrite Hf, Hfound in H. injection H as <- <-.
        by apply framed_refl.
    + unfold ActivateKey in H. rewrite Hf in H. injection H as <- <-.
      by apply framed_refl.
  - destruct (FindHostBlock c hostname) as [b|] eqn:Hf.
    + destruct (existsb (samePath home (normalizePath home keyPath))
                  (HostBlock.IdentityFiles b)) eqn:Hfound.
      * unfold AddIdentityFile in H. rewrite Hf, Hfound in H. injection H as <- <-.
        left. by apply framed_refl.
      * destruct (AddIdentityFile_shape home c hostname keyPath active b Hc Hf Hfound)
          as (pre & gs1 & g & gs2 & Hs & Hb & _ & _ & _ & _ & _ & Heq).
        rewrite Heq in H. injection H as <- <-. rewrite Hb in Hf. right.
        apply (framed_replace 1 c pre gs1 g gs2 _ hostname Hc Hs Hf).
        rewrite length_app. cbn [length]. rewrite length_take, length_drop.
        pose proof (lastIndex_bound (snd g)). lia.
    + unfold AddIdentityFile in H. rewrite Hf in H. injection H as <- <-.
      left. by apply framed_refl.
Qed.

(** A file with a preamble and three blocks; the block of [work] is the
    second one. *)
Definition richLines : list str :=
  map bs [ "# managed by hand";
           "";
           "Host home";
           "    IdentityFile ~/.ssh/id_home";
           "";
           "Host work";
           "    HostName github.com";
           "    IdentityFile ~/.ssh/id_work";
           "    # IdentityFile ~/.ssh/id_personal";
           "";
           "Host backup";
           "    IdentityFile ~/.ssh/id_backup" ].

Definition rich : ConfigFile.t :=
  ConfigFile.mk (bs "/home/u/.ssh/config") richLines (parseLines richLines).

Definition richActivatedLines : list str :=
  map bs [ "# managed by hand";
           "";
           "Host home";
           "    IdentityFile ~/.ssh/id_home";
           "";
           "Host work";
           "    HostName github.com";
           "    # IdentityFile ~/.ssh/id_work";
           "    IdentityFile ~/.ssh/id_personal";
           "";
           "Host backup";
           "    IdentityFile ~/.ssh/id_backup" ].

Definition richActivated : ConfigFile.t :=
  ConfigFile.mk (bs "/home/u/.ssh/config") richActivatedLines (parseLines richActivatedLines).

Definition richAddedLines : list str :=
  map bs [ "# managed by hand";
           "";
           "Host home";
           "    IdentityFile ~/.ssh/id_home";
           "";
           "Host work";
           "    HostName github.com";
           "    IdentityFile ~/.ssh/id_work";
           "    # IdentityFile ~/.ssh/id_personal";
           "    IdentityFile ~/.ssh/id_new";
           "";
           "Host backup";
           "    IdentityFile ~/.ssh/id_backup" ].

Definition richAdded : ConfigFile.t :=
  ConfigFile.mk (bs "/home/u/.ssh/config") richAddedLines (parseLines richAddedLines).

(** In that file the preamble, the block of [home] before and the block of
    [backup] after the block of [work] stay as they are, both when a key of
    [work] is activated and when one is added; the added line moves the
    block of [backup] down by one line. *)
Lemma mutation_is_local_demo :
  map (fun b => (HostBlock.StartLine b, HostBlock.EndLine b)) (ConfigFile.Blocks rich) =
    [ (2, 5); (5, 10); (10, 12) ] /\
  ActivateKey demoHome rich (bs "work") (bs "~/.ssh/id_personal") = Some (richActivated, None) /\
  framed 0 rich richActivated (bs "work") /\
  AddIdentityFile demoHome rich (bs "work") (bs "~/.ssh/id_new") true = Some (richAdded, None) /\
  map (fun b => (HostBlock.StartLine b, HostBlock.EndLine b)) (ConfigFile.Blocks richAdded) =
    [ (2, 5); (5, 11); (11, 13) ] /\
  (framed 0 rich richAdded (bs "work") \/ framed 1 rich richAdded (bs "work")).
Proof.
  pose proof (mutation_is_local demoHome rich (bs "work") (bs "~/.ssh/id_personal") true eq_refl)
    as [Hact _].
  pose proof (mutation_is_local demoHome rich (bs "work") (bs "~/.ssh/id_new") true eq_refl)
    as [_ Hadd].
  split; [vm_compute; reflexivity|].
  split; [vm_compute; reflexivity|].
  split; [apply (Hact richActivated None); vm_compute; reflexivity|].
  split; [vm_compute; reflexivity|].
  split; [vm_compute; reflexivity|].
  apply (Hadd richAdded None). vm_compute. reflexivity.
Defined.

(** ** C4: the blocks are those of the lines *)

Lemma blocksOf_lookup start gs i b :
  blocksOf start gs !! i = Some b ->
  exists gs1 g gs2, gs = gs1 ++ g :: gs2 /\ length gs1 = i /\
    b = blockOf (start + length (flatten gs1)) g.
Proof.
  revert start i. induction gs as [|g gs IH]; intros start i; [done|].
  destruct i as [|i]; cbn [blocksOf lookup list_lookup].
  - intros [= <-]. exists [], g, gs. simpl. by rewrite Nat.add_0_r.
  - intros H. destruct (IH _ _ H) as (gs1 & g' & gs2 & -> & <- & ->).
    exists (g :: gs1), g', gs2. repeat split. f_equal.
    rewrite flatten_cons. cbn [length]. rewrite length_app. lia.
Qed.

(** The ranges of a block sequence over [lines]: each block is a non-empty
    half-open range of the lines that begins at a host declaration and holds
    those lines, and a block ends before any later block begins. *)
Definition wellRanged (lines : list str) (blocks : list HostBlock.t) : Prop :=
  (forall i b, blocks !! i = Some b ->
     HostBlock.StartLine b < HostBlock.EndLine b <= length lines /\
     HostBlock.Lines b =
       take (HostBlock.EndLine b - HostBlock.StartLine b) (drop (HostBlock.StartLine b) lines) /\
     exists h, lines !! HostBlock.StartLine b = Some h /\
       is_Some (FindStringSubmatch hostPattern h)) /\
  (forall i j bi bj, i < j -> blocks !! i = Some bi -> blocks !! j = Some bj ->
     HostBlock.EndLine bi <= HostBlock.StartLine bj).

Lemma parseLines_wellRanged lines : wellRanged lines (parseLines lines).
Proof.
  destruct (splitsAs_exists lines) as (pre & gs & Hs).
  rewrite (parseLines_splitsAs _ _ _ Hs). split.
  - intros i b Hb. apply blocksOf_lookup in Hb as (gs1 & [h body] & gs2 & -> & _ & ->).
    pose proof (splitsAs_take_drop _ _ _ _ _ Hs) as [_ Hdrop].
    destruct Hs as (-> & _ & Hgs).
    cbn [blockOf HostBlock.StartLine HostBlock.EndLine HostBlock.Lines snd fst groupLinesOf] in *.
    rewrite flatten_app, flatten_cons. cbn [fst snd].
    rewrite (app_assoc pre), <- (length_app pre).
    split; [|split].
    + rewrite !length_app. cbn [length]. rewrite length_app. lia.
    + rewrite drop_app_length.
      replace (length (pre ++ flatten gs1) + S (length body) - length (pre ++ flatten gs1))
        with (length (h :: body)) by (cbn [length]; lia).
      by rewrite (app_comm_cons body), take_app_length.
    + exists h. split; [by apply list_lookup_middle|].
      apply Forall_app in Hgs as [_ Hgs]. inversion Hgs as [|? ? [Hh ?] _]; subst.
      cbn [fst] in Hh. unfold isHostLine in Hh.
      destruct (hostMatch h) as [m1|] eqn:E; [|done].
      apply hostMatch_Some in E as (m & -> & _). eauto.
  - intros i j bi bj Hij Hi Hj.
    apply blocksOf_lookup in Hi as (gs1 & g & gs2 & Hgs & Hlen & ->).
    apply blocksOf_lookup in Hj as (gs1' & g' & gs2' & Hgs' & Hlen' & ->).
    cbn [blockOf HostBlock.StartLine HostBlock.EndLine].
    assert (exists mid, gs1' = gs1 ++ g :: mid) as [mid ->].
    { assert (take (S i) gs = gs1 ++ [g]) as Ht.
      { rewrite Hgs, <- Hlen, (cons_middle g), app_assoc.
        apply take_app_length'. rewrite length_app. simpl. lia. }
      assert (take j gs = gs1') as Ht' by (rewrite Hgs', <- Hlen'; apply take_app_length).
      exists (drop (S i) gs1'). rewrite <- (take_drop (S i) gs1') at 1.
      rewrite <- Ht' at 1. rewrite take_take, Nat.min_l by lia.
      rewrite Ht. by rewrite <- app_assoc. }
    rewrite flatten_app, flatten_cons, !length_app. cbn [length]. rewrite length_app. lia.
Qed.

Section Invariant.

Variable home : option str.

Lemma parseBlocks_consistent c : consistent (parseBlocks c).
Proof. reflexivity. Qed.

Lemma ParseConfig_consistent fs path c : ParseConfig home fs path = inl c -> consistent c.
Proof.
  unfold ParseConfig. destruct (lookupNode fs _) as [| |data readError].
  - by intros [= <-].
  - done.
  - destruct (scanLines data); [|done]. destruct readError; [done|].
    intros [= <-]. apply parseBlocks_consistent.
Qed.

Lemma ActivateKey_consistent c hostname keyPath c' oe :
  consistent c -> ActivateKey home c hostname keyPath = Some (c', oe) -> consistent c'.
Proof.
  intros Hc. unfold ActivateKey. destruct (FindHostBlock c hostname) as [b|].
  - destruct (negb _); [by intros [= <- <-]|].
    destruct (activateLoop _ _ _ _ _); [|done]. intros [= <- <-]. apply parseBlocks_consistent.
  - by intros [= <- <-].
Qed.

Lemma AddIdentityFile_consistent c hostname keyPath active c' oe :
  consistent c -> AddIdentityFile home c hostname keyPath active = Some (c', oe) -> consistent c'.
Proof.
  intros Hc. unfold AddIdentityFile. destruct (FindHostBlock c hostname) as [b|].
  - destruct (existsb _ _); [by intros [= <- <-]|].
    destruct (detectIndent _); [|done]. destruct (decide _); [|done].
    intros [= <- <-]. apply parseBlocks_consistent.
  - by intros [= <- <-].
Qed.

End Invariant.

(** C4: [parseBlocks] is idempotent; the configuration [ParseConfig]
    returns, and the one [ActivateKey] or [AddIdentityFile] returns for a
    consistent configuration, is consistent: its blocks are exactly what the
    parser computes from its lines; and such blocks are non-empty half-open
    ranges of the lines, each beginning at a host declaration and holding the
    lines of its range, in line order and without overlap. *)
Theorem blocks_are_parsed :
  (forall c, parseBlocks (parseBlocks c) = parseBlocks c) /\
  (forall home fs path c, ParseConfig home fs path = inl c -> consistent c) /\
  (forall home c hostname keyPath c' oe,
     consistent c -> ActivateKey home c hostname keyPath = Some (c', oe) -> consistent c') /\
  (forall home c hostname keyPath active c' oe,
     consistent c -> AddIdentityFile home c hostname keyPath active = Some (c', oe) ->
     consistent c') /\
  (forall c, consistent c -> wellRanged (ConfigFile.Lines c) (ConfigFile.Blocks c)).
Proof.
  split; [done|]. split; [apply ParseConfig_consistent|].
  split; [apply ActivateKey_consistent|]. split; [apply AddIdentityFile_consistent|].
  intros c Hc. rewrite Hc. apply parseLines_wellRanged.
Qed.

Lemma blocks_are_parsed_demo :
  consistent demoActivated /\
  wellRanged (ConfigFile.Lines demoConfig) (ConfigFile.Blocks demoConfig).
Proof.
  destruct blocks_are_parsed as (_ & _ & Hact & _ & Hranged). split.
  - apply (Hact demoHome demoConfig (bs "work") (bs "~/.ssh/id_personal") demoActivated None);
      [reflexivity | vm_compute; reflexivity].
  - apply Hranged. reflexivity.
Defined.

(** ** C5: adding twice *)

Lemma entryAt_newIdentityLine j indent keyPath active :
  Forall (fun c => isBlank c = true) indent -> plain keyPath ->
  entryAt j (newIdentityLine indent keyPath active) =
  Some (IdentityFileLine.mk j keyPath (negb active) (newIdentityLine indent keyPath active)).
Proof.
  intros Hind Hp. unfold entryAt, newIdentityLine. destruct active.
  - change (bs "IdentityFile ") with kwActive.
    rewrite identityFilePattern_active by done. destruct Hp as (_ & _ & ->). done.
  - change (bs "# IdentityFile ") with kwCommented.
    rewrite identityFilePattern_commented by done. destruct Hp as (_ & _ & ->). done.
Qed.

Definition demoAddedLines : list str :=
  map bs [ "Host work";
           "    IdentityFile ~/.ssh/id_work";
           "    # IdentityFile ~/.ssh/id_personal";
           "    # IdentityFile ~/.ssh/id_new" ].

Definition demoAdded : ConfigFile.t :=
  ConfigFile.mk (bs "/home/u/.ssh/config") demoAddedLines (parseLines demoAddedLines).

(** A key path with a trailing space. *)
Definition paddedPath : str := bs "~/.ssh/id_new ".

Definition paddedOnceLines : list str :=
  map bs [ "Host work";
           "    IdentityFile ~/.ssh/id_work";
           "    # IdentityFile ~/.ssh/id_personal";
           "    # IdentityFile ~/.ssh/id_new " ].

Definition paddedTwiceLines : list str :=
  map bs [ "Host work";
           "    IdentityFile ~/.ssh/id_work";
           "    # IdentityFile ~/.ssh/id_personal";
           "    # IdentityFile ~/.ssh/id_new ";
           "    # IdentityFile ~/.ssh/id_new " ].

Definition paddedOnce : ConfigFile.t :=
  ConfigFile.mk (bs "/home/u/.ssh/config") paddedOnceLines (parseLines paddedOnceLines).

Definition paddedTwice : ConfigFile.t :=
  ConfigFile.mk (bs "/home/u/.ssh/config") paddedTwiceLines (parseLines paddedTwiceLines).

(** C5, as stated, fails: the line is written with [keyPath] as given but
    read back trimmed, so for a [keyPath] that [TrimSpace] changes (here one
    with a trailing space) the second call does not find the entry the
    first one wrote, and inserts the line again. *)
Lemma AddIdentityFile_twice_differs :
  consistent demoConfig /\
  AddIdentityFile demoHome demoConfig (bs "work") paddedPath false = Some (paddedOnce, None) /\
  AddIdentityFile demoHome paddedOnce (bs "work") paddedPath false = Some (paddedTwice, None) /\
  ConfigFile.Lines paddedTwice <> ConfigFile.Lines paddedOnce.
Proof.
  split; [reflexivity|]. split; [vm_compute; reflexivity|].
  split; [vm_compute; reflexivity|]. discriminate.
Qed.

(** C5 (amended): on a parsed configuration, [AddIdentityFile] is a no-op
    returning success whenever the block already has an entry, commented or
    not, whose normalized path equals the normalized [keyPath]; and when
    [keyPath] is plain text (not empty, no newline, nothing for [TrimSpace]
    to trim) and a first call succeeds, a second call with the same
    arguments succeeds and returns the configuration unchanged. *)
Theorem AddIdentityFile_idempotent home c hostname keyPath active :
  consistent c ->
  (forall b, FindHostBlock c hostname = Some b ->
     Exists (fun e => normalizePath home (IdentityFileLine.Path e) = normalizePath home keyPath)
       (HostBlock.IdentityFiles b) ->
     AddIdentityFile home c hostname keyPath active = Some (c, None)) /\
  (plain keyPath ->
   forall c1, AddIdentityFile home c hostname keyPath active = Some (c1, None) ->
     AddIdentityFile home c1 hostname keyPath active = Some (c1, None)).
Proof.
  intros Hc. split.
  - intros b Hf Hex. unfold AddIdentityFile. rewrite Hf.
    destruct (existsb _ _) eqn:E; [done|].
    apply existsb_samePath_false in E. apply Exists_exists in Hex as (e & He & Heq).
    rewrite Forall_forall in E. by destruct (E e He).
  - intros Hplain c1 H1.
    destruct (FindHostBlock c hostname) as [b|] eqn:Hf.
    2:{ unfold AddIdentityFile in H1. by rewrite Hf in H1. }
    destruct (existsb (samePath home (normalizePath home keyPath))
                (HostBlock.IdentityFiles b)) eqn:Hfound.
    + unfold AddIdentityFile in H1. rewrite Hf, Hfound in H1. injection H1 as <-.
      unfold AddIdentityFile. by rewrite Hf, Hfound.
    + destruct (AddIdentityFile_shape home c hostname keyPath active b Hc Hf Hfound)
        as (pre & gs1 & [h body] & gs2 & Hs & Hb & Hh & Hn & Hg' & _ & _ & Heq).
      cbn [fst snd] in *. rewrite Heq in H1. injection H1 as <-.
      unfold AddIdentityFile at 1. unfold FindHostBlock. cbn [ConfigFile.Blocks].
      rewrite findBlock_blocksOf_middle by done.
      cbn [blockOf HostBlock.IdentityFiles snd].
      rewrite entriesFrom_app. cbn [entriesFrom].
      rewrite entryAt_newIdentityLine by (done || apply detectIndentLoop_blank).
      rewrite existsb_app. cbn [existsb]. unfold samePath at 2.
      cbn [IdentityFileLine.Path]. rewrite bool_decide_eq_true_2 by done.
      by rewrite orb_true_r.
Qed.

(** Adding [~/.ssh/id_new] to the configuration of scenario 1 a second time
    changes nothing. *)
Lemma AddIdentityFile_idempotent_demo :
  AddIdentityFile demoHome demoAdded (bs "work") (bs "~/.ssh/id_new") false =
  Some (demoAdded, None).
Proof.
  apply (proj2 (AddIdentityFile_idempotent demoHome demoConfig (bs "work")
                  (bs "~/.ssh/id_new") false eq_refl)).
  - split; [discriminate|]. split; reflexivity.
  - vm_compute. reflexivity.
Defined.

(** ** C9: where and how the new line is written *)

(** A line with text that is indented: stripping its leading spaces and
    tabs changes it and leaves something. *)
Definition indentedText (line : str) : Prop :=
  TrimLeftBlank line <> [] /\ TrimLeftBlank line <> line.

(** [indent] is the leading white space of the first indented line of text
    among [lines], or four spaces when there is none. *)
Definition indentFrom (lines : list str) (indent : str) : Prop :=
  (exists before line after,
     lines = before ++ line :: after /\
     Forall (fun l => ~ indentedText l) before /\
     indentedText line /\ indent = leadingIndent line) \/
  (Forall (fun l => ~ indentedText l) lines /\ indent = bs "    ").

Lemma detectIndentLoop_indentFrom lines : indentFrom lines (detectIndentLoop lines).
Proof.
  induction lines as [|l lines IH]; simpl.
  - right. split; [constructor | done].
  - destruct (bool_decide (TrimLeftBlank l = [])) eqn:E1;
      [apply bool_decide_eq_true in E1 | apply bool_decide_eq_false in E1];
      (destruct (bool_decide (TrimLeftBlank l = l)) eqn:E2;
       [apply bool_decide_eq_true in E2 | apply bool_decide_eq_false in E2]); cbn [negb andb].
    4:{ left. exists [], l, lines. split; [done|]. split; [constructor|]. split; [done|].
        unfold TrimLeftBlank. apply take_length_dropWhile. }
    all: destruct IH as [(before & line & after & -> & Hb & Hl & ->)|[Hall ->]];
      [ left; exists (l :: before), line, after; split; [done|]; split; [|done];
        constructor; [by intros [? ?] | done]
      | right; split; [|done]; constructor; [by intros [? ?] | done] ].
Qed.

Lemma entryAt_LineIndex j l e : entryAt j l = Some e -> IdentityFileLine.LineIndex e = j.
Proof.
  unfold entryAt. destruct (identityFileMatch l) as [[m1 m3]|]; [|done].
  by intros [= <-].
Qed.

Lemma entriesFrom_last j body e :
  last (entriesFrom j body) = Some e ->
  forall e', e' ∈ entriesFrom j body ->
    IdentityFileLine.LineIndex e' <= IdentityFileLine.LineIndex e.
Proof.
  revert j. induction body as [|l body IH]; intros j; cbn [entriesFrom]; [done|].
  destruct (entryAt j l) as [e0|] eqn:E0; [|apply IH].
  apply entryAt_LineIndex in E0.
  destruct (entriesFrom (S j) body) as [|e1 es] eqn:Ees.
  - intros [= <-] e' ->%list_elem_of_singleton. done.
  - rewrite last_cons_cons. intros Hlast e' [->|He']%elem_of_cons.
    + assert (e ∈ entriesFrom (S j) body) as He
        by (rewrite Ees; by apply last_Some_elem_of).
      apply entriesFrom_lookup in He. lia.
    + rewrite <- Ees in Hlast, He'. by apply (IH (S j)).
Qed.

(** A blank line before the first indented line of text. *)
Definition blankLines : list str :=
  map bs [ "Host w"; "  "; "        User git" ].

Definition blankConfig : ConfigFile.t :=
  ConfigFile.mk (bs "/home/u/.ssh/config") blankLines (parseLines blankLines).

Definition blankAddedLines : list str :=
  map bs [ "Host w"; "        IdentityFile k"; "  "; "        User git" ].

Definition blankAdded : ConfigFile.t :=
  ConfigFile.mk (bs "/home/u/.ssh/config") blankAddedLines (parseLines blankAddedLines).

(** C9, as stated, fails: the first line of the block after the host line
    whose content differs after stripping leading white space is the line
    of two spaces, yet the new line is indented by the eight spaces of the
    line after it: [detectIndent] passes over a line that is white space
    only. *)
Lemma AddIdentityFile_skips_blank_line :
  consistent blankConfig /\
  AddIdentityFile demoHome blankConfig (bs "w") (bs "k") true = Some (blankAdded, None) /\
  ConfigFile.Lines blankConfig !! 1 = Some (bs "  ") /\
  TrimLeftBlank (bs "  ") <> bs "  " /\
  ConfigFile.Lines blankAdded !! 1 = Some (bs "        " ++ bs "IdentityFile k") /\
  ConfigFile.Lines blankAdded !! 1 <> Some (leadingIndent (bs "  ") ++ bs "IdentityFile k").
Proof.
  split; [reflexivity|]. split; [vm_compute; reflexivity|].
  split; [reflexivity|]. split; [discriminate|]. split; [reflexivity | discriminate].
Qed.

(** C9 (amended): when [AddIdentityFile] finds the block and no entry of it
    has the normalized path of [keyPath], it inserts one line and succeeds.
    The line is placed right after the line of the block's last
    identity-file entry, or right after the host line when the block has no
    entry.  Its leading white space is that of the first line of the block
    after the host line that is indented and not blank (stripping its
    leading spaces and tabs changes it and leaves something), or four
    spaces when there is no such line; then comes [IdentityFile ] or
    [# IdentityFile ], as [active] says, and [keyPath] as given. *)
Theorem AddIdentityFile_inserts home c hostname keyPath active b :
  consistent c ->
  FindHostBlock c hostname = Some b ->
  Forall (fun e => normalizePath home (IdentityFileLine.Path e) <> normalizePath home keyPath)
    (HostBlock.IdentityFiles b) ->
  exists indent c' at_,
    AddIdentityFile home c hostname keyPath active = Some (c', None) /\
    ConfigFile.Lines c' =
      take at_ (ConfigFile.Lines c) ++
      [indent ++ (if active then bs "IdentityFile " else bs "# IdentityFile ") ++ keyPath] ++
      drop at_ (ConfigFile.Lines c) /\
    match last (HostBlock.IdentityFiles b) with
    | Some lastIF =>
        at_ = S (HostBlock.StartLine b + IdentityFileLine.LineIndex lastIF) /\
        ConfigFile.Lines c !! (HostBlock.StartLine b + IdentityFileLine.LineIndex lastIF) =
          Some (IdentityFileLine.FullLine lastIF) /\
        forall e, e ∈ HostBlock.IdentityFiles b ->
          IdentityFileLine.LineIndex e <= IdentityFileLine.LineIndex lastIF
    | None =>
        at_ = S (HostBlock.StartLine b) /\
        ConfigFile.Lines c !! HostBlock.StartLine b = head (HostBlock.Lines b)
    end /\
    indentFrom (tail (HostBlock.Lines b)) indent.
Proof.
  intros Hc Hf Hnone. apply existsb_samePath_false in Hnone.
  destruct (AddIdentityFile_shape home c hostname keyPath active b Hc Hf Hnone)
    as (pre & gs1 & [h body] & gs2 & Hs & Hb & Hh & Hn & Hg' & Htake & Hdrop & Heq).
  cbn [fst snd] in *.
  eexists (detectIndentLoop body), _, (insertIndex b).
  split; [exact Heq|]. cbn [ConfigFile.Lines].
  assert (ConfigFile.Lines c =
          (pre ++ flatten gs1) ++ h :: body ++ flatten gs2) as Hlines.
  { destruct Hs as (-> & _ & _). rewrite flatten_app, flatten_cons. cbn [fst snd].
    by rewrite <- app_assoc. }
  split; [|split].
  - rewrite Htake, Hdrop, flatten_app, flatten_cons. cbn [fst snd].
    unfold newIdentityLine. rewrite <- !app_assoc. cbn [app].
    rewrite <- ?app_assoc. cbn [app]. by destruct active.
  - unfold insertIndex. rewrite Hb.
    cbn [blockOf HostBlock.StartLine HostBlock.IdentityFiles HostBlock.Lines
         groupLinesOf fst snd head].
    destruct (last (entriesFrom 1 body)) as [lastIF|] eqn:El.
    + split; [lia|]. split; [|by apply entriesFrom_last].
      pose proof (last_Some_elem_of _ _ El) as Hin.
      apply entriesFrom_lookup in Hin as (Hr & Hl & _).
      rewrite Hlines, <- (length_app pre).
      rewrite lookup_app_r by lia.
      replace (length (pre ++ flatten gs1) + IdentityFileLine.LineIndex lastIF -
               length (pre ++ flatten gs1))
        with (S (IdentityFileLine.LineIndex lastIF - 1)) by lia.
      cbn [lookup list_lookup]. by apply lookup_app_l_Some.
    + split; [lia|]. rewrite Hlines, <- (length_app pre). by apply list_lookup_middle.
  - rewrite Hb. cbn [blockOf HostBlock.Lines groupLinesOf fst snd tail].
    apply detectIndentLoop_indentFrom.
Qed.

(** The third scenario of the specification: a block with one active
    entry. *)
Definition oneLines : list str :=
  map bs [ "Host work"; "    IdentityFile ~/.ssh/id_work"; "    User git" ].

Definition oneConfig : ConfigFile.t :=
  ConfigFile.mk (bs "/home/u/.ssh/config") oneLines (parseLines oneLines).

Definition oneBlock : HostBlock.t :=
  blockOf 0 (bs "Host work", map bs [ "    IdentityFile ~/.ssh/id_work"; "    User git" ]).

Lemma AddIdentityFile_inserts_demo :
  exists indent c' at_,
    AddIdentityFile demoHome oneConfig (bs "work") (bs "~/.ssh/id_new") false = Some (c', None) /\
    ConfigFile.Lines c' =
      take at_ (ConfigFile.Lines oneConfig) ++
      [indent ++ bs "# IdentityFile " ++ bs "~/.ssh/id_new"] ++
      drop at_ (ConfigFile.Lines oneConfig) /\
    match last (HostBlock.IdentityFiles oneBlock) with
    | Some lastIF =>
        at_ = S (HostBlock.StartLine oneBlock + IdentityFileLine.LineIndex lastIF) /\
        ConfigFile.Lines oneConfig !!
          (HostBlock.StartLine oneBlock + IdentityFileLine.LineIndex lastIF) =
          Some (IdentityFileLine.FullLine lastIF) /\
        forall e, e ∈ HostBlock.IdentityFiles oneBlock ->
          IdentityFileLine.LineIndex e <= IdentityFileLine.LineIndex lastIF
    | None =>
        at_ = S (HostBlock.StartLine oneBlock) /\
        ConfigFile.Lines oneConfig !! HostBlock.StartLine oneBlock =
          head (HostBlock.Lines oneBlock)
    end /\
    indentFrom (tail (HostBlock.Lines oneBlock)) indent.
Proof.
  apply (AddIdentityFile_inserts demoHome oneConfig (bs "work") (bs "~/.ssh/id_new") false
           oneBlock).
  - reflexivity.
  - vm_compute. reflexivity.
  - vm_compute. repeat constructor; discriminate.
Defined.

(** ** C10: how [ActivateKey] rewrites the lines *)

Section Rewrites.

Variable home : option str.

Lemma activateLine_entry nkp j l e :
  entryAt j l = Some e ->
  activateLine home nkp l =
  if samePath home nkp e then leadingIndent l ++ bs "IdentityFile " ++ IdentityFileLine.Path e
  else if IdentityFileLine.IsCommented e then l
  else leadingIndent l ++ bs "# IdentityFile " ++ IdentityFileLine.Path e.
Proof.
  unfold entryAt, activateLine, samePath.
  rewrite uncommentIdentityFile_closed, commentIdentityFile_closed.
  destruct (identityFileMatch l) as [[m1 m3]|]; [|done].
  intros [= <-]. cbn [IdentityFileLine.Path IdentityFileLine.IsCommented]. done.
Qed.

End Rewrites.

Definition sloppyLine : str := bs "  identityfile   ~/.ssh/id_work".

(** C10: during a successful [ActivateKey] on a parsed configuration, the
    line of every entry of the block whose normalized path equals the
    normalized [keyPath] becomes its leading spaces and tabs, then
    [IdentityFile ], then the entry's path as written, whether or not the
    entry was commented; so the line of an entry that was active already
    can change (the keyword's case, the spacing).  The line of any other
    entry is left as it is when the entry is commented, and gets the
    commented form otherwise. *)
Theorem ActivateKey_rewrites home c hostname keyPath c' :
  consistent c ->
  ActivateKey home c hostname keyPath = Some (c', None) ->
  exists b,
    FindHostBlock c hostname = Some b /\
    (forall e, e ∈ HostBlock.IdentityFiles b ->
       let at_ := HostBlock.StartLine b + IdentityFileLine.LineIndex e in
       let line := IdentityFileLine.FullLine e in
       ConfigFile.Lines c !! at_ = Some line /\
       ConfigFile.Lines c' !! at_ =
         Some (if bool_decide (normalizePath home (IdentityFileLine.Path e) =
                               normalizePath home keyPath)
               then leadingIndent line ++ bs "IdentityFile " ++ IdentityFileLine.Path e
               else if IdentityFileLine.IsCommented e then line
               else leadingIndent line ++ bs "# IdentityFile " ++ IdentityFileLine.Path e)) /\
    (fun m => (m 1, TrimSpace (m 3))) <$> FindStringSubmatch identityFilePattern sloppyLine =
      Some ([], bs "~/.ssh/id_work") /\
    leadingIndent sloppyLine ++ bs "IdentityFile " ++ bs "~/.ssh/id_work" <> sloppyLine.
Proof.
  intros Hc Hact.
  destruct (ActivateKey_success_inv home c hostname keyPath c' Hact) as (b & Hf & Hfound).
  destruct (ActivateKey_shape home c hostname keyPath b Hc Hf Hfound)
    as (pre & gs1 & [h body] & gs2 & Hs & Hb & Hh & Hn & Hg' & Heq).
  cbn [fst snd] in *. rewrite Heq in Hact. injection Hact as <-.
  exists b. split; [done|]. split; [|split; [reflexivity | discriminate]].
  intros e He. cbn zeta. rewrite Hb in He |- *.
  cbn [blockOf HostBlock.IdentityFiles HostBlock.StartLine snd ConfigFile.Lines] in He |- *.
  apply entriesFrom_lookup in He as (Hr & Hl & Hentry).
  destruct Hs as (-> & _ & _).
  rewrite !flatten_app, !flatten_cons. cbn [fst snd].
  rewrite !(app_assoc pre), <- !(length_app pre).
  rewrite !lookup_app_r by lia.
  replace (length (pre ++ flatten gs1) + IdentityFileLine.LineIndex e -
           length (pre ++ flatten gs1))
    with (S (IdentityFileLine.LineIndex e - 1)) by lia.
  cbn [lookup list_lookup]. split; [by apply lookup_app_l_Some|].
  apply lookup_app_l_Some. rewrite list_lookup_fmap, Hl. cbn [fmap option_fmap option_map].
  f_equal. by rewrite (activateLine_entry home _ _ _ e Hentry).
Qed.

(** An active entry written in lower case with wide spacing, and a
    commented one with no space after the [#]. *)
Definition sloppyLines : list str :=
  map bs [ "Host work"; "  identityfile   ~/.ssh/id_work"; "  #IdentityFile ~/.ssh/old" ].

Definition sloppyConfig : ConfigFile.t :=
  ConfigFile.mk (bs "/home/u/.ssh/config") sloppyLines (parseLines sloppyLines).

Definition sloppyActivatedLines : list str :=
  map bs [ "Host work"; "  IdentityFile ~/.ssh/id_work"; "  #IdentityFile ~/.ssh/old" ].

Definition sloppyActivated : ConfigFile.t :=
  ConfigFile.mk (bs "/home/u/.ssh/config") sloppyActivatedLines
    (parseLines sloppyActivatedLines).

Lemma ActivateKey_rewrites_sloppy :
  exists b,
    FindHostBlock sloppyConfig (bs "work") = Some b /\
    (forall e, e ∈ HostBlock.IdentityFiles b ->
       let at_ := HostBlock.StartLine b + IdentityFileLine.LineIndex e in
       let line := IdentityFileLine.FullLine e in
       ConfigFile.Lines sloppyConfig !! at_ = Some line /\
       ConfigFile.Lines sloppyActivated !! at_ =
         Some (if bool_decide (normalizePath demoHome (IdentityFileLine.Path e) =
                               normalizePath demoHome (bs "~/.ssh/id_work"))
               then leadingIndent line ++ bs "IdentityFile " ++ IdentityFileLine.Path e
               else if IdentityFileLine.IsCommented e then line
               else leadingIndent line ++ bs "# IdentityFile " ++ IdentityFileLine.Path e)) /\
    (fun m => (m 1, TrimSpace (m 3))) <$> FindStringSubmatch identityFilePattern sloppyLine =
      Some ([], bs "~/.ssh/id_work") /\
    leadingIndent sloppyLine ++ bs "IdentityFile " ++ bs "~/.ssh/id_work" <> sloppyLine.
Proof.
  apply (ActivateKey_rewrites demoHome sloppyConfig (bs "work") (bs "~/.ssh/id_work")
           sloppyActivated); [reflexivity | vm_compute; reflexivity].
Defined.

(** ** C7: what [Save] writes *)

Lemma HasSuffix_LF s : HasSuffix s [LF] = true <-> last s = Some LF.
Proof.
  unfold HasSuffix, HasPrefix. rewrite bool_decide_eq_true.
  induction s as [|c t _] using rev_ind.
  - split; [by intros [? ?] | done].
  - rewrite rev_app_distr, last_snoc. cbn [rev app stripPrefix].
    destruct (Ascii.eqb LF c) eqn:E.
    + apply Ascii.eqb_eq in E. subst. split; [done | eauto].
    + apply Ascii.eqb_neq in E. split; [by intros [? ?] | congruence].
Qed.

Lemma Join_cons e rest sep : rest <> [] -> Join (e :: rest) sep = e ++ sep ++ Join rest sep.
Proof. by destruct rest. Qed.

Lemma last_Join_snoc before l sep : l <> [] -> last (Join (before ++ [l]) sep) = last l.
Proof.
  intros Hl. induction before as [|x before IH]; [done|].
  cbn [app]. rewrite Join_cons by by destruct before.
  rewrite !last_app, IH. destruct (last l) eqn:E; [done|].
  by apply last_None in E.
Qed.

(** *** The file system *)

Lemma backup_path_differs (p : str) : p ++ bs ".bak" <> p.
Proof.
  intros H. apply (f_equal length) in H. rewrite length_app in H. cbn in H. lia.
Qed.

Lemma lookupNode_writeFile_same fs path data :
  path <> [] -> lookupNode (writeFile fs path data) path = Present data false.
Proof.
  intros H. unfold lookupNode, writeFile. cbn [nodeAt].
  rewrite bool_decide_eq_false_2 by done. by rewrite bool_decide_eq_true_2.
Qed.

Lemma lookupNode_writeFile_other fs path data p :
  p <> path -> lookupNode (writeFile fs path data) p = lookupNode fs p.
Proof.
  intros H. unfold lookupNode, writeFile. cbn [nodeAt].
  by rewrite (bool_decide_eq_false_2 (p = path)) by done.
Qed.

Lemma WriteFile_Some fs path data fs' :
  WriteFile fs path data = Some fs' ->
  path <> [] /\ writable fs path = true /\ fs' = writeFile fs path data.
Proof.
  unfold WriteFile. destruct (bool_decide (path = [])) eqn:E; [done|].
  apply bool_decide_eq_false in E. cbn [negb andb].
  destruct (writable fs path); [|done]. by intros [= <-].
Qed.

Lemma WriteFile_writable fs path data :
  path <> [] -> writable fs path = true ->
  WriteFile fs path data = Some (writeFile fs path data).
Proof.
  intros H Hw. unfold WriteFile. by rewrite bool_decide_eq_false_2, Hw.
Qed.

Lemma WriteFile_empty fs data : WriteFile fs [] data = None.
Proof. reflexivity. Qed.

Lemma Stat_false_empty fs : Stat fs [] = false.
Proof. reflexivity. Qed.

Lemma ReadFile_Some fs path data :
  ReadFile fs path = Some data <-> lookupNode fs path = Present data false.
Proof.
  unfold ReadFile. destruct (lookupNode fs path) as [| |d []]; split; congruence.
Qed.

(** The backup step changes the backup file only, and only when there is a
    file to back up. *)
Lemma backUp_inl fs path fs1 :
  backUp fs path = inl fs1 ->
  (Stat fs path = false /\ fs1 = fs) \/
  (exists data, ReadFile fs path = Some data /\
     (path ++ bs ".bak") <> [] /\ writable fs (path ++ bs ".bak") = true /\
     fs1 = writeFile fs (path ++ bs ".bak") data).
Proof.
  unfold backUp. destruct (Stat fs path); [|intros [= <-]; by left].
  destruct (ReadFile fs path) as [data|] eqn:E; [|done].
  destruct (WriteFile fs _ data) as [fs2|] eqn:Ew; [|done].
  intros [= <-]. right. exists data. apply WriteFile_Some in Ew as (? & ? & ->). done.
Qed.


Lemma backUp_writable fs path fs1 p :
  backUp fs path = inl fs1 -> writable fs1 p = writable fs p.
Proof. by intros [[_ ->]|(data & _ & _ & _ & ->)]%backUp_inl. Qed.

(** A [Save] that returns no error wrote the content after the backup
    step. *)
Lemma Save_None fs c fs' :
  Save fs c = (fs', None) ->
  ConfigFile.Path c <> [] /\
  exists fs1,
    backUp fs (ConfigFile.Path c) = inl fs1 /\
    writable fs (ConfigFile.Path c) = true /\
    fs' = writeFile fs1 (ConfigFile.Path c) (saveContent (ConfigFile.Lines c)).
Proof.
  unfold Save. destruct (backUp fs (ConfigFile.Path c)) as [fs1|e] eqn:Eb; [|done].
  destruct (WriteFile fs1 _ _) as [fs2|] eqn:Ew; [|done].
  intros [= <-]. apply WriteFile_Some in Ew as (Hne & Hw & ->).
  split; [done|]. exists fs1. split; [done|]. split; [|done].
  by rewrite <- (backUp_writable _ _ _ _ Eb).
Qed.

Lemma Save_None_ReadFile fs c fs' :
  Save fs c = (fs', None) ->
  ReadFile fs' (ConfigFile.Path c) = Some (saveContent (ConfigFile.Lines c)).
Proof.
  intros (Hne & fs1 & _ & _ & ->)%Save_None.
  apply ReadFile_Some. by apply lookupNode_writeFile_same.
Qed.

(** A file system without files, in which every path can be written. *)
Lemma backup_nonempty (p : str) : p ++ bs ".bak" <> [].
Proof. intros H. apply (f_equal length) in H. rewrite length_app in H. cbn in H. lia. Qed.

Lemma Stat_ReadFile fs path data : ReadFile fs path = Some data -> Stat fs path = true.
Proof. intros H%ReadFile_Some. unfold Stat. by rewrite H. Qed.

(** What a [Save] that returns no error has done. *)
Lemma Save_None_files fs c fs' :
  Save fs c = (fs', None) ->
  (forall data, ReadFile fs (ConfigFile.Path c) = Some data ->
     ReadFile fs' (ConfigFile.Path c ++ bs ".bak") = Some data) /\
  (Stat fs (ConfigFile.Path c) = true ->
     is_Some (ReadFile fs (ConfigFile.Path c)) /\
     writable fs (ConfigFile.Path c ++ bs ".bak") = true) /\
  (Stat fs (ConfigFile.Path c) = false ->
     lookupNode fs' (ConfigFile.Path c ++ bs ".bak") =
     lookupNode fs (ConfigFile.Path c ++ bs ".bak")) /\
  (forall p, p <> ConfigFile.Path c -> p <> ConfigFile.Path c ++ bs ".bak" ->
     lookupNode fs' p = lookupNode fs p).
Proof.
  intros (Hne & fs1 & Hb & Hw & ->)%Save_None.
  pose proof (backup_path_differs (ConfigFile.Path c)) as Hdiff.
  pose proof (backup_nonempty (ConfigFile.Path c)) as Hbne.
  apply backUp_inl in Hb as [[Hstat ->]|(data0 & Hread & _ & Hwb & ->)].
  - split; [|split; [|split]].
    + intros data Hd%Stat_ReadFile. congruence.
    + congruence.
    + intros _. by apply lookupNode_writeFile_other.
    + intros p Hp _. by apply lookupNode_writeFile_other.
  - pose proof (Stat_ReadFile _ _ _ Hread) as Hstat. split; [|split; [|split]].
    + intros data Hd. rewrite Hread in Hd. injection Hd as <-.
      apply ReadFile_Some. rewrite lookupNode_writeFile_other by done.
      by apply lookupNode_writeFile_same.
    + intros _. by rewrite Hread.
    + congruence.
    + intros p Hp Hpb. by rewrite !lookupNode_writeFile_other.
Qed.

Lemma Save_succeeds fs c :
  ConfigFile.Path c <> [] ->
  writable fs (ConfigFile.Path c) = true ->
  (Stat fs (ConfigFile.Path c) = true ->
     is_Some (ReadFile fs (ConfigFile.Path c)) /\
     writable fs (ConfigFile.Path c ++ bs ".bak") = true) ->
  exists fs', Save fs c = (fs', None).
Proof.
  intros Hne Hw Hb. unfold Save, backUp.
  destruct (Stat fs (ConfigFile.Path c)).
  - destruct (Hb eq_refl) as [[data ->] Hwb].
    rewrite (WriteFile_writable fs _ data (backup_nonempty _) Hwb).
    rewrite WriteFile_writable by done. eauto.
  - rewrite WriteFile_writable by done. eauto.
Qed.


Definition emptyFS : FS := mkFS (fun _ => Absent) (fun _ => true).

Definition configPath : str := bs "/home/u/.ssh/config".



Lemma saveContent_cases lines :
  (lines = [] /\ saveContent lines = []) \/
  (lines <> [] /\ last (Join lines [LF]) = Some LF /\ saveContent lines = Join lines [LF]) \/
  (lines <> [] /\ last (Join lines [LF]) <> Some LF /\
   saveContent lines = Join lines [LF] ++ [LF]).
Proof.
  unfold saveContent. destruct lines as [|l lines]; [by left|right].
  rewrite bool_decide_eq_false_2 by done. cbn [negb andb].
  destruct (HasSuffix (Join (l :: lines) [LF]) [LF]) eqn:E; cbn [negb].
  - left. apply HasSuffix_LF in E. done.
  - right. split; [done|]. split; [|done]. intros H. apply HasSuffix_LF in H. congruence.
Qed.



(** ** C6: writing and reading back *)

(** The structure of a block sequence: the host patterns, and for each the
    paths and commented flags of its entries, in order. *)
Definition structure (blocks : list HostBlock.t) : list (str * list (str * bool)) :=
  map (fun b =>
         (HostBlock.Hostname b,
          map (fun e => (IdentityFileLine.Path e, IdentityFileLine.IsCommented e))
            (HostBlock.IdentityFiles b)))
    blocks.

(** A line the scanner returns as it is: no newline in it, no carriage
    return at its end, and short enough for the scanner's buffer. *)
Definition scannable (l : str) : Prop :=
  forallb notLF l = true /\ last l <> Some CR /\
  (Z.of_nat (length l) < MaxScanTokenSize)%Z.

Lemma rawLines_line l rest :
  forallb notLF l = true -> rawLines (l ++ LF :: rest) = l :: rawLines rest.
Proof.
  induction l as [|c l IH]; [done|]. cbn [forallb app rawLines].
  intros [Hc Hl]%andb_true_iff. unfold notLF in Hc. apply negb_true_iff in Hc.
  rewrite Hc. by rewrite IH.
Qed.

Lemma rawLines_Join ls :
  Forall (fun l => forallb notLF l = true) ls -> ls <> [] ->
  rawLines (Join ls [LF] ++ [LF]) = ls.
Proof.
  induction 1 as [|l ls Hl _ IH]; [done|]. intros _.
  destruct ls as [|l2 ls].
  - cbn [Join]. by rewrite rawLines_line.
  - rewrite Join_cons by done. rewrite <- !app_assoc. cbn [app].
    rewrite rawLines_line by done. by rewrite IH.
Qed.

Lemma Join_snoc before l sep :
  before <> [] -> Join (before ++ [l]) sep = Join before sep ++ sep ++ l.
Proof.
  induction before as [|x before IH]; [done|]. intros _.
  destruct before as [|y before]; [done|].
  cbn [app]. rewrite (Join_cons x (y :: before ++ [l])) by done.
  rewrite (Join_cons x (y :: before)) by done.
  change (y :: before ++ [l]) with ((y :: before) ++ [l]).
  rewrite IH by done. by rewrite <- !app_assoc.
Qed.

Lemma notLF_last l : forallb notLF l = true -> last l <> Some LF.
Proof.
  induction l as [|c t _] using rev_ind; [done|].
  rewrite forallb_app, last_snoc. cbn [forallb].
  intros [_ Hc]%andb_true_iff [= ->]. done.
Qed.

Lemma dropCR_id l : last l <> Some CR -> dropCR l = l.
Proof.
  unfold dropCR. destruct (last l) as [c|]; [|done].
  destruct (Ascii.eqb c CR) eqn:E; [|done]. apply Ascii.eqb_eq in E. by intros []; subst.
Qed.

Lemma scanLines_scannable ls :
  Forall scannable ls -> forall data, rawLines data = ls -> scanLines data = inl ls.
Proof.
  intros Hall data Hraw. unfold scanLines. rewrite Hraw.
  assert (forallb (fun l => (Z.of_nat (length l) <? MaxScanTokenSize)%Z) ls = true) as ->.
  { apply forallb_forall. intros l Hl%list_elem_of_In.
    rewrite Forall_forall in Hall. destruct (Hall l Hl) as (_ & _ & H).
    by apply Z.ltb_lt. }
  f_equal. clear Hraw. induction Hall as [|l ls (_ & Hl & _) _ IH]; [done|].
  rewrite fmap_cons, dropCR_id by done. by f_equal.
Qed.

(** What the scanner reads from what [Save] wrote: the lines, but for one
    empty last line. *)
Lemma scanLines_saveContent lines :
  Forall scannable lines ->
  exists lines', scanLines (saveContent lines) = inl lines' /\
    (lines' = lines \/ lines = lines' ++ [[]]).
Proof.
  intros Hall.
  assert (Forall (fun l => forallb notLF l = true) lines) as HnoLF.
  { eapply Forall_impl; [exact Hall|]. by intros l (? & _). }
  destruct (saveContent_cases lines) as [[-> ->]|[(Hne & Hlast & ->)|(Hne & Hlast & ->)]].
  - exists []. split; [reflexivity | by left].
  - destruct lines as [|l0 lines0] using rev_ind; [done|]. clear IHlines0.
    rename lines0 into before. rename l0 into l.
    apply Forall_app in HnoLF as [Hb Hl]. inversion Hl as [|? ? Hl' _]; subst.
    destruct l as [|c l].
    + destruct before as [|x before]; [done|].
      rewrite Join_snoc in * by done. rewrite app_nil_r in *.
      exists (x :: before). split; [|by right].
      apply scanLines_scannable; [by apply Forall_app in Hall as [? _]|].
      by apply rawLines_Join.
    + rewrite last_Join_snoc in Hlast by done. by apply notLF_last in Hl'.
  - exists lines. split; [|by left].
    apply scanLines_scannable; [done|]. by apply rawLines_Join.
Qed.

Definition groupStructure (g : group) : str * list (str * bool) :=
  (hostnameOf (fst g),
   map (fun e => (IdentityFileLine.Path e, IdentityFileLine.IsCommented e))
     (entriesFrom 1 (snd g))).

Lemma structure_blocksOf start gs : structure (blocksOf start gs) = map groupStructure gs.
Proof.
  revert start. induction gs as [|g gs IH]; intros start; [done|].
  cbn [blocksOf structure map]. f_equal. apply IH.
Qed.

Lemma entriesFrom_snoc_empty j body : entriesFrom j (body ++ [[]]) = entriesFrom j body.
Proof. rewrite entriesFrom_app. cbn. apply app_nil_r. Qed.

(** An empty last line belongs to no entry and starts no block. *)
Lemma structure_parseLines_snoc_empty ls :
  structure (parseLines (ls ++ [[]])) = structure (parseLines ls).
Proof.
  destruct (splitsAs_exists ls) as (pre & gs & Hs).
  rewrite (parseLines_splitsAs _ _ _ Hs).
  destruct Hs as (-> & Hpre & Hgs).
  destruct gs as [|[h body] gs0] using rev_ind.
  - rewrite (parseLines_splitsAs _ (pre ++ [[]]) []); [done|].
    split; [by rewrite !app_nil_r|]. split; [|done].
    apply Forall_app. split; [done | by repeat constructor].
  - clear IHgs0. rename gs0 into gs.
    rewrite (parseLines_splitsAs _ pre (gs ++ [(h, body ++ [[]])])).
    + rewrite !structure_blocksOf, !map_app. f_equal. cbn [map]. f_equal.
      unfold groupStructure. cbn [fst snd]. by rewrite entriesFrom_snoc_empty.
    + apply Forall_app in Hgs as [Hg1 Hg2]. inversion Hg2 as [|? ? [Hh Hb] _]; subst.
      split; [|split; [done|]].
      * rewrite !flatten_app. unfold flatten. cbn [map concat groupLinesOf fst snd].
        rewrite !app_nil_r. by rewrite <- !app_assoc.
      * apply Forall_app. split; [done|]. constructor; [|done]. split; [done|].
        cbn [snd] in *. apply Forall_app. split; [done | by repeat constructor].
Qed.

Definition baseFile : str :=
  bs "Host work" ++ [LF] ++ bs "    IdentityFile a" ++ [LF].

Definition baseFS : FS := writeFile emptyFS configPath baseFile.

Definition baseConfig : ConfigFile.t :=
  let lines := map bs [ "Host work"; "    IdentityFile a" ] in
  ConfigFile.mk configPath lines (parseLines lines).

(** A key path with a newline in it. *)
Definition twoLinePath : str := bs "b" ++ [LF] ++ bs "Host evil".

Definition twoLineConfig : ConfigFile.t :=
  let lines := [ bs "Host work"; bs "    IdentityFile a";
                 bs "    IdentityFile b" ++ [LF] ++ bs "Host evil" ] in
  ConfigFile.mk configPath lines (parseLines lines).

Definition twoLineReread : ConfigFile.t :=
  let lines := map bs [ "Host work"; "    IdentityFile a"; "    IdentityFile b"; "Host evil" ] in
  ConfigFile.mk configPath lines (parseLines lines).

(** Reading the destination of a [Save] that returned no error is scanning
    the content it wrote. *)
Lemma ParseConfig_saved home fs c fs' :
  Save fs c = (fs', None) ->
  ParseConfig home fs' (ConfigFile.Path c) =
  match scanLines (saveContent (ConfigFile.Lines c)) with
  | inl lines => inl (parseBlocks (ConfigFile.mk (ConfigFile.Path c) lines []))
  | inr e => inr e
  end.
Proof.
  intros (Hne & fs1 & _ & _ & ->)%Save_None. unfold ParseConfig.
  rewrite bool_decide_eq_false_2 by done.
  by rewrite lookupNode_writeFile_same.
Qed.

(** C6, as stated, fails: [AddIdentityFile] writes [keyPath] as given, and a
    [keyPath] with a newline in it makes one line in memory, which is no
    entry there, but two lines in the file [Save] writes, which read back as
    an entry and a host declaration. *)
Lemma Save_ParseConfig_changes_structure :
  ParseConfig demoHome baseFS configPath = inl baseConfig /\
  AddIdentityFile demoHome baseConfig (bs "work") twoLinePath true =
    Some (twoLineConfig, None) /\
  snd (Save baseFS twoLineConfig) = None /\
  ParseConfig demoHome (fst (Save baseFS twoLineConfig)) configPath = inl twoLineReread /\
  structure (ConfigFile.Blocks twoLineConfig) = [ (bs "work", [ (bs "a", false) ]) ] /\
  structure (ConfigFile.Blocks twoLineReread) =
    [ (bs "work", [ (bs "a", false); (bs "b", false) ]); (bs "evil", []) ].
Proof. repeat split; vm_compute; reflexivity. Qed.

(** C6 (amended): for a parsed configuration with a path in which no line
    contains a newline, ends in a carriage return or is longer than the
    scanner's buffer, after a [Save] that returns no error [ParseConfig] of
    the path succeeds and yields blocks with the same structure (host
    patterns, paths, commented flags, order); the lines read are the lines
    saved, but for one empty last line. *)
Theorem Save_ParseConfig_roundtrip home fs c fs' :
  consistent c ->
  ConfigFile.Path c <> [] ->
  Forall scannable (ConfigFile.Lines c) ->
  Save fs c = (fs', None) ->
  exists c',
    ParseConfig home fs' (ConfigFile.Path c) = inl c' /\
    structure (ConfigFile.Blocks c') = structure (ConfigFile.Blocks c) /\
    (ConfigFile.Lines c' = ConfigFile.Lines c \/
     ConfigFile.Lines c = ConfigFile.Lines c' ++ [[]]).
Proof.
  intros Hc Hpath Hscan Hsave.
  destruct (scanLines_saveContent _ Hscan) as (lines' & Hscan' & Hlines).
  exists (ConfigFile.mk (ConfigFile.Path c) lines' (parseLines lines')).
  split; [|split; [|done]].
  - by rewrite (ParseConfig_saved home fs c fs' Hsave), Hscan'.
  - cbn [ConfigFile.Blocks]. rewrite Hc.
    destruct Hlines as [->| ->]; [done|].
    by rewrite structure_parseLines_snoc_empty.
Qed.

(** Scenario 1 written where there was no file, and read back. *)
Lemma Save_ParseConfig_roundtrip_demo :
  exists c',
    ParseConfig demoHome (fst (Save emptyFS demoConfig)) (ConfigFile.Path demoConfig) =
      inl c' /\
    structure (ConfigFile.Blocks c') = structure (ConfigFile.Blocks demoConfig) /\
    (ConfigFile.Lines c' = ConfigFile.Lines demoConfig \/
     ConfigFile.Lines demoConfig = ConfigFile.Lines c' ++ [[]]).
Proof.
  apply (Save_ParseConfig_roundtrip demoHome emptyFS demoConfig (fst (Save emptyFS demoConfig))).
  - reflexivity.
  - discriminate.
  - repeat constructor; discriminate.
  - reflexivity.
Defined.

(** * Further properties *)

(** ** The layout of the blocks *)

(** The tests of [parseBlocks] on a line. *)
Definition declaresHost (line : str) : bool :=
  match FindStringSubmatch hostPattern line with Some _ => true | None => false end.

Definition namesIdentityFile (line : str) : bool :=
  match FindStringSubmatch identityFilePattern line with Some _ => true | None => false end.

(** The indices of the lines that satisfy [p], the first line having index
    [i]. *)
Fixpoint indicesFrom (i : nat) (p : str -> bool) (lines : list str) : list nat :=
  match lines with
  | [] => []
  | l :: rest =>
      if p l then i :: indicesFrom (S i) p rest else indicesFrom (S i) p rest
  end.

Lemma declaresHost_isHostLine l : declaresHost l = isHostLine l.
Proof.
  unfold declaresHost, isHostLine. rewrite <- hostPattern_closed.
  by destruct (FindStringSubmatch hostPattern l).
Qed.

Lemma namesIdentityFile_entryAt j l : namesIdentityFile l = bool_decide (is_Some (entryAt j l)).
Proof.
  unfold namesIdentityFile, entryAt. rewrite <- identityFilePattern_closed.
  destruct (FindStringSubmatch identityFilePattern l); cbn [fmap option_fmap option_map].
  - by rewrite bool_decide_eq_true_2.
  - rewrite bool_decide_eq_false_2; [done|]. by intros [? ?].
Qed.

Lemma entryAt_Some j l e :
  entryAt j l = Some e ->
  exists m, FindStringSubmatch identityFilePattern l = Some m /\
    e = IdentityFileLine.mk j (TrimSpace (m 3)) (negb (bool_decide (m 1 = []))) l.
Proof.
  unfold entryAt. rewrite <- identityFilePattern_closed.
  destruct (FindStringSubmatch identityFilePattern l) as [m|]; [|done].
  cbn [fmap option_fmap option_map]. intros [= <-]. by exists m.
Qed.

Lemma indicesFrom_app i p a b :
  indicesFrom i p (a ++ b) = indicesFrom i p a ++ indicesFrom (i + length a) p b.
Proof.
  revert i. induction a as [|l a IH]; intros i; cbn [app indicesFrom length].
  - by rewrite Nat.add_0_r.
  - rewrite IH. replace (S i + length a) with (i + S (length a)) by lia.
    by destruct (p l).
Qed.

Lemma indicesFrom_noHost i ls : noHost ls -> indicesFrom i declaresHost ls = [].
Proof.
  intros H. revert i. induction H as [|l ls Hl _ IH]; intros i; [done|].
  cbn [indicesFrom]. by rewrite declaresHost_isHostLine, Hl.
Qed.

Lemma indicesFrom_blocksOf start gs :
  Forall goodGroup gs ->
  map HostBlock.StartLine (blocksOf start gs) = indicesFrom start declaresHost (flatten gs).
Proof.
  intros H. revert start. induction H as [|[h body] gs [Hh Hb] _ IH]; intros start; [done|].
  cbn [fst snd] in *. rewrite flatten_cons. cbn [fst snd blocksOf map indicesFrom].
  rewrite declaresHost_isHostLine, Hh. cbn [blockOf HostBlock.StartLine]. f_equal.
  rewrite indicesFrom_app, indicesFrom_noHost by done. cbn [app].
  rewrite IH. f_equal. lia.
Qed.

Lemma parseLines_StartLine lines :
  map HostBlock.StartLine (parseLines lines) = indicesFrom 0 declaresHost lines.
Proof.
  destruct (splitsAs_exists lines) as (pre & gs & Hs).
  rewrite (parseLines_splitsAs _ _ _ Hs). destruct Hs as (-> & Hpre & Hgs).
  rewrite indicesFrom_app, indicesFrom_noHost by done.
  by apply indicesFrom_blocksOf.
Qed.

(** X1: The blocks begin exactly at the lines that match [hostPattern]: there
    is one block for each such line, in the order of the lines, and its
    name is the trimmed first group of the match. *)
Theorem blocks_start_at_host_lines lines :
  map HostBlock.StartLine (parseLines lines) = indicesFrom 0 declaresHost lines /\
  Forall (fun b =>
            exists h m,
              lines !! HostBlock.StartLine b = Some h /\
              FindStringSubmatch hostPattern h = Some m /\
              HostBlock.Hostname b = TrimSpace (m 1))
    (parseLines lines).
Proof.
  split; [apply parseLines_StartLine|].
  apply Forall_forall. intros b Hb.
  apply (consistent_block_hostline (ConfigFile.mk [] lines (parseLines lines)) b);
    [reflexivity | exact Hb].
Qed.

Lemma blocksOf_Lines start gs : concat (map HostBlock.Lines (blocksOf start gs)) = flatten gs.
Proof.
  revert start. induction gs as [|g gs IH]; intros start; [done|].
  cbn [blocksOf map concat blockOf HostBlock.Lines]. by rewrite IH.
Qed.

Lemma blocksOf_head start gs b :
  head (blocksOf start gs) = Some b -> HostBlock.StartLine b = start.
Proof. destruct gs as [|g gs]; [done|]. by intros [= <-]. Qed.

Lemma blocksOf_adjacent start gs i b b' :
  blocksOf start gs !! i = Some b -> blocksOf start gs !! S i = Some b' ->
  HostBlock.EndLine b = HostBlock.StartLine b'.
Proof.
  revert start i. induction gs as [|g gs IH]; intros start i; [done|].
  destruct i as [|i]; cbn [blocksOf lookup list_lookup].
  - intros [= <-] H. destruct gs as [|g2 gs]; [done|]. by injection H as <-.
  - apply IH.
Qed.

Lemma blocksOf_last start gs b :
  last (blocksOf start gs) = Some b ->
  HostBlock.EndLine b = start + length (flatten gs).
Proof.
  revert start. induction gs as [|g gs IH]; intros start; [done|].
  cbn [blocksOf]. rewrite flatten_cons. cbn [length]. rewrite length_app.
  destruct gs as [|g2 gs].
  - intros [= <-]. cbn [blockOf HostBlock.EndLine flatten map concat length]. lia.
  - change (blocksOf (start + S (length (snd g))) (g2 :: gs))
      with (blockOf (start + S (length (snd g))) g2 ::
            blocksOf (start + S (length (snd g)) + S (length (snd g2))) gs).
    rewrite last_cons_cons. intros H. apply IH in H. lia.
Qed.

Lemma indicesFrom_nil i p ls : indicesFrom i p ls = [] <-> Forall (fun l => p l = false) ls.
Proof.
  revert i. induction ls as [|l ls IH]; intros i; cbn [indicesFrom].
  - split; [constructor | done].
  - destruct (p l) eqn:E.
    + split; [done|]. inversion 1; congruence.
    + rewrite IH. split; [by constructor | by inversion 1].
Qed.

(** X2: The blocks tile the file from the first host declaration to the last
    line: the lines are a preamble without host declarations followed by
    the lines of the blocks in order; the first block starts where the
    preamble ends, each block ends where the next one starts, and the last
    one ends with the file.  There is no block exactly when no line is a
    host declaration. *)
Theorem blocks_tile_the_lines lines :
  exists pre,
    lines = pre ++ concat (map HostBlock.Lines (parseLines lines)) /\
    Forall (fun l => declaresHost l = false) pre /\
    (forall b, head (parseLines lines) = Some b -> HostBlock.StartLine b = length pre) /\
    (forall i b b', parseLines lines !! i = Some b -> parseLines lines !! S i = Some b' ->
       HostBlock.EndLine b = HostBlock.StartLine b') /\
    (forall b, last (parseLines lines) = Some b -> HostBlock.EndLine b = length lines) /\
    (parseLines lines = [] <-> Forall (fun l => declaresHost l = false) lines).
Proof.
  destruct (splitsAs_exists lines) as (pre & gs & Hs). exists pre.
  pose proof (parseLines_StartLine lines) as Hstarts.
  rewrite (parseLines_splitsAs _ _ _ Hs) in *. destruct Hs as (-> & Hpre & Hgs).
  split; [by rewrite blocksOf_Lines|]. split.
  { eapply Forall_impl; [exact Hpre|]. intros l. by rewrite declaresHost_isHostLine. }
  split; [apply blocksOf_head|]. split; [apply blocksOf_adjacent|]. split.
  { intros b Hb. rewrite length_app. by apply blocksOf_last. }
  rewrite <- indicesFrom_nil with (i := 0). rewrite <- Hstarts.
  split; [by intros -> | apply map_eq_nil].
Qed.

Lemma indicesFrom_entriesFrom j body :
  map IdentityFileLine.LineIndex (entriesFrom j body) = indicesFrom j namesIdentityFile body.
Proof.
  revert j. induction body as [|l body IH]; intros j; [done|].
  cbn [entriesFrom indicesFrom]. rewrite (namesIdentityFile_entryAt j).
  destruct (entryAt j l) as [e|] eqn:E.
  - rewrite bool_decide_eq_true_2 by eauto. cbn [map].
    by rewrite (entryAt_LineIndex _ _ _ E), IH.
  - rewrite bool_decide_eq_false_2 by (by intros [? ?]). apply IH.
Qed.

(** X3: The entries of a block are those of its lines after the host line that
    match [identityFilePattern], one entry for each such line and in the
    order of the lines.  An entry records the index of its line within the
    block and the line itself, which is also the line of the file at that
    index counted from the start of the block; its path is the trimmed
    third group and it is commented exactly when the first group took a
    [#]. *)
Theorem entries_of_a_block lines i b :
  parseLines lines !! i = Some b ->
  map IdentityFileLine.LineIndex (HostBlock.IdentityFiles b) =
    indicesFrom 1 namesIdentityFile (tail (HostBlock.Lines b)) /\
  forall e, e ∈ HostBlock.IdentityFiles b ->
    1 <= IdentityFileLine.LineIndex e < length (HostBlock.Lines b) /\
    HostBlock.Lines b !! IdentityFileLine.LineIndex e = Some (IdentityFileLine.FullLine e) /\
    lines !! (HostBlock.StartLine b + IdentityFileLine.LineIndex e) =
      Some (IdentityFileLine.FullLine e) /\
    exists m,
      FindStringSubmatch identityFilePattern (IdentityFileLine.FullLine e) = Some m /\
      IdentityFileLine.Path e = TrimSpace (m 3) /\
      IdentityFileLine.IsCommented e = negb (bool_decide (m 1 = [])).
Proof.
  intros Hb. destruct (splitsAs_exists lines) as (pre & gs & Hs).
  rewrite (parseLines_splitsAs _ _ _ Hs) in Hb. destruct Hs as (-> & _ & _).
  apply blocksOf_lookup in Hb as (gs1 & [h body] & gs2 & -> & _ & ->).
  cbn [blockOf HostBlock.IdentityFiles HostBlock.Lines HostBlock.StartLine
       groupLinesOf fst snd tail length].
  split; [apply indicesFrom_entriesFrom|].
  intros e He. apply entriesFrom_lookup in He as (Hr & Hl & Hentry).
  assert (IdentityFileLine.LineIndex e = S (IdentityFileLine.LineIndex e - 1)) as Hidx by lia.
  split; [lia|]. split; [by rewrite Hidx|]. split.
  - rewrite flatten_app, flatten_cons. cbn [fst snd].
    rewrite (app_assoc pre), <- (length_app pre).
    rewrite lookup_app_r by lia.
    replace (length (pre ++ flatten gs1) + IdentityFileLine.LineIndex e -
             length (pre ++ flatten gs1))
      with (S (IdentityFileLine.LineIndex e - 1)) by lia.
    cbn [lookup list_lookup]. by apply lookup_app_l_Some.
  - apply entryAt_Some in Hentry as (m & Hm & He). exists m. split; [done|].
    rewrite He at 1 2. done.
Qed.

(** The block of the third scenario. *)
Lemma entries_of_a_block_one :
  map IdentityFileLine.LineIndex (HostBlock.IdentityFiles oneBlock) =
    indicesFrom 1 namesIdentityFile (tail (HostBlock.Lines oneBlock)) /\
  forall e, e ∈ HostBlock.IdentityFiles oneBlock ->
    1 <= IdentityFileLine.LineIndex e < length (HostBlock.Lines oneBlock) /\
    HostBlock.Lines oneBlock !! IdentityFileLine.LineIndex e =
      Some (IdentityFileLine.FullLine e) /\
    oneLines !! (HostBlock.StartLine oneBlock + IdentityFileLine.LineIndex e) =
      Some (IdentityFileLine.FullLine e) /\
    exists m,
      FindStringSubmatch identityFilePattern (IdentityFileLine.FullLine e) = Some m /\
      IdentityFileLine.Path e = TrimSpace (m 3) /\
      IdentityFileLine.IsCommented e = negb (bool_decide (m 1 = [])).
Proof. apply (entries_of_a_block oneLines 0 oneBlock). vm_compute. reflexivity. Defined.

(** ** The two patterns *)

Lemma matchFold_keywords c t :
  matchFold (bs "Host") (c :: t) = None \/
  (Ascii.eqb c "#" = false /\ matchFold (bs "IdentityFile") (c :: t) = None).
Proof.
  destruct c as [[] [] [] [] [] [] [] []];
    first [left; reflexivity | right; split; reflexivity].
Qed.

Lemma fmap_None_inv {A B} (f : A -> B) (x : option A) : f <$> x = None -> x = None.
Proof. by destruct x. Qed.

(** X4: No line is a host declaration and an identity-file line at once, and a
    line whose first byte after the leading white space is [#] is no host
    declaration: a host declaration that is commented out starts no
    block. *)
Theorem patterns_exclusive line ws t :
  (FindStringSubmatch hostPattern line = None \/
   FindStringSubmatch identityFilePattern line = None) /\
  FindStringSubmatch hostPattern (takeWhile reSpace ws ++ "#"%char :: t) = None.
Proof.
  split.
  - assert (hostMatch line = None \/ identityFileMatch line = None) as [H|H].
    { unfold hostMatch, identityFileMatch.
      destruct (dropWhile reSpace line) as [|c t0]; [by left|].
      destruct (matchFold_keywords c t0) as [->|[-> ->]]; [by left | by right]. }
    + left. apply (fmap_None_inv (fun m => m 1)). by rewrite hostPattern_closed.
    + right. apply (fmap_None_inv (fun m => (m 1, m 3))).
      by rewrite identityFilePattern_closed.
  - apply (fmap_None_inv (fun m => m 1)). rewrite hostPattern_closed.
    unfold hostMatch. rewrite dropWhile_app by apply takeWhile_Forall. reflexivity.
Qed.

Lemma hostMatch_notLF line m1 : hostMatch line = Some m1 -> forallb notLF m1 = true.
Proof.
  unfold hostMatch. destruct (matchFold _ _) as [rest|]; [|done]. apply lazyCapture_notLF.
Qed.

(** X5: A block's host name and the paths of its entries are trimmed text
    without a newline: [TrimSpace] leaves them as they are. *)
Theorem names_and_paths_are_trimmed lines :
  Forall (fun b =>
            forallb notLF (HostBlock.Hostname b) = true /\
            TrimSpace (HostBlock.Hostname b) = HostBlock.Hostname b /\
            Forall (fun e =>
                      forallb notLF (IdentityFileLine.Path e) = true /\
                      TrimSpace (IdentityFileLine.Path e) = IdentityFileLine.Path e)
              (HostBlock.IdentityFiles b))
    (parseLines lines).
Proof.
  destruct (splitsAs_exists lines) as (pre & gs & Hs).
  rewrite (parseLines_splitsAs _ _ _ Hs). destruct Hs as (_ & _ & Hgs).
  generalize (length pre). induction Hgs as [|[h body] gs [Hh _] _ IH]; intros start;
    [constructor|].
  cbn [blocksOf]. constructor; [|apply IH].
  cbn [blockOf HostBlock.Hostname HostBlock.IdentityFiles fst snd] in *.
  unfold hostnameOf. unfold isHostLine in Hh.
  destruct (hostMatch h) as [m1|] eqn:E; [|done].
  split; [by apply TrimSpace_notLF, (hostMatch_notLF h)|].
  split; [apply TrimSpace_idemp|].
  apply Forall_forall. intros e He. apply entriesFrom_lookup in He as (_ & _ & He).
  unfold entryAt in He.
  destruct (identityFileMatch (IdentityFileLine.FullLine e)) as [[g1 g3]|] eqn:E3; [|done].
  injection He as <-.
  cbn [IdentityFileLine.Path].
  split; [by apply TrimSpace_notLF, (identityFilePattern_notLF _ _ _ E3) | apply TrimSpace_idemp].
Qed.

(** ** Rewriting twice *)

Lemma leadingIndent_kwActive ind x :
  Forall (fun c => isBlank c = true) ind -> leadingIndent (ind ++ kwActive ++ x) = ind.
Proof.
  intros H. unfold leadingIndent. rewrite takeWhile_app by done.
  change (kwActive ++ x) with ("I"%char :: bs "dentityFile " ++ x).
  rewrite takeWhile_stop by done. apply app_nil_r.
Qed.

Lemma leadingIndent_kwCommented ind x :
  Forall (fun c => isBlank c = true) ind -> leadingIndent (ind ++ kwCommented ++ x) = ind.
Proof.
  intros H. unfold leadingIndent. rewrite takeWhile_app by done.
  change (kwCommented ++ x) with ("#"%char :: bs " IdentityFile " ++ x).
  rewrite takeWhile_stop by done. apply app_nil_r.
Qed.

(** The written forms of a line, matched again. *)
Lemma identityFileMatch_written_active ind m3 :
  Forall (fun c => isBlank c = true) ind -> forallb notLF m3 = true ->
  identityFileMatch (ind ++ kwActive ++ TrimSpace m3) =
  if bool_decide (TrimSpace m3 = []) then None else Some ([], TrimSpace m3).
Proof.
  intros Hind Hm3. destruct (TrimSpace_plain m3 Hm3) as [Hp|Hp].
  - rewrite Hp. by rewrite identityFilePattern_active_empty.
  - rewrite identityFilePattern_active by done.
    destruct Hp as (Hne & _). by rewrite bool_decide_eq_false_2.
Qed.

Lemma identityFileMatch_written_commented ind m3 :
  Forall (fun c => isBlank c = true) ind -> forallb notLF m3 = true ->
  identityFileMatch (ind ++ kwCommented ++ TrimSpace m3) =
  if bool_decide (TrimSpace m3 = []) then None else Some (bs "# ", TrimSpace m3).
Proof.
  intros Hind Hm3. destruct (TrimSpace_plain m3 Hm3) as [Hp|Hp].
  - rewrite Hp. by rewrite identityFilePattern_commented_empty.
  - rewrite identityFilePattern_commented by done.
    destruct Hp as (Hne & _). by rewrite bool_decide_eq_false_2.
Qed.

Section Twice.

Variable home : option str.

Lemma uncommentIdentityFile_twice line :
  uncommentIdentityFile (uncommentIdentityFile line) = uncommentIdentityFile line.
Proof.
  rewrite !uncommentIdentityFile_closed.
  destruct (identityFileMatch line) as [[m1 m3]|] eqn:E; [|by rewrite E].
  change (bs "IdentityFile ") with kwActive.
  pose proof (leadingIndent_blank line) as Hind.
  rewrite identityFileMatch_written_active
    by (done || by apply (identityFilePattern_notLF _ _ _ E)).
  destruct (bool_decide (TrimSpace m3 = [])); [done|].
  by rewrite leadingIndent_kwActive, TrimSpace_idemp.
Qed.

Lemma commentIdentityFile_twice line :
  commentIdentityFile (commentIdentityFile line) = commentIdentityFile line.
Proof.
  rewrite !commentIdentityFile_closed.
  destruct (identityFileMatch line) as [[m1 m3]|] eqn:E; [|by rewrite E].
  destruct (negb (bool_decide (m1 = []))) eqn:E1; [by rewrite E, E1|].
  change (bs "# IdentityFile ") with kwCommented.
  pose proof (leadingIndent_blank line) as Hind.
  rewrite identityFileMatch_written_commented
    by (done || by apply (identityFilePattern_notLF _ _ _ E)).
  by destruct (bool_decide (TrimSpace m3 = [])).
Qed.

Lemma uncommentIdentityFile_commented line :
  commentIdentityFile (uncommentIdentityFile line) =
  match FindStringSubmatch identityFilePattern line with
  | Some m =>
      if bool_decide (TrimSpace (m 3) = []) then uncommentIdentityFile line
      else leadingIndent line ++ bs "# IdentityFile " ++ TrimSpace (m 3)
  | None => line
  end.
Proof.
  pose proof (identityFilePattern_closed line) as E'. symmetry in E'.
  rewrite commentIdentityFile_closed, !uncommentIdentityFile_closed.
  destruct (FindStringSubmatch identityFilePattern line) as [m|];
    cbn [fmap option_fmap option_map] in E'; rewrite E'; [|by rewrite E'].
  change (bs "IdentityFile ") with kwActive.
  pose proof (leadingIndent_blank line) as Hind.
  rewrite identityFileMatch_written_active
    by (done || by apply (identityFilePattern_notLF _ _ _ E')).
  destruct (bool_decide (TrimSpace (m 3) = [])); [done|].
  cbn [negb bool_decide]. rewrite bool_decide_eq_true_2 by done. cbn [negb].
  by rewrite leadingIndent_kwActive, TrimSpace_idemp.
Qed.

Lemma activateLine_twice nkp line :
  activateLine home nkp (activateLine home nkp line) = activateLine home nkp line.
Proof.
  unfold activateLine at 2 3.
  destruct (identityFileMatch line) as [[m1 m3]|] eqn:E.
  2:{ unfold activateLine. by rewrite E. }
  pose proof (leadingIndent_blank line) as Hind.
  pose proof (identityFilePattern_notLF _ _ _ E) as Hm3.
  destruct (bool_decide (normalizePath home (TrimSpace m3) = nkp)) eqn:Esame.
  - rewrite uncommentIdentityFile_closed, E. change (bs "IdentityFile ") with kwActive.
    unfold activateLine. rewrite identityFileMatch_written_active by done.
    destruct (bool_decide (TrimSpace m3 = [])); [done|].
    rewrite TrimSpace_idemp, Esame.
    rewrite uncommentIdentityFile_closed, identityFileMatch_written_active by done.
    destruct (bool_decide (TrimSpace m3 = [])); [done|].
    change (bs "IdentityFile ") with kwActive.
    by rewrite leadingIndent_kwActive, TrimSpace_idemp.
  - rewrite commentIdentityFile_closed, E.
    destruct (negb (bool_decide (m1 = []))) eqn:E1.
    + unfold activateLine. rewrite E, Esame.
      by rewrite commentIdentityFile_closed, E, E1.
    + change (bs "# IdentityFile ") with kwCommented.
      unfold activateLine. rewrite identityFileMatch_written_commented by done.
      destruct (bool_decide (TrimSpace m3 = [])); [done|].
      rewrite TrimSpace_idemp, Esame.
      rewrite commentIdentityFile_closed, identityFileMatch_written_commented by done.
      destruct (bool_decide (TrimSpace m3 = [])); done.
Qed.

End Twice.

(** X6: Uncommenting a line twice is uncommenting it once, and so for
    commenting, whatever the line.  Commenting an uncommented line gives the
    commented form with the same indentation and path, unless the path of
    the line is empty: the line is then written without a path and is no
    identity-file line any more. *)
Theorem rewrites_are_idempotent line :
  uncommentIdentityFile (uncommentIdentityFile line) = uncommentIdentityFile line /\
  commentIdentityFile (commentIdentityFile line) = commentIdentityFile line /\
  commentIdentityFile (uncommentIdentityFile line) =
    match FindStringSubmatch identityFilePattern line with
    | Some m =>
        if bool_decide (TrimSpace (m 3) = []) then uncommentIdentityFile line
        else leadingIndent line ++ bs "# IdentityFile " ++ TrimSpace (m 3)
    | None => line
    end.
Proof.
  split; [apply uncommentIdentityFile_twice|].
  split; [apply commentIdentityFile_twice | apply uncommentIdentityFile_commented].
Qed.

(** ** Written lines, read back *)

Lemma blank_isBlank indent :
  Forall (fun c => c = SP \/ c = TAB) indent -> Forall (fun c => isBlank c = true) indent.
Proof. intros H. eapply Forall_impl; [exact H|]. by intros c [->| ->]. Qed.

(** X7: The line [AddIdentityFile] writes for a plain [keyPath], with an
    indentation of spaces and tabs, reads back as an identity-file line with
    [keyPath] for its path, commented exactly when it was written with the
    [#]; it is no host declaration; and written with the empty path it is
    no identity-file line. *)
Theorem written_lines_read_back indent keyPath active :
  Forall (fun c => c = SP \/ c = TAB) indent ->
  plain keyPath ->
  (fun m => (m 1, TrimSpace (m 3))) <$>
    FindStringSubmatch identityFilePattern (newIdentityLine indent keyPath active) =
    Some (if active then [] else bs "# ", keyPath) /\
  FindStringSubmatch hostPattern (newIdentityLine indent keyPath active) = None /\
  FindStringSubmatch identityFilePattern (newIdentityLine indent [] active) = None.
Proof.
  intros Hind%blank_isBlank Hp. split; [|split].
  - pose proof (identityFilePattern_closed (newIdentityLine indent keyPath active)) as Hcl.
    assert (identityFileMatch (newIdentityLine indent keyPath active) =
            Some (if active then [] else bs "# ", keyPath)) as Hm.
    { unfold newIdentityLine. destruct active.
      - change (bs "IdentityFile ") with kwActive. by apply identityFilePattern_active.
      - change (bs "# IdentityFile ") with kwCommented. by apply identityFilePattern_commented. }
    rewrite Hm in Hcl.
    destruct (FindStringSubmatch identityFilePattern _) as [m|]; [|done].
    cbn [fmap option_fmap option_map] in *. injection Hcl as -> ->.
    destruct Hp as (_ & _ & ->). done.
  - apply (fmap_None_inv (fun m => m 1)). rewrite hostPattern_closed.
    pose proof (newIdentityLine_noHost indent keyPath active Hind) as H.
    unfold isHostLine in H. by destruct (hostMatch _).
  - apply (fmap_None_inv (fun m => (m 1, m 3))). rewrite identityFilePattern_closed.
    unfold newIdentityLine. destruct active.
    + change (bs "IdentityFile ") with kwActive. by apply identityFilePattern_active_empty.
    + change (bs "# IdentityFile ") with kwCommented.
      by apply identityFilePattern_commented_empty.
Qed.

Lemma written_lines_read_back_demo :
  (fun m => (m 1, TrimSpace (m 3))) <$>
    FindStringSubmatch identityFilePattern
      (newIdentityLine (bs "    ") (bs "~/.ssh/id_new") false) =
    Some (if false then [] else bs "# ", bs "~/.ssh/id_new") /\
  FindStringSubmatch hostPattern (newIdentityLine (bs "    ") (bs "~/.ssh/id_new") false) = None /\
  FindStringSubmatch identityFilePattern (newIdentityLine (bs "    ") [] false) = None.
Proof.
  apply (written_lines_read_back (bs "    ") (bs "~/.ssh/id_new") false).
  - repeat constructor; by left.
  - split; [discriminate|]. split; reflexivity.
Defined.

(** ** [ActivateKey] twice *)

Section Again.

Variable home : option str.

Lemma ActivateKey_on_split c hostname keyPath pre gs1 h body gs2 :
  ConfigFile.Lines c = pre ++ flatten (gs1 ++ (h, body) :: gs2) ->
  FindHostBlock c hostname = Some (blockOf (length pre + length (flatten gs1)) (h, body)) ->
  existsb (samePath home (normalizePath home keyPath)) (entriesFrom 1 body) = true ->
  ActivateKey home c hostname keyPath =
  Some (parseBlocks
          (ConfigFile.mk (ConfigFile.Path c)
             (pre ++ flatten (gs1 ++
                (h, map (activateLine home (normalizePath home keyPath)) body) :: gs2))
             (ConfigFile.Blocks c)), None).
Proof.
  intros Hlines Hf Hfound. unfold ActivateKey. rewrite Hf.
  cbn [blockOf HostBlock.StartLine HostBlock.IdentityFiles snd fst].
  rewrite Hfound. cbn [negb]. rewrite Hlines, flatten_app, flatten_cons. cbn [fst snd].
  assert (pre ++ flatten gs1 ++ h :: body ++ flatten gs2 =
          (pre ++ flatten gs1 ++ [h]) ++ body ++ flatten gs2) as ->
    by by rewrite <- !app_assoc.
  rewrite activateLoop_body by (rewrite !length_app; simpl; lia).
  do 3 f_equal. rewrite flatten_app, flatten_cons. cbn [fst snd]. by rewrite <- !app_assoc.
Qed.

Lemma existsb_activateLine nkp j body :
  Exists (fun e => normalizePath home (IdentityFileLine.Path e) = nkp /\
                   IdentityFileLine.Path e <> []) (entriesFrom j body) ->
  existsb (samePath home nkp) (entriesFrom j (map (activateLine home nkp) body)) = true.
Proof.
  revert j. induction body as [|l body IH]; intros j; cbn [map entriesFrom].
  - by intros ?%Exists_nil.
  - rewrite entryAt_activateLine. destruct (entryAt j l) as [e|]; [|apply IH].
    intros [[Hsame Hne]|Hrest]%Exists_cons.
    + assert (samePath home nkp e = true) as ->
        by (unfold samePath; by rewrite bool_decide_eq_true_2).
      rewrite (bool_decide_eq_false_2 _ Hne). cbn [existsb].
      unfold samePath at 1. cbn [IdentityFileLine.Path].
      by rewrite bool_decide_eq_true_2.
    + specialize (IH _ Hrest).
      repeat (match goal with |- context [if ?x then _ else _] => destruct x end);
        cbn [existsb]; rewrite ?IH, ?orb_true_r; done.
Qed.

End Again.

(** X8: [ActivateKey] is idempotent on the configuration: after a successful
    call on a parsed configuration, a second call with the same arguments
    returns the configuration the first one returned.  The second call
    succeeds as well when an entry that matched [keyPath] has a path that is
    not empty; when every matching entry has the empty path, those entries
    are gone after the first call, and the second call may report that the
    key is not found. *)
Theorem ActivateKey_idempotent home c hostname keyPath c1 :
  consistent c ->
  ActivateKey home c hostname keyPath = Some (c1, None) ->
  (exists oe, ActivateKey home c1 hostname keyPath = Some (c1, oe)) /\
  (forall b, FindHostBlock c hostname = Some b ->
     Exists (fun e => normalizePath home (IdentityFileLine.Path e) = normalizePath home keyPath /\
                      IdentityFileLine.Path e <> []) (HostBlock.IdentityFiles b) ->
     ActivateKey home c1 hostname keyPath = Some (c1, None)).
Proof.
  intros Hc Hact.
  destruct (ActivateKey_success_inv home c hostname keyPath c1 Hact) as (b & Hf & Hfound).
  destruct (ActivateKey_shape home c hostname keyPath b Hc Hf Hfound)
    as (pre & gs1 & [h body] & gs2 & Hs & Hb & Hh & Hn & Hg' & Heq).
  cbn [fst snd] in *. rewrite Heq in Hact. injection Hact as <-.
  set (nkp := normalizePath home keyPath) in *.
  set (body' := map (activateLine home nkp) body) in *.
  set (c1 := ConfigFile.mk (ConfigFile.Path c) (pre ++ flatten (gs1 ++ (h, body') :: gs2))
               (blocksOf (length pre) (gs1 ++ (h, body') :: gs2))).
  assert (FindHostBlock c1 hostname =
          Some (blockOf (length pre + length (flatten gs1)) (h, body'))) as Hf1.
  { unfold FindHostBlock. cbn [c1 ConfigFile.Blocks]. by apply findBlock_blocksOf_middle. }
  assert (existsb (samePath home nkp) (entriesFrom 1 body') = true ->
          ActivateKey home c1 hostname keyPath = Some (c1, None)) as Hagain.
  { intros Hfound1.
    rewrite (ActivateKey_on_split home c1 hostname keyPath pre gs1 h body' gs2 eq_refl Hf1 Hfound1).
    fold nkp. unfold body' at 1. rewrite map_map.
    rewrite (map_ext _ (activateLine home nkp)) by (intros l; apply activateLine_twice).
    fold body'. unfold parseBlocks, c1. cbn [ConfigFile.Path ConfigFile.Lines].
    do 3 f_equal. apply parseLines_splitsAs.
    exact (splitsAs_replace _ _ _ _ _ _ Hs Hg'). }
  split.
  - destruct (existsb (samePath home nkp) (entriesFrom 1 body')) eqn:Hfound1.
    + exists None. by apply Hagain.
    + eexists. unfold ActivateKey. rewrite Hf1.
      cbn [blockOf HostBlock.IdentityFiles snd]. fold nkp. by rewrite Hfound1.
  - intros b0 Hb0 Hex. apply Hagain. apply existsb_activateLine.
    rewrite Hf in Hb0. injection Hb0 as <-. by rewrite Hb in Hex.
Qed.

(** The first scenario, activated a second time. *)
Lemma ActivateKey_idempotent_demo :
  (exists oe, ActivateKey demoHome demoActivated (bs "work") (bs "~/.ssh/id_personal") =
                Some (demoActivated, oe)) /\
  (forall b, FindHostBlock demoConfig (bs "work") = Some b ->
     Exists (fun e => normalizePath demoHome (IdentityFileLine.Path e) =
                        normalizePath demoHome (bs "~/.ssh/id_personal") /\
                      IdentityFileLine.Path e <> []) (HostBlock.IdentityFiles b) ->
     ActivateKey demoHome demoActivated (bs "work") (bs "~/.ssh/id_personal") =
       Some (demoActivated, None)).
Proof.
  apply (ActivateKey_idempotent demoHome demoConfig (bs "work") (bs "~/.ssh/id_personal")
           demoActivated); [reflexivity | vm_compute; reflexivity].
Defined.

(** ** The keys after [ActivateKey] *)

(** The entries whose path is not empty. *)
Definition withPath (ifls : list IdentityFileLine.t) : list IdentityFileLine.t :=
  List.filter (fun e => negb (bool_decide (IdentityFileLine.Path e = []))) ifls.

Definition place (e : IdentityFileLine.t) : nat * str :=
  (IdentityFileLine.LineIndex e, IdentityFileLine.Path e).

Section Keys.

Variable home : option str.

Lemma withPath_activateLine nkp j body :
  map place (withPath (entriesFrom j (map (activateLine home nkp) body))) =
  map place (withPath (entriesFrom j body)).
Proof.
  revert j. induction body as [|l body IH]; intros j; [done|].
  cbn [map entriesFrom]. rewrite entryAt_activateLine.
  destruct (entryAt j l) as [e|] eqn:E; [|apply IH].
  pose proof (entryAt_LineIndex _ _ _ E) as Hj.
  unfold withPath in *. cbn [List.filter].
  destruct (bool_decide (IdentityFileLine.Path e = [])) eqn:Ep; cbn [negb].
  - destruct (samePath home nkp e); [apply IH|].
    destruct (IdentityFileLine.IsCommented e); [|apply IH].
    cbn [List.filter]. rewrite Ep. apply IH.
  - destruct (samePath home nkp e), (IdentityFileLine.IsCommented e);
      cbn [List.filter IdentityFileLine.Path]; rewrite Ep; cbn [negb map];
      rewrite IH; f_equal; unfold place; cbn [IdentityFileLine.LineIndex IdentityFileLine.Path];
      by rewrite Hj.
Qed.

Lemma flags_activateLine nkp j body :
  Forall (fun e => IdentityFileLine.IsCommented e = negb (samePath home nkp e))
    (entriesFrom j (map (activateLine home nkp) body)).
Proof.
  revert j. induction body as [|l body IH]; intros j; [constructor|].
  cbn [map entriesFrom]. rewrite entryAt_activateLine.
  destruct (entryAt j l) as [e|] eqn:E; [|apply IH].
  destruct (samePath home nkp e) eqn:Es.
  - destruct (bool_decide (IdentityFileLine.Path e = [])); [apply IH|].
    constructor; [|apply IH]. unfold samePath in *.
    cbn [IdentityFileLine.IsCommented IdentityFileLine.Path]. by rewrite Es.
  - destruct (IdentityFileLine.IsCommented e) eqn:Ec.
    + constructor; [|apply IH]. by rewrite Ec, Es.
    + destruct (bool_decide (IdentityFileLine.Path e = [])); [apply IH|].
      constructor; [|apply IH]. unfold samePath in *.
      cbn [IdentityFileLine.IsCommented IdentityFileLine.Path]. by rewrite Es.
Qed.

End Keys.

(** X9: A successful [ActivateKey] on a parsed configuration loses no key:
    the entries of the block whose path is not empty are, before and after,
    at the same lines of the block with the same paths.  And afterwards an
    entry of the block is commented exactly when its normalized path is not
    that of [keyPath]. *)
Theorem ActivateKey_keeps_keys home c hostname keyPath c' :
  consistent c ->
  ActivateKey home c hostname keyPath = Some (c', None) ->
  exists b b',
    FindHostBlock c hostname = Some b /\
    FindHostBlock c' hostname = Some b' /\
    map place (withPath (HostBlock.IdentityFiles b')) =
      map place (withPath (HostBlock.IdentityFiles b)) /\
    Forall (fun e =>
              IdentityFileLine.IsCommented e =
              negb (bool_decide (normalizePath home (IdentityFileLine.Path e) =
                                 normalizePath home keyPath)))
      (HostBlock.IdentityFiles b').
Proof.
  intros Hc Hact.
  destruct (ActivateKey_success_inv home c hostname keyPath c' Hact) as (b & Hf & Hfound).
  destruct (ActivateKey_shape home c hostname keyPath b Hc Hf Hfound)
    as (pre & gs1 & [h body] & gs2 & Hs & Hb & Hh & Hn & Hg' & Heq).
  cbn [fst snd] in *. rewrite Heq in Hact. injection Hact as <-.
  eexists b, _. split; [done|]. split.
  { unfold FindHostBlock. cbn [ConfigFile.Blocks]. by apply findBlock_blocksOf_middle. }
  rewrite Hb. cbn [blockOf HostBlock.IdentityFiles snd].
  split; [apply withPath_activateLine | apply flags_activateLine].
Qed.

(** The first scenario: both keys are still there. *)
Lemma ActivateKey_keeps_keys_demo :
  exists b b',
    FindHostBlock demoConfig (bs "work") = Some b /\
    FindHostBlock demoActivated (bs "work") = Some b' /\
    map place (withPath (HostBlock.IdentityFiles b')) =
      map place (withPath (HostBlock.IdentityFiles b)) /\
    Forall (fun e =>
              IdentityFileLine.IsCommented e =
              negb (bool_decide (normalizePath demoHome (IdentityFileLine.Path e) =
                                 normalizePath demoHome (bs "~/.ssh/id_personal"))))
      (HostBlock.IdentityFiles b').
Proof.
  apply (ActivateKey_keeps_keys demoHome demoConfig (bs "work") (bs "~/.ssh/id_personal")
           demoActivated); [reflexivity | vm_compute; reflexivity].
Defined.

(** ** The errors of [AddIdentityFile] *)

(** X10: On a parsed configuration [AddIdentityFile] always returns: the block
    it finds has a host line for [detectIndent] to skip, and the insertion
    point is within the lines.  Its only error is the no-such-block error,
    returned exactly when no block's pattern equals [hostname], with the
    configuration as it was given; a key that is present already is no
    error. *)
Theorem AddIdentityFile_NotFound home c hostname keyPath active :
  consistent c ->
  (exists c' oe, AddIdentityFile home c hostname keyPath active = Some (c', oe)) /\
  (AddIdentityFile home c hostname keyPath active = Some (c, Some (ErrNoHostBlock hostname)) <->
   Forall (fun b => HostBlock.Hostname b <> hostname) (ConfigFile.Blocks c)) /\
  (forall c' e, AddIdentityFile home c hostname keyPath active = Some (c', Some e) ->
     c' = c /\ e = ErrNoHostBlock hostname).
Proof.
  intros Hc. split; [by apply AddIdentityFile_returns|]. split.
  - rewrite <- findBlock_None. fold (FindHostBlock c hostname).
    unfold AddIdentityFile. destruct (FindHostBlock c hostname) as [b|]; [|done].
    split; [|done]. destruct (existsb _ _); [done|].
    destruct (detectIndent _); [|done]. by destruct (decide _).
  - intros c' e. unfold AddIdentityFile. destruct (FindHostBlock c hostname) as [b|].
    + destruct (existsb _ _); [done|].
      destruct (detectIndent _); [|done]. by destruct (decide _).
    + by intros [= <- <-].
Qed.

(** The second scenario, for [AddIdentityFile]. *)
Lemma AddIdentityFile_NotFound_ghost :
  AddIdentityFile demoHome demoConfig (bs "ghost") (bs "~/.ssh/id_work") true =
  Some (demoConfig, Some (ErrNoHostBlock (bs "ghost"))).
Proof.
  apply (AddIdentityFile_NotFound demoHome demoConfig (bs "ghost") (bs "~/.ssh/id_work") true);
    [reflexivity|].
  vm_compute. repeat constructor; discriminate.
Defined.

(** ** [detectIndent] *)

Lemma takeWhile_nonempty {A} (p : A -> bool) l : dropWhile p l <> l -> takeWhile p l <> [].
Proof.
  destruct l as [|x t]; [done|]. cbn [dropWhile takeWhile]. by destruct (p x).
Qed.

(** X11: [detectIndent] fails on the empty slice only.  What it returns is never
    empty and consists of spaces and tabs: a line [AddIdentityFile] inserts
    is always indented. *)
Theorem detectIndent_indents lines :
  match detectIndent lines with
  | None => lines = []
  | Some indent =>
      lines <> [] /\ indent <> [] /\ Forall (fun c => c = SP \/ c = TAB) indent /\
      forall keyPath active,
        leadingIndent (newIdentityLine indent keyPath active) = indent
  end.
Proof.
  destruct lines as [|h body]; [done|]. cbn [detectIndent].
  pose proof (detectIndentLoop_blank body) as Hblank.
  split; [done|]. split; [|split].
  - induction body as [|l body IH]; [done|]. cbn [detectIndentLoop] in *.
    destruct (bool_decide (TrimLeftBlank l = [])) eqn:E1; [by apply IH|].
    destruct (bool_decide (TrimLeftBlank l = l)) eqn:E2; [by apply IH|]. cbn [negb andb].
    apply bool_decide_eq_false in E2. unfold TrimLeftBlank in *.
    rewrite take_length_dropWhile. by apply takeWhile_nonempty.
  - eapply Forall_impl; [exact Hblank|]. intros c Hc. apply oneOf_true in Hc.
    apply elem_of_cons in Hc as [->|Hc]; [by left|].
    apply elem_of_cons in Hc as [->|Hc]; [by right|]. by apply elem_of_nil in Hc.
  - intros keyPath active. unfold newIdentityLine. destruct active.
    + by apply leadingIndent_kwActive.
    + by apply leadingIndent_kwCommented.
Qed.

(** ** The entries after [AddIdentityFile] *)

Lemma entriesFrom_nil_shift j j' body : entriesFrom j body = [] -> entriesFrom j' body = [].
Proof.
  revert j j'. induction body as [|l body IH]; intros j j'; [done|].
  cbn [entriesFrom]. unfold entryAt.
  destruct (identityFileMatch l) as [[m1 m3]|]; [done|]. apply IH.
Qed.

(** No line after the last identity-file line is an identity-file line. *)
Lemma entriesFrom_drop_lastIndex j body :
  entriesFrom j (drop (lastIndex (entriesFrom 1 body)) body) = [].
Proof.
  set (k := lastIndex (entriesFrom 1 body)).
  pose proof (lastIndex_bound body) as Hk. fold k in Hk.
  apply (entriesFrom_nil_shift (1 + k)).
  destruct (entriesFrom (1 + k) (drop k body)) as [|e rest] eqn:E; [done|]. exfalso.
  assert (e ∈ entriesFrom (1 + k) (drop k body)) as He by (rewrite E; left).
  assert (e ∈ entriesFrom 1 body) as He'.
  { rewrite <- (take_drop k body), entriesFrom_app, length_take, Nat.min_l by lia.
    apply elem_of_app. by right. }
  apply entriesFrom_lookup in He as ([Hge _] & _).
  unfold k, lastIndex in Hge.
  destruct (last (entriesFrom 1 body)) as [lastIF|] eqn:El.
  - pose proof (entriesFrom_last _ _ _ El e He'). lia.
  - apply last_None in El. rewrite El in He'. by apply elem_of_nil in He'.
Qed.

Lemma entriesFrom_take_lastIndex body :
  entriesFrom 1 (take (lastIndex (entriesFrom 1 body)) body) = entriesFrom 1 body.
Proof.
  set (k := lastIndex (entriesFrom 1 body)).
  rewrite <- (take_drop k body) at 2. rewrite entriesFrom_app.
  unfold k. by rewrite entriesFrom_drop_lastIndex, app_nil_r.
Qed.

(** The entries of the block with the new line in place. *)
Lemma entriesFrom_inserted body newLine :
  let k := lastIndex (entriesFrom 1 body) in
  entriesFrom 1 (take k body ++ newLine :: drop k body) =
  entriesFrom 1 body ++ option_list (entryAt (S k) newLine).
Proof.
  intros k. pose proof (lastIndex_bound body) as Hk. fold k in Hk.
  rewrite entriesFrom_app, length_take, Nat.min_l by lia.
  unfold k at 1. rewrite entriesFrom_take_lastIndex. f_equal.
  cbn [entriesFrom]. change (1 + k) with (S k).
  assert (entriesFrom (S (S k)) (drop k body) = []) as ->
    by apply entriesFrom_drop_lastIndex.
  by destruct (entryAt (S k) newLine).
Qed.

Lemma entryAt_newIdentityLine_flag j indent keyPath active e :
  Forall (fun c => isBlank c = true) indent ->
  entryAt j (newIdentityLine indent keyPath active) = Some e ->
  IdentityFileLine.IsCommented e = negb active /\
  IdentityFileLine.FullLine e = newIdentityLine indent keyPath active.
Proof.
  intros Hind. unfold entryAt, newIdentityLine. destruct active.
  - change (bs "IdentityFile ") with kwActive.
    rewrite identityFilePattern_active_eq by done.
    destruct (lazyCapture _); [|done]. by intros [= <-].
  - change (bs "# IdentityFile ") with kwCommented.
    rewrite identityFilePattern_commented_eq by done.
    destruct (lazyCapture _); [|done]. by intros [= <-].
Qed.

Lemma firstActive_app_active l rest :
  Exists (fun e => IdentityFileLine.IsCommented e = false) l ->
  firstActive (l ++ rest) = firstActive l.
Proof.
  induction l as [|e l IH]; [by intros ?%Exists_nil|].
  cbn [app firstActive]. destruct (IdentityFileLine.IsCommented e) eqn:E; [|done].
  cbn [negb]. intros [?|?]%Exists_cons; [congruence | by apply IH].
Qed.

Lemma firstActive_app_commented l rest :
  Forall (fun e => IdentityFileLine.IsCommented e = true) l ->
  firstActive (l ++ rest) = firstActive rest.
Proof.
  induction 1 as [|e l He _ IH]; [done|]. cbn [app firstActive]. by rewrite He.
Qed.

(** X12: When [AddIdentityFile] inserts a line, the entries the block had are
    kept as they were (index, path, commented flag, line) and at most one
    entry follows them, that of the new line: commented exactly when
    [active] is false, and with [keyPath] for its path when [keyPath] is
    plain.  No entry is commented out: when the block had an active entry,
    [GetActiveIdentityFile] returns what it returned before, also for
    [active] true; when it had none and [keyPath] is plain, it returns
    [keyPath] for [active] true and the empty string otherwise. *)
Theorem AddIdentityFile_keeps_entries home c hostname keyPath active b :
  consistent c ->
  FindHostBlock c hostname = Some b ->
  Forall (fun e => normalizePath home (IdentityFileLine.Path e) <> normalizePath home keyPath)
    (HostBlock.IdentityFiles b) ->
  exists c' b' rest,
    AddIdentityFile home c hostname keyPath active = Some (c', None) /\
    FindHostBlock c' hostname = Some b' /\
    HostBlock.IdentityFiles b' = HostBlock.IdentityFiles b ++ rest /\
    length rest <= 1 /\
    Forall (fun e => IdentityFileLine.IsCommented e = negb active) rest /\
    (plain keyPath -> map IdentityFileLine.Path rest = [keyPath]) /\
    (Exists (fun e => IdentityFileLine.IsCommented e = false) (HostBlock.IdentityFiles b) ->
     GetActiveIdentityFile c' hostname = GetActiveIdentityFile c hostname) /\
    (Forall (fun e => IdentityFileLine.IsCommented e = true) (HostBlock.IdentityFiles b) ->
     plain keyPath ->
     GetActiveIdentityFile c' hostname = if active then keyPath else []).
Proof.
  intros Hc Hf Hnone. apply existsb_samePath_false in Hnone.
  destruct (AddIdentityFile_shape home c hostname keyPath active b Hc Hf Hnone)
    as (pre & gs1 & [h body] & gs2 & Hs & Hb & Hh & Hn & Hg' & _ & _ & Heq).
  cbn [fst snd] in *.
  set (k := lastIndex (entriesFrom 1 body)) in *.
  set (newLine := newIdentityLine (detectIndentLoop body) keyPath active) in *.
  set (g' := (h, take k body ++ newLine :: drop k body)) in *.
  eexists _, (blockOf (length pre + length (flatten gs1)) g'),
    (option_list (entryAt (S k) newLine)).
  split; [exact Heq|].
  assert (FindHostBlock
            (ConfigFile.mk (ConfigFile.Path c) (pre ++ flatten (gs1 ++ g' :: gs2))
               (blocksOf (length pre) (gs1 ++ g' :: gs2))) hostname =
          Some (blockOf (length pre + length (flatten gs1)) g')) as Hf'.
  { unfold FindHostBlock. cbn [ConfigFile.Blocks]. by apply findBlock_blocksOf_middle. }
  split; [exact Hf'|].
  assert (HostBlock.IdentityFiles (blockOf (length pre + length (flatten gs1)) g') =
          HostBlock.IdentityFiles b ++ option_list (entryAt (S k) newLine)) as Hifs.
  { rewrite Hb. cbn [blockOf HostBlock.IdentityFiles snd g'].
    apply entriesFrom_inserted. }
  split; [exact Hifs|].
  pose proof (detectIndentLoop_blank body) as Hind.
  assert (plain keyPath ->
          entryAt (S k) newLine =
          Some (IdentityFileLine.mk (S k) keyPath (negb active) newLine)) as Hplain
    by (intros Hp; by apply entryAt_newIdentityLine).
  split; [|split; [|split; [|split]]].
  - destruct (entryAt (S k) newLine); cbn; lia.
  - destruct (entryAt (S k) newLine) as [e|] eqn:E; [|constructor].
    constructor; [|constructor].
    by destruct (entryAt_newIdentityLine_flag _ _ _ _ _ Hind E).
  - intros Hp. by rewrite (Hplain Hp).
  - intros Hex. unfold GetActiveIdentityFile. rewrite Hf', Hf, Hifs.
    by apply firstActive_app_active.
  - intros Hall Hp. unfold GetActiveIdentityFile. rewrite Hf', Hifs.
    rewrite firstActive_app_commented by done. rewrite (Hplain Hp).
    cbn [option_list firstActive IdentityFileLine.IsCommented IdentityFileLine.Path].
    by destruct active.
Qed.

(** The third scenario: the block keeps its active entry. *)
Lemma AddIdentityFile_keeps_entries_one :
  exists c' b' rest,
    AddIdentityFile demoHome oneConfig (bs "work") (bs "~/.ssh/id_new") true = Some (c', None) /\
    FindHostBlock c' (bs "work") = Some b' /\
    HostBlock.IdentityFiles b' = HostBlock.IdentityFiles oneBlock ++ rest /\
    length rest <= 1 /\
    Forall (fun e => IdentityFileLine.IsCommented e = negb true) rest /\
    (plain (bs "~/.ssh/id_new") -> map IdentityFileLine.Path rest = [bs "~/.ssh/id_new"]) /\
    (Exists (fun e => IdentityFileLine.IsCommented e = false)
       (HostBlock.IdentityFiles oneBlock) ->
     GetActiveIdentityFile c' (bs "work") = GetActiveIdentityFile oneConfig (bs "work")) /\
    (Forall (fun e => IdentityFileLine.IsCommented e = true)
       (HostBlock.IdentityFiles oneBlock) ->
     plain (bs "~/.ssh/id_new") ->
     GetActiveIdentityFile c' (bs "work") = if true then bs "~/.ssh/id_new" else []).
Proof.
  apply (AddIdentityFile_keeps_entries demoHome oneConfig (bs "work") (bs "~/.ssh/id_new") true
           oneBlock).
  - reflexivity.
  - vm_compute. reflexivity.
  - vm_compute. repeat constructor; discriminate.
Defined.

(** ** [AddIdentityFile], then [ActivateKey] *)

Section AddThenActivate.

Variable home : option str.

(** After a successful [ActivateKey], the path [GetActiveIdentityFile]
    returns has the normal form of [keyPath]. *)
Lemma GetActiveIdentityFile_activated c hostname keyPath c' :
  consistent c ->
  ActivateKey home c hostname keyPath = Some (c', None) ->
  normalizePath home (GetActiveIdentityFile c' hostname) = normalizePath home keyPath.
Proof.
  intros Hc Hact.
  destruct (ActivateKey_success_inv home c hostname keyPath c' Hact) as (b & Hf & Hfound).
  destruct (ActivateKey_shape home c hostname keyPath b Hc Hf Hfound)
    as (pre & gs1 & [h body] & gs2 & Hs & Hb & Hh & Hn & Hg' & Heq).
  cbn [fst snd] in *. rewrite Heq in Hact. injection Hact as <-.
  set (nkp := normalizePath home keyPath) in *.
  unfold GetActiveIdentityFile, FindHostBlock. cbn [ConfigFile.Blocks].
  rewrite findBlock_blocksOf_middle by done.
  cbn [blockOf HostBlock.IdentityFiles snd].
  rewrite firstActive_activeEntries, activeEntries_activateLine.
  rewrite Hb in Hfound. cbn [blockOf HostBlock.IdentityFiles snd] in Hfound.
  apply (matching_existsb home) in Hfound.
  pose proof (matching_samePath home nkp (entriesFrom 1 body)) as Hsame.
  induction (matching home nkp (entriesFrom 1 body)) as [|e es IH]; [done|].
  cbn [map nonEmptyPaths List.filter].
  destruct (bool_decide (IdentityFileLine.Path e = [])) eqn:Ee; cbn [negb].
  - destruct es as [|e2 es].
    + cbn [map List.filter hd]. apply bool_decide_eq_true in Ee. rewrite <- Ee.
      apply Hsame. by left.
    + apply IH; [done|]. intros e0 He0. apply Hsame. by right.
  - cbn [hd]. apply Hsame. by left.
Qed.

Lemma AddIdentityFile_present c hostname keyPath active c1 :
  consistent c -> plain keyPath ->
  AddIdentityFile home c hostname keyPath active = Some (c1, None) ->
  exists b1, FindHostBlock c1 hostname = Some b1 /\
    existsb (samePath home (normalizePath home keyPath)) (HostBlock.IdentityFiles b1) = true.
Proof.
  intros Hc Hp Hadd. destruct (FindHostBlock c hostname) as [b|] eqn:Hf.
  2:{ unfold AddIdentityFile in Hadd. by rewrite Hf in Hadd. }
  destruct (existsb (samePath home (normalizePath home keyPath))
              (HostBlock.IdentityFiles b)) eqn:Hfound.
  - unfold AddIdentityFile in Hadd. rewrite Hf, Hfound in Hadd. injection Hadd as <-.
    by exists b.
  - destruct (AddIdentityFile_shape home c hostname keyPath active b Hc Hf Hfound)
      as (pre & gs1 & [h body] & gs2 & Hs & Hb & Hh & Hn & Hg' & _ & _ & Heq).
    cbn [fst snd] in *. rewrite Heq in Hadd. injection Hadd as <-.
    eexists. split.
    + unfold FindHostBlock. cbn [ConfigFile.Blocks]. by apply findBlock_blocksOf_middle.
    + cbn [blockOf HostBlock.IdentityFiles snd]. rewrite entriesFrom_inserted.
      rewrite entryAt_newIdentityLine by (done || apply detectIndentLoop_blank).
      change (option_list (Some ?x)) with [x].
      rewrite existsb_app. cbn [existsb]. unfold samePath at 2.
      cbn [IdentityFileLine.Path]. rewrite bool_decide_eq_true_2 by done.
      by rewrite orb_true_r.
Qed.

End AddThenActivate.

(** X13: A key that was added can be activated: after a successful
    [AddIdentityFile] of a plain [keyPath] on a parsed configuration,
    whether it inserted a line or found the key present, [ActivateKey] with
    the same host and [keyPath] succeeds, and [GetActiveIdentityFile] then
    returns a path with the normal form of [keyPath]. *)
Theorem AddIdentityFile_then_ActivateKey home c hostname keyPath active c1 :
  consistent c -> plain keyPath ->
  AddIdentityFile home c hostname keyPath active = Some (c1, None) ->
  exists c2,
    ActivateKey home c1 hostname keyPath = Some (c2, None) /\
    normalizePath home (GetActiveIdentityFile c2 hostname) = normalizePath home keyPath.
Proof.
  intros Hc Hp Hadd.
  pose proof (AddIdentityFile_consistent home c hostname keyPath active c1 None Hc Hadd) as Hc1.
  destruct (AddIdentityFile_present home c hostname keyPath active c1 Hc Hp Hadd)
    as (b1 & Hf1 & Hfound1).
  destruct (ActivateKey_shape home c1 hostname keyPath b1 Hc1 Hf1 Hfound1)
    as (pre & gs1 & g & gs2 & _ & _ & _ & _ & _ & Heq).
  eexists. split; [exact Heq|].
  by apply (GetActiveIdentityFile_activated home c1 hostname keyPath).
Qed.

Definition oneAddedLines : list str :=
  map bs [ "Host work"; "    IdentityFile ~/.ssh/id_work";
           "    # IdentityFile ~/.ssh/id_new"; "    User git" ].

Definition oneAdded : ConfigFile.t :=
  ConfigFile.mk configPath oneAddedLines (parseLines oneAddedLines).

(** The third scenario: the new key is added commented, then activated. *)
Lemma AddIdentityFile_then_ActivateKey_one :
  exists c2,
    ActivateKey demoHome oneAdded (bs "work") (bs "~/.ssh/id_new") = Some (c2, None) /\
    normalizePath demoHome (GetActiveIdentityFile c2 (bs "work")) =
      normalizePath demoHome (bs "~/.ssh/id_new").
Proof.
  apply (AddIdentityFile_then_ActivateKey demoHome oneConfig (bs "work") (bs "~/.ssh/id_new")
           false oneAdded).
  - reflexivity.
  - split; [discriminate|]. split; reflexivity.
  - vm_compute. reflexivity.
Defined.

(** ** The other hosts *)

(** What a block says, apart from where it is. *)
Definition blockContent (b : HostBlock.t) : str * list str * list IdentityFileLine.t :=
  (HostBlock.Hostname b, HostBlock.Lines b, HostBlock.IdentityFiles b).

Lemma findBlock_app_Some bl1 bl2 hostname b :
  findBlock bl1 hostname = Some b -> findBlock (bl1 ++ bl2) hostname = Some b.
Proof.
  induction bl1 as [|b0 bl1 IH]; cbn [app findBlock]; [done|].
  destruct (bool_decide _); [done | exact IH].
Qed.

Lemma findBlock_shiftBlock d bl hostname :
  findBlock (map (shiftBlock d) bl) hostname = shiftBlock d <$> findBlock bl hostname.
Proof.
  induction bl as [|b bl IH]; [done|]. cbn [map findBlock shiftBlock HostBlock.Hostname].
  destruct (bool_decide _); [done | exact IH].
Qed.

Lemma framed_other d c c' hostname other :
  framed d c c' hostname -> other <> hostname ->
  blockContent <$> FindHostBlock c' other = blockContent <$> FindHostBlock c other.
Proof.
  unfold framed. intros H Hother.
  destruct (FindHostBlock c hostname) as [b|] eqn:Hf; [|by subst].
  destruct H as (region' & b' & before & after & _ & _ & Hbl & Hbl' & _ & _ & Hname & _).
  apply findBlock_Some in Hf as (_ & _ & _ & Hh & _).
  unfold FindHostBlock. rewrite Hbl, Hbl'.
  destruct (findBlock before other) as [b0|] eqn:E.
  - by rewrite !(findBlock_app_Some _ _ _ _ E).
  - rewrite !findBlock_app_None by done. cbn [findBlock].
    rewrite !bool_decide_eq_false_2 by congruence.
    rewrite findBlock_shiftBlock. by destruct (findBlock after other).
Qed.

Lemma GetActiveIdentityFile_blockContent c c' other :
  blockContent <$> FindHostBlock c' other = blockContent <$> FindHostBlock c other ->
  GetActiveIdentityFile c' other = GetActiveIdentityFile c other.
Proof.
  unfold GetActiveIdentityFile.
  destruct (FindHostBlock c' other), (FindHostBlock c other); try done.
  cbn. unfold blockContent. by intros [= _ _ ->].
Qed.

Section Frames.

Variable home : option str.

Lemma ActivateKey_framed c hostname keyPath c' oe :
  consistent c -> ActivateKey home c hostname keyPath = Some (c', oe) ->
  framed 0 c c' hostname.
Proof.
  intros Hc H. destruct (FindHostBlock c hostname) as [b|] eqn:Hf.
  - destruct (existsb (samePath home (normalizePath home keyPath))
                (HostBlock.IdentityFiles b)) eqn:Hfound.
    + destruct (ActivateKey_shape home c hostname keyPath b Hc Hf Hfound)
        as (pre & gs1 & g & gs2 & Hs & Hb & _ & _ & _ & Heq).
      rewrite Heq in H. injection H as <- <-. rewrite Hb in Hf.
      apply (framed_replace 0 c pre gs1 g gs2 _ hostname Hc Hs Hf).
      rewrite length_map. lia.
    + unfold ActivateKey in H. rewrite Hf, Hfound in H. injection H as <- <-.
      by apply framed_refl.
  - unfold ActivateKey in H. rewrite Hf in H. injection H as <- <-.
    by apply framed_refl.
Qed.

Lemma AddIdentityFile_framed c hostname keyPath active c' oe :
  consistent c -> AddIdentityFile home c hostname keyPath active = Some (c', oe) ->
  exists d, framed d c c' hostname.
Proof.
  intros Hc H. destruct (FindHostBlock c hostname) as [b|] eqn:Hf.
  - destruct (existsb (samePath home (normalizePath home keyPath))
                (HostBlock.IdentityFiles b)) eqn:Hfound.
    + unfold AddIdentityFile in H. rewrite Hf, Hfound in H. injection H as <- <-.
      exists 0. by apply framed_refl.
    + destruct (AddIdentityFile_shape home c hostname keyPath active b Hc Hf Hfound)
        as (pre & gs1 & g & gs2 & Hs & Hb & _ & _ & _ & _ & _ & Heq).
      rewrite Heq in H. injection H as <- <-. rewrite Hb in Hf. exists 1.
      apply (framed_replace 1 c pre gs1 g gs2 _ hostname Hc Hs Hf).
      rewrite length_app. cbn [length]. rewrite length_take, length_drop.
      pose proof (lastIndex_bound (snd g)). lia.
  - unfold AddIdentityFile in H. rewrite Hf in H. injection H as <- <-.
    exists 0. by apply framed_refl.
Qed.

End Frames.

(** X14: Changing the keys of one host changes nothing for another: whatever
    [ActivateKey] or [AddIdentityFile] returns for [hostname] on a parsed
    configuration, the block found for any other host name has the name,
    the lines and the entries it had, and [GetActiveIdentityFile] returns
    for it what it returned before. *)
Theorem other_hosts_untouched home c hostname keyPath active other :
  consistent c -> other <> hostname ->
  (forall c' oe, ActivateKey home c hostname keyPath = Some (c', oe) ->
     blockContent <$> FindHostBlock c' other = blockContent <$> FindHostBlock c other /\
     GetActiveIdentityFile c' other = GetActiveIdentityFile c other) /\
  (forall c' oe, AddIdentityFile home c hostname keyPath active = Some (c', oe) ->
     blockContent <$> FindHostBlock c' other = blockContent <$> FindHostBlock c other /\
     GetActiveIdentityFile c' other = GetActiveIdentityFile c other).
Proof.
  intros Hc Hother. split; intros c' oe H.
  - pose proof (framed_other 0 c c' hostname other
                  (ActivateKey_framed home c hostname keyPath c' oe Hc H) Hother) as Hsame.
    split; [done | by apply GetActiveIdentityFile_blockContent].
  - destruct (AddIdentityFile_framed home c hostname keyPath active c' oe Hc H) as [d Hd].
    pose proof (framed_other d c c' hostname other Hd Hother) as Hsame.
    split; [done | by apply GetActiveIdentityFile_blockContent].
Qed.

(** Two hosts, each with its keys. *)
Definition twoHostsLines : list str :=
  map bs [ "Host work"; "    IdentityFile ~/.ssh/id_work";
           "    # IdentityFile ~/.ssh/id_personal";
           "Host home"; "    IdentityFile ~/.ssh/id_home" ].

Definition twoHosts : ConfigFile.t :=
  ConfigFile.mk configPath twoHostsLines (parseLines twoHostsLines).

Lemma other_hosts_untouched_home :
  (forall c' oe,
     ActivateKey demoHome twoHosts (bs "work") (bs "~/.ssh/id_personal") = Some (c', oe) ->
     blockContent <$> FindHostBlock c' (bs "home") =
       blockContent <$> FindHostBlock twoHosts (bs "home") /\
     GetActiveIdentityFile c' (bs "home") = GetActiveIdentityFile twoHosts (bs "home")) /\
  (forall c' oe,
     AddIdentityFile demoHome twoHosts (bs "work") (bs "~/.ssh/id_personal") true =
       Some (c', oe) ->
     blockContent <$> FindHostBlock c' (bs "home") =
       blockContent <$> FindHostBlock twoHosts (bs "home") /\
     GetActiveIdentityFile c' (bs "home") = GetActiveIdentityFile twoHosts (bs "home")).
Proof.
  apply (other_hosts_untouched demoHome twoHosts (bs "work") (bs "~/.ssh/id_personal") true
           (bs "home")); [reflexivity | discriminate].
Defined.

(** ** [Save] and the backup *)


(** ** Reading, then saving *)

Lemma concat_terminated lines :
  lines <> [] -> concat (map (fun l => l ++ [LF]) lines) = Join lines [LF] ++ [LF].
Proof.
  induction lines as [|l lines IH]; [done|]. intros _. cbn [map concat].
  destruct lines as [|l2 lines]; [by rewrite app_nil_r|].
  rewrite IH by done. rewrite (Join_cons l (l2 :: lines)) by done.
  by rewrite <- !app_assoc.
Qed.

Lemma saveContent_terminated lines :
  Forall (fun l => forallb notLF l = true) lines -> last lines <> Some [] ->
  saveContent lines = concat (map (fun l => l ++ [LF]) lines).
Proof.
  intros HnoLF Hlast.
  destruct (saveContent_cases lines) as [[-> ->]|[(Hne & Hl & ->)|(Hne & _ & ->)]]; [done| |].
  - exfalso. destruct lines as [|l0 before _] using rev_ind; [done|].
    rewrite last_snoc in Hlast.
    apply Forall_app in HnoLF as [_ Hl0]. inversion Hl0 as [|? ? Hl0' _]; subst.
    rewrite last_Join_snoc in Hl by congruence. by apply notLF_last in Hl0'.
  - by rewrite concat_terminated.
Qed.

(** X16: Reading a file and saving it writes the file back byte for byte, and
    the backup is the same file: provided every line of the file ends with
    a newline, none ends with a carriage return before it or is too long for
    the scanner, and the last line is not empty.  The save returns no
    error exactly when the path and the backup path can be written. *)
Theorem ParseConfig_Save_same_file home fs path lines :
  path <> [] ->
  Forall scannable lines ->
  last lines <> Some [] ->
  ReadFile fs path = Some (concat (map (fun l => l ++ [LF]) lines)) ->
  exists c,
    ParseConfig home fs path = inl c /\
    ConfigFile.Path c = path /\
    ConfigFile.Lines c = lines /\
    ((exists fs', Save fs c = (fs', None)) <->
       writable fs path = true /\ writable fs (path ++ bs ".bak") = true) /\
    (forall fs', Save fs c = (fs', None) ->
       ReadFile fs' path = ReadFile fs path /\
       ReadFile fs' (path ++ bs ".bak") = ReadFile fs path).
Proof.
  intros Hpath Hscan Hlast Hfs.
  assert (Forall (fun l => forallb notLF l = true) lines) as HnoLF.
  { eapply Forall_impl; [exact Hscan|]. by intros l (? & _). }
  exists (ConfigFile.mk path lines (parseLines lines)).
  assert (scanLines (concat (map (fun l => l ++ [LF]) lines)) = inl lines) as Hread.
  { destruct lines as [|l lines]; [done|].
    rewrite concat_terminated by done.
    apply scanLines_scannable; [done|]. by apply rawLines_Join. }
  pose proof (Stat_ReadFile _ _ _ Hfs) as Hstat.
  split; [|split; [done|split; [done|split]]].
  - unfold ParseConfig. rewrite bool_decide_eq_false_2 by done.
    apply ReadFile_Some in Hfs. by rewrite Hfs, Hread.
  - split.
    + intros [fs' Hs]. pose proof (Save_None _ _ _ Hs) as (_ & _ & _ & Hw & _).
      destruct (Save_None_files _ _ _ Hs) as (_ & Hb & _).
      split; [done|]. by apply Hb.
    + intros [Hw Hwb]. apply Save_succeeds; [done | done |].
      intros _. cbn [ConfigFile.Path]. by rewrite Hfs.
  - intros fs' Hs. split.
    + pose proof (Save_None_ReadFile _ _ _ Hs) as Hr.
      cbn [ConfigFile.Path ConfigFile.Lines] in Hr.
      by rewrite Hr, Hfs, saveContent_terminated.
    + destruct (Save_None_files _ _ _ Hs) as (H1 & _). rewrite Hfs. by apply H1.
Qed.

(** The file of the first scenario. *)
Definition demoFS : FS :=
  writeFile emptyFS configPath (concat (map (fun l => l ++ [LF]) demoLines)).

Lemma ParseConfig_Save_same_file_demo :
  exists c,
    ParseConfig demoHome demoFS configPath = inl c /\
    ConfigFile.Path c = configPath /\
    ConfigFile.Lines c = demoLines /\
    ((exists fs', Save demoFS c = (fs', None)) <->
       writable demoFS configPath = true /\ writable demoFS (configPath ++ bs ".bak") = true) /\
    (forall fs', Save demoFS c = (fs', None) ->
       ReadFile fs' configPath = ReadFile demoFS configPath /\
       ReadFile fs' (configPath ++ bs ".bak") = ReadFile demoFS configPath).
Proof.
  apply (ParseConfig_Save_same_file demoHome demoFS configPath demoLines).
  - discriminate.
  - repeat constructor; discriminate.
  - discriminate.
  - reflexivity.
Defined.

(** ** Line endings *)

Lemma dropCR_snoc l : dropCR (l ++ [CR]) = l.
Proof.
  unfold dropCR. rewrite last_snoc, Ascii.eqb_refl, length_app. cbn [length].
  replace (length l + 1 - 1) with (length l) by lia. apply take_app_length.
Qed.

Lemma rawLines_terminated ls :
  Forall (fun l => forallb notLF l = true) ls ->
  rawLines (concat (map (fun l => l ++ [LF]) ls)) = ls.
Proof.
  induction 1 as [|l ls Hl _ IH]; [done|]. cbn [map concat].
  rewrite <- app_assoc. cbn [app]. by rewrite rawLines_line, IH.
Qed.

(** X17: A file with CR LF line endings is read as the same lines as the file
    with LF endings, and [Save] writes LF endings: reading and saving
    converts the file, and the backup keeps the CR LF original.  The lines
    are to be without newline, not to end in a carriage return themselves,
    to fit the scanner's buffer together with their carriage return, and
    the last one is not to be empty.  The save returns no error exactly
    when the path and the backup path can be written. *)
Theorem ParseConfig_Save_line_endings home fs path lines :
  path <> [] ->
  Forall (fun l => forallb notLF l = true /\ last l <> Some CR /\
                   (Z.of_nat (length l) + 1 < MaxScanTokenSize)%Z) lines ->
  last lines <> Some [] ->
  ReadFile fs path = Some (concat (map (fun l => l ++ [CR; LF]) lines)) ->
  exists c,
    ParseConfig home fs path = inl c /\
    ConfigFile.Lines c = lines /\
    ((exists fs', Save fs c = (fs', None)) <->
       writable fs path = true /\ writable fs (path ++ bs ".bak") = true) /\
    (forall fs', Save fs c = (fs', None) ->
       ReadFile fs' path = Some (concat (map (fun l => l ++ [LF]) lines)) /\
       ReadFile fs' (path ++ bs ".bak") = ReadFile fs path).
Proof.
  intros Hpath Hall Hlast Hfs.
  assert (Forall (fun l => forallb notLF l = true) lines) as HnoLF.
  { eapply Forall_impl; [exact Hall|]. by intros l (? & _). }
  exists (ConfigFile.mk path lines (parseLines lines)).
  assert (scanLines (concat (map (fun l => l ++ [CR; LF]) lines)) = inl lines) as Hread.
  { assert (concat (map (fun l => l ++ [CR; LF]) lines) =
            concat (map (fun l => l ++ [LF]) (map (fun l => l ++ [CR]) lines))) as ->.
    { rewrite map_map. f_equal. apply map_ext. intros l. by rewrite <- app_assoc. }
    unfold scanLines. rewrite rawLines_terminated.
    2:{ apply Forall_map. eapply Forall_impl; [exact HnoLF|]. intros l Hl. cbn beta.
        rewrite forallb_app, Hl. reflexivity. }
    assert (forallb (fun l => (Z.of_nat (length l) <? MaxScanTokenSize)%Z)
              (map (fun l => l ++ [CR]) lines) = true) as ->.
    { apply forallb_forall. intros l' (l & <- & Hl)%in_map_iff.
      rewrite Forall_forall in Hall.
      destruct (Hall l (proj2 (list_elem_of_In _ _) Hl)) as (_ & _ & Hlen).
      apply Z.ltb_lt. rewrite length_app. cbn [length]. lia. }
    f_equal. clear.
    induction lines as [|l lines IH]; [done|].
    cbn [map]. rewrite fmap_cons, dropCR_snoc. by f_equal. }
  pose proof (Stat_ReadFile _ _ _ Hfs) as Hstat.
  split; [|split; [done|split]].
  - unfold ParseConfig. rewrite bool_decide_eq_false_2 by done.
    apply ReadFile_Some in Hfs. by rewrite Hfs, Hread.
  - split.
    + intros [fs' Hs]. pose proof (Save_None _ _ _ Hs) as (_ & _ & _ & Hw & _).
      destruct (Save_None_files _ _ _ Hs) as (_ & Hb & _).
      split; [done|]. by apply Hb.
    + intros [Hw Hwb]. apply Save_succeeds; [done | done |].
      intros _. cbn [ConfigFile.Path]. by rewrite Hfs.
  - intros fs' Hs. split.
    + pose proof (Save_None_ReadFile _ _ _ Hs) as Hr.
      cbn [ConfigFile.Path ConfigFile.Lines] in Hr.
      by rewrite Hr, saveContent_terminated.
    + destruct (Save_None_files _ _ _ Hs) as (H1 & _). rewrite Hfs. by apply H1.
Qed.

(** The file of the first scenario, with CR LF line endings. *)
Definition demoCRLF : FS :=
  writeFile emptyFS configPath (concat (map (fun l => l ++ [CR; LF]) demoLines)).

Lemma ParseConfig_Save_line_endings_demo :
  exists c,
    ParseConfig demoHome demoCRLF configPath = inl c /\
    ConfigFile.Lines c = demoLines /\
    ((exists fs', Save demoCRLF c = (fs', None)) <->
       writable demoCRLF configPath = true /\
       writable demoCRLF (configPath ++ bs ".bak") = true) /\
    (forall fs', Save demoCRLF c = (fs', None) ->
       ReadFile fs' configPath = Some (concat (map (fun l => l ++ [LF]) demoLines)) /\
       ReadFile fs' (configPath ++ bs ".bak") = ReadFile demoCRLF configPath).
Proof.
  apply (ParseConfig_Save_line_endings demoHome demoCRLF configPath demoLines).
  - discriminate.
  - repeat constructor; discriminate.
  - discriminate.
  - reflexivity.
Defined.

(** ** What [ParseConfig] returns *)

Lemma rawLines_notLF data : Forall (fun l => forallb notLF l = true) (rawLines data).
Proof.
  induction data as [|c data IH]; [constructor|]. cbn [rawLines].
  destruct (Ascii.eqb c LF) eqn:E; [by constructor|].
  destruct (rawLines data) as [|l ls]; [|inversion IH; subst].
  - repeat constructor. cbn [forallb]. unfold notLF. by rewrite E.
  - constructor; [|done]. cbn [forallb]. unfold notLF at 1. by rewrite E.
Qed.

Lemma dropCR_prefix l : exists t, l = dropCR l ++ t.
Proof.
  unfold dropCR. destruct (last l); [|by exists []; rewrite app_nil_r].
  destruct (Ascii.eqb _ _); [|by exists []; rewrite app_nil_r].
  exists (drop (length l - 1) l). by rewrite take_drop.
Qed.

(** X18: What [ParseConfig] returns, by what is at the path asked for (the
    default path when none was given).  Nothing there: the configuration
    with that path and no lines.  A path that cannot be reached: an error.
    Something there: the scanner's error when a line has
    [MaxScanTokenSize] bytes or more, else an error when reading failed,
    else a configuration with that path whose lines are the scanned lines
    of the data and whose blocks are those of its lines; none of its lines
    contains a newline and each is shorter than [MaxScanTokenSize]. *)
Theorem ParseConfig_returns home fs path :
  let path' := if bool_decide (path = []) then DefaultConfigPath home else path in
  match lookupNode fs path' with
  | Absent => ParseConfig home fs path = inl (ConfigFile.mk path' [] [])
  | Unreachable => ParseConfig home fs path = inr ErrFile
  | Present data readError =>
      if forallb (fun l => (Z.of_nat (length l) <? MaxScanTokenSize)%Z) (rawLines data)
      then
        if readError then ParseConfig home fs path = inr ErrFile
        else
          exists c,
            ParseConfig home fs path = inl c /\
            ConfigFile.Path c = path' /\
            consistent c /\
            scanLines data = inl (ConfigFile.Lines c) /\
            Forall (fun l => forallb notLF l = true /\
                             (Z.of_nat (length l) < MaxScanTokenSize)%Z)
              (ConfigFile.Lines c)
      else ParseConfig home fs path = inr ErrTooLong
  end.
Proof.
  cbn zeta. unfold ParseConfig, scanLines.
  destruct (lookupNode fs _) as [| |data readError]; [done|done|].
  destruct (forallb _ (rawLines data)) eqn:E; [|done].
  destruct readError; [done|].
  eexists. split; [done|]. split; [done|]. split; [done|]. split; [done|].
  cbn [parseBlocks ConfigFile.Lines].
  apply Forall_fmap, Forall_forall. intros l Hl. cbn.
  pose proof (rawLines_notLF data) as HnoLF. rewrite Forall_forall in HnoLF.
  specialize (HnoLF l Hl).
  rewrite forallb_forall in E. specialize (E l (proj1 (list_elem_of_In _ _) Hl)).
  apply Z.ltb_lt in E. destruct (dropCR_prefix l) as [t Ht].
  split.
  - rewrite Ht, forallb_app in HnoLF. by apply andb_true_iff in HnoLF as [? _].
  - apply (f_equal length) in Ht. rewrite length_app in Ht. lia.
Qed.

(** ** Activation persists *)

Lemma foldOrbit_nonempty c : Forall (fun p : str => p <> []) (foldOrbit c).
Proof.
  unfold foldOrbit.
  destruct (Ascii.eqb (toLower c) "s"), (Ascii.eqb (toLower c) "k"); by repeat constructor.
Qed.

Lemma matchFold_length kw s rest :
  matchFold kw s = Some rest -> length kw + length rest <= length s.
Proof.
  revert s. induction kw as [|c kw IH]; intros s; cbn [matchFold length].
  - intros [= ->]. lia.
  - destruct (stripAny (foldOrbit c) s) as [t|] eqn:E; [|done].
    intros H%IH. apply stripAny_Some in E as (p & Hp & ->).
    pose proof (foldOrbit_nonempty c) as Hne. rewrite Forall_forall in Hne.
    specialize (Hne p Hp). rewrite length_app. destruct p; [done|]. cbn [length]. lia.
Qed.

Lemma lazyCapture_length s m : lazyCapture s = Some m -> 1 + length m <= length s.
Proof.
  unfold lazyCapture.
  assert (length s = length (takeWhile reSpace s) + length (dropWhile reSpace s)) as ->
    by (by rewrite <- length_app, takeWhile_dropWhile).
  destruct (takeWhile reSpace s) as [|x w']; [done|].
  destruct (dropWhile reSpace s) as [|y r].
  - unfold findLast. destruct w' as [|z w']; [done|].
    destruct (head _); [|done]. intros [= <-]. cbn [length]. lia.
  - destruct (forallb notLF _); [|done]. intros [= <-].
    destruct (dropWhileEnd_prefix reSpace (y :: r)) as [b Hb].
    apply (f_equal length) in Hb. rewrite length_app in Hb. cbn [length] in *. lia.
Qed.

Lemma leadingIndent_length l :
  length (leadingIndent l) + length (dropWhile reSpace l) <= length l.
Proof.
  unfold leadingIndent. induction l as [|c l IH]; [done|]. cbn [takeWhile dropWhile].
  destruct (isBlank c) eqn:E.
  - rewrite (isBlank_reSpace c E). cbn [length]. lia.
  - cbn [length]. destruct (reSpace c); cbn [length]; [|lia].
    destruct (dropWhile_suffix reSpace l) as [a Ha].
    apply (f_equal length) in Ha. rewrite length_app in Ha. lia.
Qed.

Lemma identityFileMatch_length l m1 m3 :
  identityFileMatch l = Some (m1, m3) ->
  length (leadingIndent l) + 13 + length m3 <= length l.
Proof.
  unfold identityFileMatch. pose proof (leadingIndent_length l) as Hl.
  set (s1 := dropWhile reSpace l) in *.
  assert (forall s2 g1 : str, length s2 <= length s1 ->
            match matchFold (bs "IdentityFile") s2 with
            | Some rest => (fun m3 => (g1, m3)) <$> lazyCapture rest
            | None => None
            end = Some (m1, m3) ->
            length (leadingIndent l) + 13 + length m3 <= length l) as Hgen.
  { intros s2 g1 Hs2. destruct (matchFold _ s2) as [rest|] eqn:E; [|done].
    apply matchFold_length in E. cbn [length bs list_ascii_of_string] in E.
    destruct (lazyCapture rest) as [m|] eqn:E'; [|done].
    apply lazyCapture_length in E'. cbn. intros [= _ <-]. lia. }
  destruct s1 as [|c t] eqn:Es1; [by apply Hgen|].
  destruct (Ascii.eqb c "#"); [|by apply Hgen].
  apply Hgen. destruct (dropWhile_suffix reSpace t) as [a Ha].
  apply (f_equal length) in Ha. rewrite length_app in Ha. cbn [length]. lia.
Qed.

Lemma TrimSpace_length s : length (TrimSpace s) <= length s.
Proof.
  destruct (TrimSpace_infix s) as (a & b & Hs). apply (f_equal length) in Hs.
  rewrite !length_app in Hs. lia.
Qed.

Lemma isBlank_notLF ind :
  Forall (fun c => isBlank c = true) ind -> forallb notLF ind = true.
Proof.
  intros H. apply forallb_forall. intros c Hc%list_elem_of_In.
  rewrite Forall_forall in H. specialize (H c Hc). apply oneOf_true in H.
  apply elem_of_cons in H as [->|H]; [done|].
  apply elem_of_cons in H as [->|H]; [done|]. by apply elem_of_nil in H.
Qed.

(** A line written with a keyword and a trimmed path does not end in a
    carriage return. *)
Lemma written_last ind kw m3 :
  last kw = Some SP -> last (ind ++ kw ++ TrimSpace m3) <> Some CR.
Proof.
  intros Hkw. rewrite app_assoc, last_app.
  destruct (TrimSpace m3) as [|c t] eqn:E using rev_ind.
  - cbn [last]. rewrite last_app, Hkw. discriminate.
  - rewrite last_snoc. intros [= ->].
    by pose proof (TrimSpace_last _ _ _ E).
Qed.

Section Persist.

Variable home : option str.

(** A line fit for the scanner, with room for the two bytes commenting
    adds. *)
Definition roomy (l : str) : Prop :=
  forallb notLF l = true /\ last l <> Some CR /\
  (Z.of_nat (length l) + 2 < MaxScanTokenSize)%Z.

Lemma roomy_scannable l : roomy l -> scannable l.
Proof. intros (? & ? & ?). repeat split; [done | done | lia]. Qed.

Lemma activateLine_scannable nkp l : roomy l -> scannable (activateLine home nkp l).
Proof.
  intros Hl. pose proof (roomy_scannable l Hl) as Hsc. destruct Hl as (_ & _ & Hlen).
  unfold activateLine. destruct (identityFileMatch l) as [[m1 m3]|] eqn:E; [|done].
  pose proof (identityFileMatch_length _ _ _ E) as Hlen'.
  pose proof (TrimSpace_length m3) as Hlen3.
  pose proof (identityFilePattern_notLF _ _ _ E) as Hm3.
  pose proof (leadingIndent_blank l) as Hind.
  assert (forall kw, forallb notLF kw = true -> last kw = Some SP -> length kw <= 15 ->
            scannable (leadingIndent l ++ kw ++ TrimSpace m3)) as Hwritten.
  { intros kw Hkw Hlast Hk. split; [|split].
    - rewrite !forallb_app, (isBlank_notLF _ Hind), Hkw. by rewrite TrimSpace_notLF.
    - by apply written_last.
    - rewrite !length_app. lia. }
  destruct (bool_decide _).
  - rewrite uncommentIdentityFile_closed, E.
    apply Hwritten; [reflexivity | reflexivity | cbn; lia].
  - rewrite commentIdentityFile_closed, E.
    destruct (negb _); [done|]. apply Hwritten; [reflexivity | reflexivity | cbn; lia].
Qed.

Lemma Forall_replaced (P Q : str -> Prop) (f : str -> str) pre gs1 h body gs2 :
  (forall l, P l -> Q l) -> (forall l, P l -> Q (f l)) ->
  Forall P (pre ++ flatten (gs1 ++ (h, body) :: gs2)) ->
  Forall Q (pre ++ flatten (gs1 ++ (h, map f body) :: gs2)).
Proof.
  intros HPQ Hf. rewrite !flatten_app, !flatten_cons. cbn [fst snd].
  rewrite !Forall_app, !Forall_cons, !Forall_app.
  intros (Hpre & H1 & Hh & Hb & H2).
  repeat split; try (eapply Forall_impl; [eassumption | exact HPQ]); [by apply HPQ|].
  apply Forall_map. eapply Forall_impl; [exact Hb | exact Hf].
Qed.

Lemma Save_ParseConfig_scannable fs c fs' :
  consistent c -> Forall scannable (ConfigFile.Lines c) ->
  Save fs c = (fs', None) ->
  exists c',
    ParseConfig home fs' (ConfigFile.Path c) = inl c' /\
    structure (ConfigFile.Blocks c') = structure (ConfigFile.Blocks c).
Proof.
  intros Hc Hscan Hsave.
  destruct (scanLines_saveContent _ Hscan) as (lines' & Hscan' & Hlines).
  exists (ConfigFile.mk (ConfigFile.Path c) lines' (parseLines lines')). split.
  - by rewrite (ParseConfig_saved home fs c fs' Hsave), Hscan'.
  - cbn [ConfigFile.Blocks]. rewrite Hc.
    destruct Hlines as [->| ->]; [done|].
    by rewrite structure_parseLines_snoc_empty.
Qed.

End Persist.

Lemma firstActive_structure ifls1 ifls2 :
  map (fun e => (IdentityFileLine.Path e, IdentityFileLine.IsCommented e)) ifls1 =
  map (fun e => (IdentityFileLine.Path e, IdentityFileLine.IsCommented e)) ifls2 ->
  firstActive ifls1 = firstActive ifls2.
Proof.
  revert ifls2. induction ifls1 as [|e1 l1 IH]; intros [|e2 l2]; try done.
  cbn [map firstActive]. intros [= Hp Hc Hrest]. rewrite Hp, Hc, (IH _ Hrest). done.
Qed.

Lemma GetActiveIdentityFile_structure c1 c2 hostname :
  structure (ConfigFile.Blocks c1) = structure (ConfigFile.Blocks c2) ->
  GetActiveIdentityFile c1 hostname = GetActiveIdentityFile c2 hostname.
Proof.
  unfold GetActiveIdentityFile, FindHostBlock.
  generalize (ConfigFile.Blocks c1) (ConfigFile.Blocks c2).
  induction l as [|b1 l1 IH]; intros [|b2 l2]; try done.
  cbn [structure map findBlock]. intros [= Hn Hifs Hrest]. rewrite Hn.
  destruct (bool_decide _); [by apply firstActive_structure | by apply IH].
Qed.

(** X19: An activation survives the file: after a successful [ActivateKey] on
    a parsed configuration whose lines fit the scanner with two bytes to
    spare (no newline inside, no carriage return at the end), saving the
    result without error and reading the file again gives blocks with the
    same host
    names, paths and commented flags, and [GetActiveIdentityFile] returns
    for every host what it returned in memory; for [hostname] that is a path
    with the normal form of [keyPath]. *)
Theorem activation_persists home fs c hostname keyPath c' fs' :
  consistent c ->
  ConfigFile.Path c <> [] ->
  Forall roomy (ConfigFile.Lines c) ->
  ActivateKey home c hostname keyPath = Some (c', None) ->
  Save fs c' = (fs', None) ->
  exists c'',
    ParseConfig home fs' (ConfigFile.Path c) = inl c'' /\
    structure (ConfigFile.Blocks c'') = structure (ConfigFile.Blocks c') /\
    (forall other, GetActiveIdentityFile c'' other = GetActiveIdentityFile c' other) /\
    normalizePath home (GetActiveIdentityFile c'' hostname) = normalizePath home keyPath.
Proof.
  intros Hc Hpath Hroomy Hact Hsave.
  pose proof (ActivateKey_consistent home c hostname keyPath c' None Hc Hact) as Hc'.
  pose proof (GetActiveIdentityFile_activated home c hostname keyPath c' Hc Hact) as Hactive.
  destruct (ActivateKey_success_inv home c hostname keyPath c' Hact) as (b & Hf & Hfound).
  destruct (ActivateKey_shape home c hostname keyPath b Hc Hf Hfound)
    as (pre & gs1 & [h body] & gs2 & Hs & Hb & Hh & Hn & Hg' & Heq).
  cbn [fst snd] in *. rewrite Heq in Hact. injection Hact as Hc'eq.
  assert (Forall scannable (ConfigFile.Lines c')) as Hscan.
  { rewrite <- Hc'eq. cbn [ConfigFile.Lines]. destruct Hs as (Hlines & _ & _).
    rewrite Hlines in Hroomy.
    apply (Forall_replaced roomy scannable _ pre gs1 h body gs2);
      [apply roomy_scannable | apply activateLine_scannable | done]. }
  assert (ConfigFile.Path c' = ConfigFile.Path c) as Hpath' by by rewrite <- Hc'eq.
  destruct (Save_ParseConfig_scannable home fs c' fs' Hc' Hscan Hsave)
    as (c'' & Hread & Hstruct).
  exists c''. rewrite <- Hpath'. split; [done|]. split; [done|].
  split; [intros other; by apply GetActiveIdentityFile_structure|].
  by rewrite (GetActiveIdentityFile_structure c'' c' hostname Hstruct).
Qed.

(** The first scenario, saved and read again. *)
Lemma activation_persists_demo :
  exists c'',
    ParseConfig demoHome (fst (Save emptyFS demoActivated)) (ConfigFile.Path demoConfig) =
      inl c'' /\
    structure (ConfigFile.Blocks c'') = structure (ConfigFile.Blocks demoActivated) /\
    (forall other,
       GetActiveIdentityFile c'' other = GetActiveIdentityFile demoActivated other) /\
    normalizePath demoHome (GetActiveIdentityFile c'' (bs "work")) =
      normalizePath demoHome (bs "~/.ssh/id_personal").
Proof.
  apply (activation_persists demoHome emptyFS demoConfig (bs "work") (bs "~/.ssh/id_personal")
           demoActivated (fst (Save emptyFS demoActivated))).
  - reflexivity.
  - discriminate.
  - repeat constructor; discriminate.
  - vm_compute. reflexivity.
  - reflexivity.
Defined.

(** ** An added key persists *)

Lemma leadingIndent_le l : length (leadingIndent l) <= length l.
Proof. pose proof (leadingIndent_length l). lia. Qed.

Lemma detectIndentLoop_length body :
  length (detectIndentLoop body) <= 4 \/
  exists l, l ∈ body /\ length (detectIndentLoop body) <= length l.
Proof.
  destruct (detectIndentLoop_indentFrom body)
    as [(before & line & after & -> & _ & _ & ->)|[_ ->]]; [right | left; cbn; lia].
  exists line. split; [|apply leadingIndent_le].
  apply elem_of_app. right. left.
Qed.

Lemma plain_last_not_CR p : plain p -> last p <> Some CR.
Proof.
  intros Hp. destruct (plain_last p Hp) as (t & c & -> & Hc).
  rewrite last_snoc. by intros [= ->].
Qed.

(** X20: An added key survives the file: after a successful [AddIdentityFile]
    of a plain [keyPath] on a parsed configuration whose lines fit the
    scanner with room for the new line's keyword and [keyPath], saving the
    result without error and reading the file again gives blocks with the
    same host
    names, paths and commented flags, and [GetActiveIdentityFile] returns
    for every host what it returned in memory. *)
Theorem addition_persists home fs c hostname keyPath active c' fs' :
  consistent c ->
  ConfigFile.Path c <> [] ->
  plain keyPath ->
  (Z.of_nat (length keyPath) + 19 < MaxScanTokenSize)%Z ->
  Forall (fun l => forallb notLF l = true /\ last l <> Some CR /\
                   (Z.of_nat (length l) + Z.of_nat (length keyPath) + 15 <
                    MaxScanTokenSize)%Z) (ConfigFile.Lines c) ->
  AddIdentityFile home c hostname keyPath active = Some (c', None) ->
  Save fs c' = (fs', None) ->
  exists c'',
    ParseConfig home fs' (ConfigFile.Path c) = inl c'' /\
    structure (ConfigFile.Blocks c'') = structure (ConfigFile.Blocks c') /\
    (forall other, GetActiveIdentityFile c'' other = GetActiveIdentityFile c' other).
Proof.
  intros Hc Hpath Hp Hk Hall Hadd Hsave.
  pose proof (AddIdentityFile_consistent home c hostname keyPath active c' None Hc Hadd) as Hc'.
  assert (Forall scannable (ConfigFile.Lines c)) as Hscan0.
  { eapply Forall_impl; [exact Hall|]. intros l (? & ? & ?). repeat split; [done|done|lia]. }
  assert (ConfigFile.Path c' = ConfigFile.Path c /\ Forall scannable (ConfigFile.Lines c'))
    as [Hpath' Hscan].
  { destruct (FindHostBlock c hostname) as [b|] eqn:Hf.
    2:{ unfold AddIdentityFile in Hadd. by rewrite Hf in Hadd. }
    destruct (existsb (samePath home (normalizePath home keyPath))
                (HostBlock.IdentityFiles b)) eqn:Hfound.
    { unfold AddIdentityFile in Hadd. rewrite Hf, Hfound in Hadd. by injection Hadd as <-. }
    destruct (AddIdentityFile_shape home c hostname keyPath active b Hc Hf Hfound)
      as (pre & gs1 & [h body] & gs2 & Hs & Hb & Hh & Hn & Hg' & _ & _ & Heq).
    cbn [fst snd] in *. rewrite Heq in Hadd. injection Hadd as <-. split; [done|].
    cbn [ConfigFile.Lines]. destruct Hs as (Hlines & _ & _). rewrite Hlines in Hall, Hscan0.
    revert Hall Hscan0. rewrite !flatten_app, !flatten_cons. cbn [fst snd].
    rewrite !Forall_app, !Forall_cons, !Forall_app.
    intros (_ & _ & _ & Hbody & _) (Hpre & H1 & Hh0 & Hb0 & H2).
    do 3 (split; [done|]). split; [|done].
    split; [by apply Forall_take|]. constructor; [|by apply Forall_drop].
    set (indent := detectIndentLoop body).
    pose proof (detectIndentLoop_blank body) as Hind. fold indent in Hind.
    assert (Z.of_nat (length indent) + Z.of_nat (length keyPath) + 15 <
            MaxScanTokenSize)%Z as Hlen.
    { pose proof (detectIndentLoop_length body) as Hdl. fold indent in Hdl.
      destruct Hdl as [H4|(l & Hl & Hle)]; [lia|].
      rewrite Forall_forall in Hbody. destruct (Hbody l Hl) as (_ & _ & ?). lia. }
    destruct Hp as (Hne & HnoLF & Htrim).
    assert (forall kw, forallb notLF kw = true -> length kw <= 15 ->
              scannable (indent ++ kw ++ keyPath)) as Hwritten.
    { intros kw Hkw Hk15. split; [|split].
      - by rewrite !forallb_app, (isBlank_notLF _ Hind), Hkw, HnoLF.
      - rewrite app_assoc, last_app.
        pose proof (plain_last_not_CR keyPath (conj Hne (conj HnoLF Htrim))) as Hl.
        destruct (last keyPath) eqn:E; [done|]. apply last_None in E. done.
      - rewrite !length_app. lia. }
    unfold newIdentityLine. destruct active; apply Hwritten; (reflexivity || cbn; lia). }
  destruct (Save_ParseConfig_scannable home fs c' fs' Hc' Hscan Hsave)
    as (c'' & Hread & Hstruct).
  exists c''. rewrite <- Hpath'. split; [done|]. split; [done|].
  intros other. by apply GetActiveIdentityFile_structure.
Qed.

(** The third scenario, saved and read again. *)
Lemma addition_persists_one :
  exists c'',
    ParseConfig demoHome (fst (Save emptyFS oneAdded)) (ConfigFile.Path oneConfig) = inl c'' /\
    structure (ConfigFile.Blocks c'') = structure (ConfigFile.Blocks oneAdded) /\
    (forall other, GetActiveIdentityFile c'' other = GetActiveIdentityFile oneAdded other).
Proof.
  apply (addition_persists demoHome emptyFS oneConfig (bs "work") (bs "~/.ssh/id_new") false
           oneAdded (fst (Save emptyFS oneAdded))).
  - reflexivity.
  - discriminate.
  - split; [discriminate|]. split; reflexivity.
  - reflexivity.
  - repeat constructor; discriminate.
  - vm_compute. reflexivity.
  - reflexivity.
Defined.

(** ** Paths *)

Definition noSlash (e : str) : Prop := Forall (fun c => c <> SLASH) e.

Lemma splitSlash_nonempty s : splitSlash s <> [].
Proof.
  destruct s as [|c t]; [done|]. cbn [splitSlash].
  destruct (Ascii.eqb c SLASH); [done|]. by destruct (splitSlash t).
Qed.

Lemma splitSlash_noSlash s : Forall noSlash (splitSlash s).
Proof.
  induction s as [|c t IH]; [by repeat constructor|]. cbn [splitSlash].
  destruct (Ascii.eqb c SLASH) eqn:E; [constructor; [constructor | done]|].
  apply Ascii.eqb_neq in E.
  destruct (splitSlash t) as [|e es]; [by repeat constructor|].
  inversion IH; subst. constructor; [by constructor | done].
Qed.

Lemma splitSlash_elem e t :
  noSlash e -> splitSlash (e ++ SLASH :: t) = e :: splitSlash t.
Proof.
  induction 1 as [|c e Hc _ IH]; [done|]. cbn [app splitSlash].
  apply Ascii.eqb_neq in Hc. by rewrite Hc, IH.
Qed.

Lemma splitSlash_last e : noSlash e -> splitSlash e = [e].
Proof.
  induction 1 as [|c e Hc _ IH]; [done|]. cbn [splitSlash].
  apply Ascii.eqb_neq in Hc. by rewrite Hc, IH.
Qed.

Lemma splitSlash_Join es :
  es <> [] -> Forall noSlash es -> splitSlash (Join es [SLASH]) = es.
Proof.
  intros Hne H. induction H as [|e es He _ IH]; [done|].
  destruct es as [|e2 es]; [by apply splitSlash_last|].
  rewrite (Join_cons e (e2 :: es)) by done. cbn [app].
  rewrite splitSlash_elem by done. by rewrite IH.
Qed.

(** The stacks [Clean] builds: proper path elements, with [..] only at the
    bottom, and only in a path that is not rooted. *)
Fixpoint cleanStack (rooted : bool) (stack : list str) : Prop :=
  match stack with
  | [] => True
  | e :: below =>
      e <> [] /\ e <> bs "." /\ noSlash e /\
      (e = bs ".." -> rooted = false /\ Forall (fun x => x = bs "..") below) /\
      cleanStack rooted below
  end.

Lemma cleanStep_cleanStack rooted stack e :
  cleanStack rooted stack -> noSlash e -> cleanStack rooted (cleanStep rooted stack e).
Proof.
  intros Hst He. unfold cleanStep.
  destruct (bool_decide (e = [])) eqn:E1; [done|]. apply bool_decide_eq_false in E1.
  destruct (bool_decide (e = bs ".")) eqn:E2; [done|]. apply bool_decide_eq_false in E2.
  cbn [orb]. destruct (bool_decide (e = bs "..")) eqn:E3.
  - apply bool_decide_eq_true in E3. destruct stack as [|top below].
    + destruct rooted; [done|]. cbn. repeat split; by try constructor.
    + destruct (bool_decide (top = bs "..")) eqn:E4.
      * apply bool_decide_eq_true in E4.
        destruct Hst as (H1 & H2 & H3 & H4 & H5). destruct (H4 E4) as [Hr Hall].
        cbn [cleanStack]. repeat split; try done. by constructor.
      * by destruct Hst as (_ & _ & _ & _ & ?).
  - apply bool_decide_eq_false in E3. cbn [cleanStack]. by repeat split.
Qed.

Lemma fold_cleanStep_cleanStack rooted es stack :
  cleanStack rooted stack -> Forall noSlash es ->
  cleanStack rooted (fold_left (cleanStep rooted) es stack).
Proof.
  intros Hst Hes. revert stack Hst. induction Hes as [|e es He _ IH]; intros stack Hst; [done|].
  cbn [fold_left]. apply IH. by apply cleanStep_cleanStack.
Qed.

Lemma cleanStack_noSlash rooted stack : cleanStack rooted stack -> Forall noSlash stack.
Proof.
  induction stack as [|e below IH]; [constructor|].
  intros (_ & _ & He & _ & Hb). constructor; auto.
Qed.

(** Cleaning the elements of a clean stack builds the stack again. *)
Lemma fold_cleanStep_replay rooted stack :
  cleanStack rooted stack -> fold_left (cleanStep rooted) (rev stack) [] = stack.
Proof.
  induction stack as [|e below IH]; [done|].
  intros (H1 & H2 & H3 & H4 & H5). cbn [rev]. rewrite fold_left_app, IH by done.
  cbn [fold_left]. unfold cleanStep.
  rewrite (bool_decide_eq_false_2 _ H1), (bool_decide_eq_false_2 _ H2). cbn [orb].
  destruct (bool_decide (e = bs "..")) eqn:E3; [|done].
  apply bool_decide_eq_true in E3. destruct (H4 E3) as [-> Hall].
  destruct below as [|top below']; [done|].
  inversion Hall; subst. by rewrite bool_decide_eq_true_2.
Qed.

(** What [Clean] writes for a stack. *)
Definition cleanOut (rooted : bool) (stack : list str) : str :=
  let out := (if rooted then [SLASH] else []) ++ Join (rev stack) [SLASH] in
  match out with
  | [] => bs "."
  | _ :: _ => out
  end.

Lemma Clean_cleanOut rooted stack :
  cleanStack rooted stack -> Clean (cleanOut rooted stack) = cleanOut rooted stack.
Proof.
  intros Hst.
  pose proof (fold_cleanStep_replay rooted stack Hst) as Hreplay.
  pose proof (cleanStack_noSlash rooted stack Hst) as Hns.
  destruct stack as [|e below] eqn:Es; [by destruct rooted|]. rewrite <- Es in *.
  assert (rev stack <> []) as Hne by (rewrite Es; cbn [rev]; by destruct (rev below)).
  destruct rooted.
  - unfold cleanOut. cbn [app]. unfold Clean. rewrite Ascii.eqb_refl. cbn [splitSlash].
    rewrite Ascii.eqb_refl. cbn [fold_left].
    change (cleanStep true [] []) with (@nil str).
    rewrite splitSlash_Join by (done || by apply Forall_rev).
    by rewrite Hreplay.
  - assert (exists c1 e1 rest, rev stack = (c1 :: e1) :: rest /\ c1 <> SLASH)
      as (c1 & e1 & rest & Hrev & Hc1).
    { destruct (rev stack) as [|e0 rest] eqn:Er; [done|].
      assert (In e0 stack) as Hin by (apply in_rev; rewrite Er; by left).
      assert (e0 <> [] /\ noSlash e0) as [Hne0 Hns0].
      { clear -Hst Hin. induction stack as [|x below IH]; [done|].
        destruct Hst as (H1 & _ & H3 & _ & H5).
        destruct Hin as [<-|Hin]; [done | by apply IH]. }
      destruct e0 as [|c1 e1]; [done|]. inversion Hns0; subst. by exists c1, e1, rest. }
    assert (exists j, Join (rev stack) [SLASH] = c1 :: j) as [j Hj].
    { rewrite Hrev. destruct rest; cbn [Join app]; eauto. }
    unfold cleanOut. cbn [app]. rewrite Hj. unfold Clean.
    apply Ascii.eqb_neq in Hc1. rewrite Hc1. cbn [app].
    rewrite <- Hj. rewrite splitSlash_Join by (done || by apply Forall_rev).
    rewrite Hreplay. by rewrite Hj.
Qed.

(** [filepath.Clean] is idempotent. *)
Lemma Clean_idemp path : Clean (Clean path) = Clean path.
Proof.
  destruct path as [|c t]; [reflexivity|].
  change (Clean (c :: t))
    with (cleanOut (Ascii.eqb c SLASH)
            (fold_left (cleanStep (Ascii.eqb c SLASH)) (splitSlash (c :: t)) [])).
  apply Clean_cleanOut, fold_cleanStep_cleanStack; [done | apply splitSlash_noSlash].
Qed.

Lemma Clean_rooted t : exists out, Clean (SLASH :: t) = SLASH :: out.
Proof. unfold Clean. rewrite Ascii.eqb_refl. cbn [app]. eauto. Qed.

Lemma filepathJoin_home c h rest :
  filepathJoin [c :: h; rest] = Clean ((c :: h) ++ SLASH :: rest).
Proof. reflexivity. Qed.

Lemma stripPrefix_tilde_rooted t : stripPrefix (bs "~/") (SLASH :: t) = None.
Proof. reflexivity. Qed.

Lemma ActivateKey_normalized home c hostname k1 k2 c' :
  normalizePath home k1 = normalizePath home k2 ->
  ActivateKey home c hostname k1 = Some (c', None) ->
  ActivateKey home c hostname k2 = Some (c', None).
Proof.
  intros Hk. unfold ActivateKey. rewrite Hk.
  destruct (FindHostBlock c hostname) as [b|]; [|done].
  by destruct (negb _).
Qed.

(** X21: With an absolute home directory, a path written with [~/] and the same
    path written out under the home directory have one normal form, so
    [ActivateKey] succeeds with the one exactly when it succeeds with the
    other, and returns the same configuration. *)
Theorem tilde_or_home h rest c hostname c' :
  let home := Some (SLASH :: h) in
  let short := bs "~/" ++ rest in
  let long := (SLASH :: h) ++ SLASH :: rest in
  normalizePath home short = normalizePath home long /\
  (ActivateKey home c hostname short = Some (c', None) <->
   ActivateKey home c hostname long = Some (c', None)).
Proof.
  cbn zeta.
  assert (normalizePath (Some (SLASH :: h)) (bs "~/" ++ rest) =
          normalizePath (Some (SLASH :: h)) ((SLASH :: h) ++ SLASH :: rest)) as Hn.
  { unfold normalizePath. rewrite stripPrefix_app, filepathJoin_home, Clean_idemp.
    change ((SLASH :: h) ++ SLASH :: rest) with (SLASH :: (h ++ SLASH :: rest)).
    by rewrite stripPrefix_tilde_rooted. }
  split; [done|]. split; by apply ActivateKey_normalized.
Qed.

(** X22: [ExpandPath] and [normalizePath], for an absolute home directory.  The
    normal form of a path is its expansion, cleaned; the expansion of a
    path with [~/] is clean already, so it is the normal form; expanding a
    second time changes nothing; and [KeyExists] gives the same answer for
    a path with [~/] and for its normal form. *)
Theorem ExpandPath_normalizePath h fs p rest :
  let home := Some (SLASH :: h) in
  normalizePath home p = Clean (ExpandPath home p) /\
  ExpandPath home (bs "~/" ++ rest) = normalizePath home (bs "~/" ++ rest) /\
  ExpandPath home (ExpandPath home p) = ExpandPath home p /\
  KeyExists home fs (bs "~/" ++ rest) =
    KeyExists home fs (normalizePath home (bs "~/" ++ rest)).
Proof.
  cbn zeta.
  assert (forall r, ExpandPath (Some (SLASH :: h)) (bs "~/" ++ r) =
                    Clean ((SLASH :: h) ++ SLASH :: r)) as Hexp.
  { intros r. unfold ExpandPath. by rewrite stripPrefix_app. }
  assert (forall t, ExpandPath (Some (SLASH :: h)) (SLASH :: t) = SLASH :: t) as Habs
    by reflexivity.
  assert (forall r, normalizePath (Some (SLASH :: h)) (bs "~/" ++ r) =
                    Clean ((SLASH :: h) ++ SLASH :: r)) as Hnorm.
  { intros r. unfold normalizePath.
    by rewrite stripPrefix_app, filepathJoin_home, Clean_idemp. }
  split; [|split; [|split]].
  - unfold normalizePath, ExpandPath. by destruct (stripPrefix (bs "~/") p).
  - by rewrite Hexp, Hnorm.
  - destruct (stripPrefix (bs "~/") p) as [r|] eqn:E.
    + apply stripPrefix_Some in E as ->. rewrite Hexp.
      destruct (Clean_rooted (h ++ SLASH :: r)) as [out Hout].
      change ((SLASH :: h) ++ SLASH :: r) with (SLASH :: (h ++ SLASH :: r)).
      rewrite Hout. apply Habs.
    + assert (ExpandPath (Some (SLASH :: h)) p = p) as Hp
        by (unfold ExpandPath; by rewrite E).
      by rewrite !Hp.
  - unfold KeyExists. rewrite Hexp, Hnorm.
    destruct (Clean_rooted (h ++ SLASH :: rest)) as [out Hout].
    change ((SLASH :: h) ++ SLASH :: rest) with (SLASH :: (h ++ SLASH :: rest)).
    by rewrite Hout, Habs.
Qed.

(** * The login check (package [auth])

    [IsUserLoggedIn] and [GetAuthStatus] run [gh auth status] and look at
    what it prints.  [gh.Exec] is outside the program: [ghExec] stands for
    one run of the command in the present state of the machine, giving its
    standard output, its standard error, and whether it returned an
    error. *)

(** [strings.Contains]. *)
Fixpoint Contains (s substr : str) : bool :=
  HasPrefix s substr ||
  match s with
  | [] => false
  | _ :: t => Contains t substr
  end.

Section Auth.

Variable ghExec : list str -> str * str * bool.

Definition authStatus (hostname : str) : str * str * bool :=
  ghExec [bs "auth"; bs "status"; bs "--hostname"; hostname].

(** [fmt.Sprintf("Logged in to %s account %s", hostname, user)]. *)
Definition expectedPattern (hostname user : str) : str :=
  bs "Logged in to " ++ hostname ++ bs " account " ++ user.

Definition IsUserLoggedIn (hostname user : str) : bool :=
  let '(stdout, _, failed) := authStatus hostname in
  if failed then false else Contains stdout (expectedPattern hostname user).

(** The error [GetAuthStatus] returns is always [nil]: when the command
    fails, what it printed on standard error is the status. *)
Definition GetAuthStatus (hostname : str) : str * option error :=
  let '(stdout, stderr, failed) := authStatus hostname in
  if failed then (stderr, None) else (stdout, None).

End Auth.

Lemma HasPrefix_app s a b : HasPrefix s (a ++ b) = true -> HasPrefix s a = true.
Proof.
  unfold HasPrefix. rewrite !bool_decide_eq_true. intros [t Ht].
  apply stripPrefix_Some in Ht as ->. rewrite <- app_assoc, stripPrefix_app. eauto.
Qed.

Lemma Contains_app s a b : Contains s (a ++ b) = true -> Contains s a = true.
Proof.
  induction s as [|c s IH]; cbn [Contains].
  - rewrite !orb_false_r. apply HasPrefix_app.
  - intros [H|H]%orb_true_iff; apply orb_true_iff; [left | right; by apply IH].
    by apply (HasPrefix_app _ _ b).
Qed.

(** X23: [IsUserLoggedIn] looks for the text [Logged in to <host> account
    <user>] anywhere in the output, with nothing required after it.  So
    when it holds for a user name it holds for every beginning of that
    name: with [alice] logged in, it answers yes for [ali] too.  And when it
    holds, [GetAuthStatus] returns, without error, a status in which the
    text occurs. *)
Theorem IsUserLoggedIn_prefix ghExec hostname user more :
  IsUserLoggedIn ghExec hostname (user ++ more) = true ->
  IsUserLoggedIn ghExec hostname user = true /\
  exists status,
    GetAuthStatus ghExec hostname = (status, None) /\
    Contains status (expectedPattern hostname user) = true.
Proof.
  unfold IsUserLoggedIn, GetAuthStatus.
  destruct (authStatus ghExec hostname) as [[stdout stderr] failed].
  destruct failed; [done|]. unfold expectedPattern. intros H.
  assert (Contains stdout (bs "Logged in to " ++ hostname ++ bs " account " ++ user) = true)
    as Hu; [|by eauto].
  apply (Contains_app _ _ more). by rewrite <- !app_assoc.
Qed.

(** One account logged in. *)
Definition aliceExec (args : list str) : str * str * bool :=
  (bs "github.com" ++ [LF] ++ bs "  Logged in to github.com account alice (keyring)" ++ [LF],
   [], false).

Lemma IsUserLoggedIn_prefix_alice :
  IsUserLoggedIn aliceExec (bs "github.com") (bs "ali") = true /\
  exists status,
    GetAuthStatus aliceExec (bs "github.com") = (status, None) /\
    Contains status (expectedPattern (bs "github.com") (bs "ali")) = true.
Proof.
  apply (IsUserLoggedIn_prefix aliceExec (bs "github.com") (bs "ali") (bs "ce")).
  vm_compute. reflexivity.
Defined.
